(** * LC3plus fixed-point core: basic operators and the attack detector

    A shallow embedding of
    - [src/fixed_point/basic_op/basop32.c]  (saturating 16/32-bit operators)
    - [src/fixed_point/attack_detector_fx.c] (transient detector)

    Conventions of the embedding:
    - a [Word16] / [Word32] value is a [Z] in the signed range of its width;
      every C conversion to a narrower type is written out as [cast16] /
      [cast32] (two's-complement wrap-around);
    - the global diagnostic variables of basop32.c form the record [Globals]
      and every operator is a state-passing computation [M A];
    - the operation counters of [#if (WMOPS)] blocks are not modelled
      (WMOPS = 0), so [printStack] is never reached either. *)

From Stdlib Require Import ZArith Lia List Bool.
Import ListNotations.
Open Scope Z_scope.

(** ** Machine words *)

(** Modelled from the spec: the limits MAX_16, MIN_16, MAX_32 and MIN_32 are
    macros of a header that is not part of the sources; the spec gives the
    ranges -32768..32767 and -2^31..2^31-1. *)
Definition MAX_16 : Z := 0x7fff.
Definition MIN_16 : Z := -32768.
Definition MAX_32 : Z := 0x7fffffff.
Definition MIN_32 : Z := -2147483648.

Definition Word16 (x : Z) : Prop := MIN_16 <= x <= MAX_16.
Definition Word32 (x : Z) : Prop := MIN_32 <= x <= MAX_32.

(** Conversion to a signed [w]-bit integer: keep the low [w] bits and read
    them in two's complement. *)
Definition wrap (w : Z) (x : Z) : Z :=
  (x + 2 ^ (w - 1)) mod 2 ^ w - 2 ^ (w - 1).

Definition cast16 (x : Z) : Z := wrap 16 x.
Definition cast32 (x : Z) : Z := wrap 32 x.

(** The mathematical clamp the specification speaks about. *)
Definition clamp (lo hi x : Z) : Z :=
  if x <? lo then lo else if hi <? x then hi else x.

(** ** Global diagnostic state of basop32.c *)

Record Globals : Type := mkGlobals {
  Carry : Z;
  Overflow : Z;
  Overflow2 : Z;
  overflow_count : Z;
  overflow_warning_enable : Z;
  overflow_warning_disable_counter : Z;
  overflow_error_enable : Z
}.

(** Values of the globals at program start (their C initialisers). *)
Definition Globals_init : Globals :=
  {| Carry := 0; Overflow := 0; Overflow2 := 0; overflow_count := 0;
     overflow_warning_enable := 1; overflow_warning_disable_counter := 0;
     overflow_error_enable := 0 |}.

Definition incr_overflow_count (g : Globals) : Globals :=
  {| Carry := Carry g; Overflow := Overflow g; Overflow2 := Overflow2 g;
     overflow_count := cast32 (overflow_count g + 1);
     overflow_warning_enable := overflow_warning_enable g;
     overflow_warning_disable_counter := overflow_warning_disable_counter g;
     overflow_error_enable := overflow_error_enable g |}.

(** ** State-passing computations *)

Definition M (A : Type) : Type := Globals -> A * Globals.

Definition ret {A} (a : A) : M A := fun g => (a, g).

Definition bind {A B} (m : M A) (k : A -> M B) : M B :=
  fun g => let (a, g') := m g in k a g'.

Definition eval {A} (m : M A) (g : Globals) : A := fst (m g).
Definition exec {A} (m : M A) (g : Globals) : Globals := snd (m g).

Declare Scope basop_scope.
Delimit Scope basop_scope with basop.
Notation "x <- m ;; k" := (bind m (fun x => k))
  (at level 61, m at next level, right associativity) : basop_scope.
Notation "m ;; k" := (bind m (fun _ => k))
  (at level 61, right associativity) : basop_scope.
Notation "' pat <- m ;; k" := (bind m (fun x => match x with pat => k end))
  (at level 61, pat pattern, m at next level, right associativity) : basop_scope.
Open Scope basop_scope.

(** ** Build configuration

    basop32.c is compiled under preprocessor switches.  [BASOP_CHECK] is the
    function of basop32.c when BASOP_OVERFLOW2 is defined; otherwise it is a
    macro of basop32.h, a header that is not part of the sources, and is kept
    as the parameter [BASOP_CHECK_macro] (it receives the two indicators that
    the call site passes by value). *)

Class Build : Type := mkBuild {
  BASOP_OVERFLOW2 : bool;
  HIDE_UNUSED_BASOP : bool;
  BASOP_CHECK_macro : Z -> Z -> Globals -> Globals
}.

Section Operators.
Context {build : Build}.

(** [void BASOP_CHECK(int Overflow, int Overflow2)]: both parameters are
    passed by value; the assignments [Overflow = 0] and [Overflow2 = 0] in
    the body reset the parameters only. *)
Definition BASOP_CHECK_fn (Overflow Overflow2 : Z) : M unit := fun g =>
  if negb (overflow_warning_enable g =? 0) then
    let g1 :=
      if negb (Overflow =? 0) then
        (if HIDE_UNUSED_BASOP then g else incr_overflow_count g)
      else g in
    let g2 :=
      if negb (Overflow2 =? 0) then
        (if HIDE_UNUSED_BASOP then g1 else incr_overflow_count g1)
      else g1 in
    (tt, g2)
  else (tt, g).

Definition BASOP_CHECK (Overflow Overflow2 : Z) : M unit :=
  if BASOP_OVERFLOW2 then BASOP_CHECK_fn Overflow Overflow2
  else fun g => (tt, BASOP_CHECK_macro Overflow Overflow2 g).

(** [Word16 extract_l (Word32 L_var1)] *)
Definition extract_l (L_var1 : Z) : M Z :=
  let var_out := cast16 L_var1 in
  BASOP_CHECK 0 0 ;;
  ret var_out.

(** [Word16 extract_h (Word32 L_var1)] *)
Definition extract_h (L_var1 : Z) : M Z :=
  let var_out := cast16 (Z.shiftr L_var1 16) in
  BASOP_CHECK 0 0 ;;
  ret var_out.

(** [static Word16 saturate (Word32 L_var1)]; [Overflow] is the local
    [int Overflow = 0] of the function, not the global flag. *)
Definition saturate (L_var1 : Z) : M Z :=
  '(var_out, Overflow) <-
     (if L_var1 >? 0x7fff then ret (MAX_16, 1)
      else if L_var1 <? cast32 0xffff8000 then ret (MIN_16, 1)
      else var_out <- extract_l L_var1 ;; ret (var_out, 0)) ;;
  BASOP_CHECK Overflow 0 ;;
  ret var_out.

(** [Word16 add (Word16 var1, Word16 var2)] *)
Definition add (var1 var2 : Z) : M Z :=
  let L_sum := cast32 (var1 + var2) in
  var_out <- saturate L_sum ;;
  ret var_out.

(** [Word16 sub (Word16 var1, Word16 var2)] *)
Definition sub (var1 var2 : Z) : M Z :=
  let L_diff := cast32 (var1 - var2) in
  var_out <- saturate L_diff ;;
  ret var_out.

(** [Word32 L_deposit_l (Word16 var1)] *)
Definition L_deposit_l (var1 : Z) : M Z :=
  let L_var_out := var1 in
  BASOP_CHECK 0 0 ;;
  ret L_var_out.

(** [Word16 shl (Word16 var1, Word16 var2)] and
    [Word16 shr (Word16 var1, Word16 var2)] call each other for a negative
    count.  The callee then receives a count in 1..16 and does not call
    back, so the call depth is at most two; [fuel] bounds it
    ([shl_shr_fuel_enough]).

    In [shl], [result = (Word32) var1 * ((Word32) 1 << var2)] is written
    with 32-bit wrap-around.  C leaves the shift undefined for counts from
    31 and the product undefined when it overflows; in both cases
    [var2 > 15], and then [result] does not matter: [var1 != 0] decides
    the test by its first disjunct and [var1 == 0] makes the product 0. *)
Fixpoint shl_fuel (fuel : nat) (var1 var2 : Z) : M Z :=
  match fuel with
  | O => ret 0
  | S fuel' =>
    '(var_out, Overflow) <-
       (if var2 <? 0 then
          let var2 := if var2 <? -16 then -16 else var2 in
          let var2 := cast16 (- var2) in
          var_out <- shr_fuel fuel' var1 var2 ;;
          ret (var_out, 0)
        else
          let result := cast32 (var1 * cast32 (Z.shiftl 1 var2)) in
          if ((var2 >? 15) && negb (var1 =? 0))
             || negb (result =? cast32 (cast16 result))
          then ret (if var1 >? 0 then MAX_16 else MIN_16, 1)
          else var_out <- extract_l result ;; ret (var_out, 0)) ;;
    BASOP_CHECK Overflow 0 ;;
    ret var_out
  end
with shr_fuel (fuel : nat) (var1 var2 : Z) : M Z :=
  match fuel with
  | O => ret 0
  | S fuel' =>
    '(var_out, Overflow2) <-
       (if var2 <? 0 then
          let var2 := if var2 <? -16 then -16 else var2 in
          let var2 := cast16 (- var2) in
          var_out <- shl_fuel fuel' var1 var2 ;;
          ret (var_out, 0)
        else if var2 >=? 15 then
          ret (if var1 <? 0 then -1 else 0,
               if BASOP_OVERFLOW2 && (var2 >? 15) then 1 else 0)
        else if var1 <? 0 then
          ret (cast16 (Z.lnot (Z.shiftr (Z.lnot var1) var2)), 0)
        else
          ret (cast16 (Z.shiftr var1 var2), 0)) ;;
    BASOP_CHECK 0 Overflow2 ;;
    ret var_out
  end.

Definition shl (var1 var2 : Z) : M Z := shl_fuel 2 var1 var2.
Definition shr (var1 var2 : Z) : M Z := shr_fuel 2 var1 var2.

(** [Word32 L_mult (Word16 var1, Word16 var2)] *)
Definition L_mult (var1 var2 : Z) : M Z :=
  let L_var_out := cast32 (var1 * var2) in
  let '(L_var_out, Overflow) :=
    if negb (L_var_out =? 0x40000000) then (cast32 (L_var_out * 2), 0)
    else (MAX_32, 1) in
  BASOP_CHECK Overflow 0 ;;
  ret L_var_out.

(** [Word32 L_add (Word32 L_var1, Word32 L_var2)] *)
Definition L_add (L_var1 L_var2 : Z) : M Z :=
  let L_var_out := cast32 (L_var1 + L_var2) in
  let '(L_var_out, Overflow) :=
    if Z.land (Z.lxor L_var1 L_var2) MIN_32 =? 0 then
      if negb (Z.land (Z.lxor L_var_out L_var1) MIN_32 =? 0) then
        (if L_var1 <? 0 then MIN_32 else MAX_32, 1)
      else (L_var_out, 0)
    else (L_var_out, 0) in
  BASOP_CHECK Overflow 0 ;;
  ret L_var_out.

(** [Word32 L_sub (Word32 L_var1, Word32 L_var2)] *)
Definition L_sub (L_var1 L_var2 : Z) : M Z :=
  let L_var_out := cast32 (L_var1 - L_var2) in
  let '(L_var_out, Overflow) :=
    if negb (Z.land (Z.lxor L_var1 L_var2) MIN_32 =? 0) then
      if negb (Z.land (Z.lxor L_var_out L_var1) MIN_32 =? 0) then
        (if L_var1 <? 0 then MIN_32 else MAX_32, 1)
      else (L_var_out, 0)
    else (L_var_out, 0) in
  BASOP_CHECK Overflow 0 ;;
  ret L_var_out.

(** [Word32 L_mac (Word32 L_var3, Word16 var1, Word16 var2)] *)
Definition L_mac (L_var3 var1 var2 : Z) : M Z :=
  L_product <- L_mult var1 var2 ;;
  L_var_out <- L_add L_var3 L_product ;;
  BASOP_CHECK 0 0 ;;
  ret L_var_out.

(** [Word32 L_msu (Word32 L_var3, Word16 var1, Word16 var2)] *)
Definition L_msu (L_var3 var1 var2 : Z) : M Z :=
  L_product <- L_mult var1 var2 ;;
  L_var_out <- L_sub L_var3 L_product ;;
  BASOP_CHECK 0 0 ;;
  ret L_var_out.

(** The [for (; var2 > 0; var2--)] loop of [L_shl]; the result is
    [(L_var_out, Overflow)] and [n] is the number of iterations left. *)
Fixpoint L_shl_loop (n : nat) (L_var1 L_var_out : Z) : Z * Z :=
  match n with
  | O => (L_var_out, 0)
  | S n' =>
    if L_var1 >? 0x3fffffff then (MAX_32, 1)
    else if L_var1 <? cast32 0xc0000000 then (MIN_32, 1)
    else
      let L_var1 := cast32 (L_var1 * 2) in
      L_shl_loop n' L_var1 L_var1
  end.

(** [Word32 L_shl (Word32 L_var1, Word16 var2)] and
    [Word32 L_shr (Word32 L_var1, Word16 var2)], with the same bounded
    mutual calls as [shl] and [shr]. *)
Fixpoint L_shl_fuel (fuel : nat) (L_var1 var2 : Z) : M Z :=
  match fuel with
  | O => ret 0
  | S fuel' =>
    '(L_var_out, Overflow) <-
       (if var2 <=? 0 then
          let var2 := if var2 <? -32 then -32 else var2 in
          let var2 := cast16 (- var2) in
          L_var_out <- L_shr_fuel fuel' L_var1 var2 ;;
          ret (L_var_out, 0)
        else ret (L_shl_loop (Z.to_nat var2) L_var1 0)) ;;
    BASOP_CHECK Overflow 0 ;;
    ret L_var_out
  end
with L_shr_fuel (fuel : nat) (L_var1 var2 : Z) : M Z :=
  match fuel with
  | O => ret 0
  | S fuel' =>
    '(L_var_out, Overflow2) <-
       (if var2 <? 0 then
          let var2 := if var2 <? -32 then -32 else var2 in
          let var2 := cast16 (- var2) in
          L_var_out <- L_shl_fuel fuel' L_var1 var2 ;;
          ret (L_var_out, 0)
        else if var2 >=? 31 then
          ret (if L_var1 <? 0 then -1 else 0,
               if BASOP_OVERFLOW2 && (var2 >? 31) then 1 else 0)
        else if L_var1 <? 0 then
          ret (Z.lnot (Z.shiftr (Z.lnot L_var1) var2), 0)
        else
          ret (Z.shiftr L_var1 var2, 0)) ;;
    BASOP_CHECK 0 Overflow2 ;;
    ret L_var_out
  end.

Definition L_shl (L_var1 var2 : Z) : M Z := L_shl_fuel 2 L_var1 var2.
Definition L_shr (L_var1 var2 : Z) : M Z := L_shr_fuel 2 L_var1 var2.

(** The [for (var_out = 0; var1 < 0x4000; var_out++) var1 <<= 1] loop of
    [norm_s]; [None] when [fuel] iterations did not reach the exit. *)
Fixpoint norm_s_loop (fuel : nat) (var1 var_out : Z) : option Z :=
  match fuel with
  | O => None
  | S fuel' =>
    if var1 <? 0x4000 then
      norm_s_loop fuel' (cast16 (Z.shiftl var1 1)) (cast16 (var_out + 1))
    else Some var_out
  end.

(** [Word16 norm_s (Word16 var1)], the loop run with at most [fuel]
    iterations. *)
Definition norm_s_fuel (fuel : nat) (var1 : Z) : M (option Z) :=
  var_out <-
    (if var1 =? 0 then ret (Some 0)
     else if var1 =? cast16 0xffff then ret (Some 15)
     else
       let var1 := if var1 <? 0 then cast16 (Z.lnot var1) else var1 in
       ret (norm_s_loop fuel var1 0)) ;;
  BASOP_CHECK 0 0 ;;
  ret var_out.

Definition norm_s (var1 : Z) : M (option Z) := norm_s_fuel 15 var1.

(** The 15 iterations of the shift-and-subtract loop of [div_s]; the state
    of the loop is [(var_out, L_num)]. *)
Fixpoint div_s_loop (n : nat) (var_out L_num L_denom : Z) : M (Z * Z) :=
  match n with
  | O => ret (var_out, L_num)
  | S n' =>
    let var_out := cast16 (Z.shiftl var_out 1) in
    let L_num := cast32 (Z.shiftl L_num 1) in
    '(var_out, L_num) <-
       (if L_num >=? L_denom then
          L_num <- L_sub L_num L_denom ;;
          var_out <- add var_out 1 ;;
          ret (var_out, L_num)
        else ret (var_out, L_num)) ;;
    div_s_loop n' var_out L_num L_denom
  end.

(** [Word16 div_s (Word16 var1, Word16 var2)]; [None] is [abort()]. *)
Definition div_s (var1 var2 : Z) : Globals -> option (Z * Globals) :=
  fun g =>
  if (var1 >? var2) || (var1 <? 0) || (var2 <? 0) then None
  else if var2 =? 0 then None
  else
    Some ((var_out <-
             (if var1 =? 0 then ret 0
              else if var1 =? var2 then ret MAX_16
              else
                L_num <- L_deposit_l var1 ;;
                L_denom <- L_deposit_l var2 ;;
                '(var_out, _) <- div_s_loop 15 0 L_num L_denom ;;
                ret var_out) ;;
           BASOP_CHECK 0 0 ;;
           ret var_out) g).

(** [Word16 i_mult (Word16 a, Word16 b)] (ORIGINAL_G7231 not defined). *)
Definition i_mult (a b : Z) : M Z :=
  let c := cast32 (a * b) in
  saturate c.

(** [Word32 L_mult0 (Word16 var1, Word16 var2)] *)
Definition L_mult0 (var1 var2 : Z) : M Z :=
  let L_var_out := cast32 (var1 * var2) in
  BASOP_CHECK 0 0 ;;
  ret L_var_out.

(** [Word32 L_mac0 (Word32 L_var3, Word16 var1, Word16 var2)] *)
Definition L_mac0 (L_var3 var1 var2 : Z) : M Z :=
  L_product <- L_mult0 var1 var2 ;;
  L_var_out <- L_add L_var3 L_product ;;
  BASOP_CHECK 0 0 ;;
  ret L_var_out.

(** [Word32 L_msu0 (Word32 L_var3, Word16 var1, Word16 var2)] *)
Definition L_msu0 (L_var3 var1 var2 : Z) : M Z :=
  L_product <- L_mult0 var1 var2 ;;
  L_var_out <- L_sub L_var3 L_product ;;
  BASOP_CHECK 0 0 ;;
  ret L_var_out.

(** [Word16 mac_r (Word32 L_var3, Word16 var1, Word16 var2)] *)
Definition mac_r (L_var3 var1 var2 : Z) : M Z :=
  L_var3 <- L_mac L_var3 var1 var2 ;;
  L_var3 <- L_add L_var3 0x00008000 ;;
  var_out <- extract_h L_var3 ;;
  BASOP_CHECK 0 0 ;;
  ret var_out.

(** [Word16 msu_r (Word32 L_var3, Word16 var1, Word16 var2)] *)
Definition msu_r (L_var3 var1 var2 : Z) : M Z :=
  L_var3 <- L_msu L_var3 var1 var2 ;;
  L_var3 <- L_add L_var3 0x00008000 ;;
  var_out <- extract_h L_var3 ;;
  BASOP_CHECK 0 0 ;;
  ret var_out.

End Operators.

(* ================================================================== *)
(** * The remaining operators of basop32.c *)

Definition set_Carry (v : Z) (g : Globals) : Globals :=
  mkGlobals v (Overflow g) (Overflow2 g) (overflow_count g)
    (overflow_warning_enable g) (overflow_warning_disable_counter g)
    (overflow_error_enable g).

Definition set_Overflow (v : Z) (g : Globals) : Globals :=
  mkGlobals (Carry g) v (Overflow2 g) (overflow_count g)
    (overflow_warning_enable g) (overflow_warning_disable_counter g)
    (overflow_error_enable g).

Section MoreOperators.
Context {build : Build}.

(** [Word16 abs_s (Word16 var1)] *)
Definition abs_s (var1 : Z) : M Z :=
  let '(var_out, Overflow2) :=
    if var1 =? cast16 MIN_16 then (MAX_16, if BASOP_OVERFLOW2 then 1 else 0)
    else if var1 <? 0 then (cast16 (- var1), 0)
    else (var1, 0) in
  BASOP_CHECK 0 Overflow2 ;;
  ret var_out.

(** [Word16 negate (Word16 var1)] *)
Definition negate (var1 : Z) : M Z :=
  let var_out := if var1 =? MIN_16 then MAX_16 else cast16 (- var1) in
  let Overflow2 :=
    if BASOP_OVERFLOW2 && negb (var_out =? - var1) then 1 else 0 in
  BASOP_CHECK 0 Overflow2 ;;
  ret var_out.

(** [Word32 L_negate (Word32 L_var1)] *)
Definition L_negate (L_var1 : Z) : M Z :=
  let L_var_out := if L_var1 =? MIN_32 then MAX_32 else cast32 (- L_var1) in
  let Overflow2 :=
    if BASOP_OVERFLOW2 && negb (L_var_out =? cast32 (- L_var1))
    then 1 else 0 in
  BASOP_CHECK 0 Overflow2 ;;
  ret L_var_out.

(** [Word32 L_abs (Word32 L_var1)] *)
Definition L_abs (L_var1 : Z) : M Z :=
  let '(L_var_out, Overflow2) :=
    if L_var1 =? MIN_32 then (MAX_32, if BASOP_OVERFLOW2 then 1 else 0)
    else if L_var1 <? 0 then (cast32 (- L_var1), 0)
    else (L_var1, 0) in
  BASOP_CHECK 0 Overflow2 ;;
  ret L_var_out.

(** [Word16 mult (Word16 var1, Word16 var2)] *)
Definition mult (var1 var2 : Z) : M Z :=
  let L_product := cast32 (var1 * var2) in
  let L_product := Z.shiftr (Z.land L_product (cast32 0xffff8000)) 15 in
  let L_product :=
    if negb (Z.land L_product 0x00010000 =? 0)
    then Z.lor L_product (cast32 0xffff0000)
    else L_product in
  var_out <- saturate L_product ;;
  ret var_out.

(** [Word16 mult_r (Word16 var1, Word16 var2)] *)
Definition mult_r (var1 var2 : Z) : M Z :=
  let L_product_arr := cast32 (var1 * var2) in               (* product *)
  let L_product_arr := cast32 (L_product_arr + 0x00004000) in  (* round *)
  let L_product_arr := Z.land L_product_arr (cast32 0xffff8000) in
  let L_product_arr := Z.shiftr L_product_arr 15 in            (* shift *)
  let L_product_arr :=
    if negb (Z.land L_product_arr 0x00010000 =? 0)
    then Z.lor L_product_arr (cast32 0xffff0000)
    else L_product_arr in
  var_out <- saturate L_product_arr ;;
  ret var_out.

(** [Word16 round_fx (Word32 L_var1)] *)
Definition round_fx (L_var1 : Z) : M Z :=
  L_rounded <- L_add L_var1 0x00008000 ;;
  var_out <- extract_h L_rounded ;;
  BASOP_CHECK 0 0 ;;
  ret var_out.

(** [Word32 L_deposit_h (Word16 var1)] *)
Definition L_deposit_h (var1 : Z) : M Z :=
  let L_var_out := cast32 (Z.shiftl var1 16) in
  BASOP_CHECK 0 0 ;;
  ret L_var_out.

(** [Word16 shr_r (Word16 var1, Word16 var2)] *)
Definition shr_r (var1 var2 : Z) : M Z :=
  '(var_out, Overflow2) <-
     (if var2 >? 15 then ret (0, if BASOP_OVERFLOW2 then 1 else 0)
      else
        var_out <- shr var1 var2 ;;
        let var_out :=
          if (var2 >? 0)
             && negb (Z.land var1 (Z.shiftl 1 (var2 - 1)) =? 0)
          then cast16 (var_out + 1) else var_out in
        ret (var_out, 0)) ;;
  BASOP_CHECK 0 Overflow2 ;;
  ret var_out.

(** [Word32 L_shr_r (Word32 L_var1, Word16 var2)] *)
Definition L_shr_r (L_var1 var2 : Z) : M Z :=
  '(L_var_out, Overflow2) <-
     (if var2 >? 31 then ret (0, if BASOP_OVERFLOW2 then 1 else 0)
      else
        L_var_out <- L_shr L_var1 var2 ;;
        let L_var_out :=
          if (var2 >? 0)
             && negb (Z.land L_var1 (cast32 (Z.shiftl 1 (var2 - 1))) =? 0)
          then cast32 (L_var_out + 1) else L_var_out in
        ret (L_var_out, 0)) ;;
  BASOP_CHECK 0 Overflow2 ;;
  ret L_var_out.

(** The loop of [norm_l], as [norm_s_loop]. *)
Fixpoint norm_l_loop (fuel : nat) (L_var1 var_out : Z) : option Z :=
  match fuel with
  | O => None
  | S fuel' =>
    if L_var1 <? cast32 0x40000000 then
      norm_l_loop fuel' (cast32 (Z.shiftl L_var1 1)) (cast16 (var_out + 1))
    else Some var_out
  end.

(** [Word16 norm_l (Word32 L_var1)], the loop run with at most [fuel]
    iterations. *)
Definition norm_l_fuel (fuel : nat) (L_var1 : Z) : M (option Z) :=
  var_out <-
    (if L_var1 =? 0 then ret (Some 0)
     else if L_var1 =? cast32 0xffffffff then ret (Some 31)
     else
       let L_var1 := if L_var1 <? 0 then Z.lnot L_var1 else L_var1 in
       ret (norm_l_loop fuel L_var1 0)) ;;
  BASOP_CHECK 0 0 ;;
  ret var_out.

Definition norm_l (L_var1 : Z) : M (option Z) := norm_l_fuel 31 L_var1.

(** The 15 iterations of the loop of [div_l]; the state is
    [(var_out, L_num)]. *)
Fixpoint div_l_loop (n : nat) (var_out L_num L_den : Z) : M (Z * Z) :=
  match n with
  | O => ret (var_out, L_num)
  | S n' =>
    var_out <- shl var_out 1 ;;
    L_num <- L_shl L_num 1 ;;
    '(var_out, L_num) <-
       (if L_num >=? L_den then
          L_num <- L_sub L_num L_den ;;
          var_out <- add var_out 1 ;;
          ret (var_out, L_num)
        else ret (var_out, L_num)) ;;
    div_l_loop n' var_out L_num L_den
  end.

(** [Word16 div_l (Word32 L_num, Word16 den)]; [None] is [exit(-1)]. *)
Definition div_l (L_num den : Z) : Globals -> option (Z * Globals) :=
  fun g =>
  if den =? 0 then None
  else if (L_num <? 0) || (den <? 0) then None
  else
    Some ((L_den <- L_deposit_h den ;;
           if L_num >=? L_den then
             let Overflow2 :=
               if BASOP_OVERFLOW2 && (L_num >? L_den) then 1 else 0 in
             BASOP_CHECK 0 Overflow2 ;;
             ret MAX_16
           else
             L_num <- L_shr L_num 1 ;;
             L_den <- L_shr L_den 1 ;;
             '(var_out, _) <- div_l_loop 15 0 L_num L_den ;;
             BASOP_CHECK 0 0 ;;
             ret var_out) g).

(** The operators from here on ([L_mls], [L_sat], [L_add_c], [L_sub_c],
    [L_macNs], [L_msuNs]) are compiled when [HIDE_UNUSED_BASOP] is not
    defined. *)

(** [Word32 L_mls (Word32 Lv, Word16 v)] *)
Definition L_mls (Lv v : Z) : M Z :=
  let Temp := Z.land Lv 0x0000ffff in
  let Temp := cast32 (Temp * v) in
  Temp <- L_shr Temp 15 ;;
  h <- extract_h Lv ;;
  Temp <- L_mac Temp v h ;;
  BASOP_CHECK 0 0 ;;
  ret Temp.

(** [Word32 L_sat (Word32 L_var1)]; [Overflow] is the local
    [int Overflow = 0] of the function, which is what the test reads. *)
Definition L_sat (L_var1 : Z) : M Z := fun g =>
  let Overflow := 0 in
  let L_var_out := L_var1 in
  let '(L_var_out, Overflow, g) :=
    if negb (Overflow =? 0) then
      (if negb (Carry g =? 0) then MIN_32 else MAX_32, 0, set_Carry 0 g)
    else (L_var_out, Overflow, g) in
  (BASOP_CHECK Overflow 0 ;; ret L_var_out) g.

(** [Word32 L_add_c (Word32 L_var1, Word32 L_var2)]: reads and writes the
    globals [Carry] and [Overflow]; no [BASOP_CHECK]. *)
Definition L_add_c (L_var1 L_var2 : Z) : M Z := fun g =>
  let L_var_out := cast32 (cast32 (L_var1 + L_var2) + Carry g) in
  let L_test := cast32 (L_var1 + L_var2) in
  let '(g, carry_int) :=
    if (L_var1 >? 0) && (L_var2 >? 0) && (L_test <? 0) then
      (set_Overflow 1 g, 0)
    else if (L_var1 <? 0) && (L_var2 <? 0) then
      (if L_test >=? 0 then (set_Overflow 1 g, 1)
       else (set_Overflow 0 g, 1))
    else if (Z.lxor L_var1 L_var2 <? 0) && (L_test >=? 0) then
      (set_Overflow 0 g, 1)
    else (set_Overflow 0 g, 0) in
  let g :=
    if negb (Carry g =? 0) then
      if L_test =? MAX_32 then set_Carry carry_int (set_Overflow 1 g)
      else if L_test =? cast32 0xFFFFFFFF then set_Carry 1 g
      else set_Carry carry_int g
    else set_Carry carry_int g in
  (L_var_out, g).

(** [Word32 L_sub_c (Word32 L_var1, Word32 L_var2)] *)
Definition L_sub_c (L_var1 L_var2 : Z) : M Z := fun g =>
  if negb (Carry g =? 0) then
    let g := set_Carry 0 g in
    if negb (L_var2 =? MIN_32) then
      L_add_c L_var1 (cast32 (- L_var2)) g
    else
      let L_var_out := cast32 (L_var1 - L_var2) in
      let g :=
        if L_var1 >? 0 then set_Carry 0 (set_Overflow 1 g) else g in
      (L_var_out, g)
  else
    let L_var_out := cast32 (cast32 (L_var1 - L_var2) - 0X00000001) in
    let L_test := cast32 (L_var1 - L_var2) in
    let '(g, carry_int) :=
      if (L_test <? 0) && (L_var1 >? 0) && (L_var2 <? 0) then
        (set_Overflow 1 g, 0)
      else if (L_test >? 0) && (L_var1 <? 0) && (L_var2 >? 0) then
        (set_Overflow 1 g, 1)
      else if (L_test >? 0) && (Z.lxor L_var1 L_var2 >? 0) then
        (set_Overflow 0 g, 1)
      else (g, 0) in
    let g :=
      if L_test =? MIN_32 then set_Carry carry_int (set_Overflow 1 g)
      else set_Carry carry_int g in
    (L_var_out, g).

(** [Word32 L_macNs (Word32 L_var3, Word16 var1, Word16 var2)] *)
Definition L_macNs (L_var3 var1 var2 : Z) : M Z :=
  L_var_out <- L_mult var1 var2 ;;
  L_var_out <- L_add_c L_var3 L_var_out ;;
  ret L_var_out.

(** [Word32 L_msuNs (Word32 L_var3, Word16 var1, Word16 var2)] *)
Definition L_msuNs (L_var3 var1 var2 : Z) : M Z :=
  L_var_out <- L_mult var1 var2 ;;
  L_var_out <- L_sub_c L_var3 L_var_out ;;
  ret L_var_out.

End MoreOperators.

(** The build used for evaluation: the instrumented one, where
    [BASOP_CHECK] is the function of basop32.c (the macro of the other
    builds is then unused). *)
Definition build_overflow2 : Build :=
  {| BASOP_OVERFLOW2 := true; HIDE_UNUSED_BASOP := false;
     BASOP_CHECK_macro := fun _ _ g => g |}.

(* ================================================================== *)
(** * The attack detector (attack_detector_fx.c) *)

(** ** Memory and structures

    A pointer is modelled by the memory it gives access to: a map from
    element index (relative to the pointer, possibly negative) to value. *)

Definition Mem : Type := Z -> Z.

Definition store (m : Mem) (i v : Z) : Mem :=
  fun j => if j =? i then v else m j.

(** The members of [LC3_Enc] and [EncSetup] that the detector names.  Both
    structs are declared in a header that is not part of the sources; their
    remaining members are kept as [enc_other] and [setup_other].  The
    members are taken to be [Word16], except [fs] and [attdec_acc_energy],
    which are [Word32]. *)
Record LC3_Enc : Type := mkLC3_Enc {
  fs : Z;
  frame_length : Z;
  attdec_nblocks : Z;
  attdec_hangover_thresh : Z;
  enc_other : list Z
}.

Record EncSetup : Type := mkEncSetup {
  attack_handling : Z;
  attdec_scaling : Z;
  attdec_filter_mem : Z * Z;
  attdec_acc_energy : Z;
  attdec_detected : Z;
  attdec_position : Z;
  setup_other : list Z
}.

Definition set_attdec_scaling (v : Z) (s : EncSetup) : EncSetup :=
  mkEncSetup (attack_handling s) v (attdec_filter_mem s)
    (attdec_acc_energy s) (attdec_detected s) (attdec_position s)
    (setup_other s).

Definition set_attdec_filter_mem (v : Z * Z) (s : EncSetup) : EncSetup :=
  mkEncSetup (attack_handling s) (attdec_scaling s) v
    (attdec_acc_energy s) (attdec_detected s) (attdec_position s)
    (setup_other s).

Definition set_attdec_acc_energy (v : Z) (s : EncSetup) : EncSetup :=
  mkEncSetup (attack_handling s) (attdec_scaling s) (attdec_filter_mem s)
    v (attdec_detected s) (attdec_position s) (setup_other s).

Definition set_attdec_detected (v : Z) (s : EncSetup) : EncSetup :=
  mkEncSetup (attack_handling s) (attdec_scaling s) (attdec_filter_mem s)
    (attdec_acc_energy s) v (attdec_position s) (setup_other s).

Definition set_attdec_position (v : Z) (s : EncSetup) : EncSetup :=
  mkEncSetup (attack_handling s) (attdec_scaling s) (attdec_filter_mem s)
    (attdec_acc_energy s) (attdec_detected s) v (setup_other s).

(** The two-element array [attdec_filter_mem] seen through a pointer. *)
Definition mem_of_pair (p : Z * Z) : Mem :=
  fun i => if i =? 0 then fst p else snd p.

(** The scratch workspace: [block_energy] at its start and, 4 * 4 + 4
    bytes further, [input_16k], which is indexed from -2.  The four bytes
    between the four block energies and [input_16k[0]] hold
    [input_16k[-2]] and [input_16k[-1]], so the two regions are disjoint
    as long as at most four block energies are used. *)
Record Scratch : Type := mkScratch {
  block_energy : Mem;
  input_16k : Mem
}.

(** Everything the call can reach through its pointer arguments.  The
    four objects are taken to be pairwise disjoint in memory. *)
Record State : Type := mkState {
  st_enc : LC3_Enc;
  st_setup : EncSetup;
  st_input : Mem;
  st_scratch : Scratch
}.

(** ** Helpers from outside the sources

    [getScaleFactor16], [getScaleFactor16_0], [getScaleFactor32_0] and
    [s_and] are defined in files that are not part of the sources; they are
    parameters of the model.  Each receives the memory behind its pointer
    argument, which it reads only, and may use the basic operators. *)
Class BasopUtil : Type := mkBasopUtil {
  getScaleFactor16 : Mem -> Z -> M Z;
  getScaleFactor16_0 : Mem -> Z -> M Z;
  getScaleFactor32_0 : Mem -> Z -> M Z;
  s_and : Z -> Z -> M Z
}.

(** Modelled from the spec: [s_min] is not part of the sources; the spec
    has the detector "take the minimum of the three" candidate exponents. *)
Definition s_min (var1 var2 : Z) : M Z :=
  ret (if var1 >=? var2 then var2 else var1).

(** Modelled from the spec: [L_max] is not part of the sources; the spec
    has the running energy updated "to the max of" the decayed energy and
    the block energy. *)
Definition L_max (L_var1 L_var2 : Z) : M Z :=
  ret (if L_var1 >=? L_var2 then L_var1 else L_var2).

(** Modelled from the spec: the macro [ASSERT] is not part of the sources;
    for an unsupported sampling rate "the reference aborts via assertion".
    [None] stands for the aborted call. *)
Definition ASSERT_abort {A : Type} : M (option A) := ret None.

(** Modelled from the spec: [basop_memset] is not part of the sources; the
    block energies are sums of squares accumulated from zero, so the call
    [basop_memset(block_energy, 0, 4 * sizeof(Word32))] stores [c] into
    the first [n] words. *)
Fixpoint basop_memset (m : Mem) (c : Z) (n : nat) : Mem :=
  match n with
  | O => m
  | Datatypes.S n' => store (basop_memset m c n') (Z.of_nat n') c
  end.

(** ** Loops *)

(** [for (i = start; ...; i++)] executed [n] times. *)
Fixpoint for_up {S : Type} (n : nat) (i : Z) (body : Z -> S -> M S) (s : S)
  : M S :=
  match n with
  | O => ret s
  | Datatypes.S n' => s' <- body i s ;; for_up n' (i + 1) body s'
  end.

(** [for (i = n - 1; i >= 0; i--)]. *)
Fixpoint for_down {S : Type} (n : nat) (body : Z -> S -> M S) (s : S)
  : M S :=
  match n with
  | O => ret s
  | Datatypes.S n' => s' <- body (Z.of_nat n') s ;; for_down n' body s'
  end.

Section AttackDetector.
Context {build : Build} {util : BasopUtil}.

(** Lines 29-47: the new common exponent and the rescaling of the
    persistent state.  Returns the updated [setup]. *)
Definition attdec_rescale (enc : LC3_Enc) (setup : EncSetup) (input : Mem)
  (input_scaling : Z) : M EncSetup :=
  scales0 <- (t <- getScaleFactor16 input (frame_length enc) ;;
              add t input_scaling) ;;
  scales1 <- (t <- getScaleFactor16_0 (mem_of_pair (attdec_filter_mem setup)) 2 ;;
              add t (attdec_scaling setup)) ;;
  scales2 <- (t <- getScaleFactor32_0 (fun _ => attdec_acc_energy setup) 1 ;;
              u <- shl (attdec_scaling setup) 1 ;;
              t <- add t u ;;
              t <- add t 1 ;;
              shr t 1) ;;
  new_scaling <- (t <- s_min scales1 scales2 ;; s_min scales0 t) ;;
  new_scaling <- sub new_scaling 2 ;;
  rescale <- sub new_scaling (attdec_scaling setup) ;;
  setup <-
    (if negb (rescale =? 0) then
       m0 <- shl (fst (attdec_filter_mem setup)) rescale ;;
       let setup := set_attdec_filter_mem (m0, snd (attdec_filter_mem setup))
                      setup in
       m1 <- shl (snd (attdec_filter_mem setup)) rescale ;;
       let setup := set_attdec_filter_mem (fst (attdec_filter_mem setup), m1)
                      setup in
       e <- (t <- shl rescale 1 ;; L_shl (attdec_acc_energy setup) t) ;;
       ret (set_attdec_acc_energy e setup)
     else ret setup) ;;
  ret (set_attdec_scaling new_scaling setup).

(** Lines 49-69: downsampling to 16 kHz into [input_16k]; the [default]
    label of the [SWITCH] is the [ASSERT]. *)
Definition attdec_resample (fs : Z) (input : Mem)
  (new_scaling input_scaling frame_length_16k : Z) (input_16k : Mem)
  : M (option Mem) :=
  if fs =? 32000 then
    input_delta_scaling <- (t <- sub new_scaling input_scaling ;; sub 1 t) ;;
    r <- for_up (Z.to_nat frame_length_16k) 0
           (fun i input_16k =>
              a <- shr (input (2 * i + 0)) input_delta_scaling ;;
              b <- shr (input (2 * i + 1)) input_delta_scaling ;;
              v <- add a b ;;
              ret (store input_16k i v))
           input_16k ;;
    ret (Some r)
  else if fs =? 48000 then
    input_delta_scaling <- (t <- sub new_scaling input_scaling ;; sub 2 t) ;;
    r <- for_up (Z.to_nat frame_length_16k) 0
           (fun i input_16k =>
              a <- shr (input (3 * i + 0)) input_delta_scaling ;;
              b <- shr (input (3 * i + 1)) input_delta_scaling ;;
              c <- shr (input (3 * i + 2)) input_delta_scaling ;;
              bc <- add b c ;;
              v <- add a bc ;;
              ret (store input_16k i v))
           input_16k ;;
    ret (Some r)
  else ASSERT_abort.

(** Lines 76-83: the 3-tap high-pass filter, in place, from the last
    sample down to the first. *)
Definition attdec_filter (frame_length_16k : Z) (input_16k : Mem) : M Mem :=
  for_down (Z.to_nat frame_length_16k)
    (fun i input_16k =>
       tmp <- L_mult (input_16k i) 12288 ;;
       tmp <- L_msu tmp (input_16k (i - 1)) 16384 ;;
       tmp <- L_mac tmp (input_16k (i - 2)) 4096 ;;
       v <- extract_h tmp ;;
       ret (store input_16k i v))
    input_16k.

(** Lines 85-93: the four block energies are cleared, then each block of
    40 samples is accumulated. *)
Definition attdec_block_energy (nblocks : Z) (input_16k : Mem)
  (block_energy : Mem) : M Mem :=
  let block_energy := basop_memset block_energy 0 4 in
  for_up (Z.to_nat nblocks) 0
    (fun j block_energy =>
       for_up 40 0
         (fun i block_energy =>
            e <- L_mac (block_energy j) (input_16k (i + j * 40))
                       (input_16k (i + j * 40)) ;;
            ret (store block_energy j e))
         block_energy)
    block_energy.

(** Lines 99-114, one iteration: the state is [(setup, position)]. *)
Definition attdec_threshold_step (block_energy : Mem) (i : Z)
  (sp : EncSetup * Z) : M (EncSetup * Z) :=
  let '(setup, position) := sp in
  (* block_energy[i] / 8.5 *)
  l16 <- (t <- L_shr (block_energy i) 1 ;; extract_l t) ;;
  l16 <- s_and l16 0x7fff ;;
  h16 <- extract_h (block_energy i) ;;
  tmp <- (t <- L_mult0 l16 30840 ;; L_shr t 15) ;;
  tmp <- (t <- L_mac0 tmp h16 30840 ;; L_shr t 2) ;;
  let '(setup, position) :=
    if tmp >? attdec_acc_energy setup
    then (set_attdec_detected 1 setup, i)
    else (setup, position) in
  e <- (t <- L_shr (attdec_acc_energy setup) 2 ;; L_max t (block_energy i)) ;;
  ret (set_attdec_acc_energy e setup, position).

(** Lines 95-115: hangover, the loop over the blocks, and the position. *)
Definition attdec_threshold (enc : LC3_Enc) (setup : EncSetup)
  (block_energy : Mem) : M EncSetup :=
  let setup :=
    set_attdec_detected
      (if attdec_position setup >=? attdec_hangover_thresh enc then 1 else 0)
      setup in
  let position := -1 in
  '(setup, position) <-
     for_up (Z.to_nat (attdec_nblocks enc)) 0
       (attdec_threshold_step block_energy) (setup, position) ;;
  ret (set_attdec_position (cast16 position) setup).

(** [void attack_detector_fx(LC3_Enc *enc, EncSetup *setup, Word16 *input,
    Word16 input_scaling, void *scratch)].  The result is [None] when the
    call aborts.  With [block_energy] and [input_16k] kept as two memories
    this is the function for [attdec_nblocks] in 0..4; from five blocks on
    [block_energy[4]] shares its bytes with [input_16k[-2]] and
    [input_16k[-1]], which the two memories do not show. *)
Definition attack_detector_fx (st : State) (input_scaling : Z)
  : M (option State) :=
  let enc := st_enc st in
  let setup := st_setup st in
  let input := st_input st in
  let scratch := st_scratch st in
  frame_length_16k <- i_mult (attdec_nblocks enc) 40 ;;
  if negb (attack_handling setup =? 0) then
    (* input scaling, memory re-scaling *)
    setup <- attdec_rescale enc setup input input_scaling ;;
    let new_scaling := attdec_scaling setup in
    r <- attdec_resample (fs enc) input new_scaling input_scaling
           frame_length_16k (input_16k scratch) ;;
    match r with
    | None => ret None
    | Some x =>
      let x := store x (-2) (fst (attdec_filter_mem setup)) in
      let x := store x (-1) (snd (attdec_filter_mem setup)) in
      let setup :=
        set_attdec_filter_mem
          (x (frame_length_16k - 2), snd (attdec_filter_mem setup)) setup in
      let setup :=
        set_attdec_filter_mem
          (fst (attdec_filter_mem setup), x (frame_length_16k - 1)) setup in
      x <- attdec_filter frame_length_16k x ;;
      e <- attdec_block_energy (attdec_nblocks enc) x (block_energy scratch) ;;
      setup <- attdec_threshold enc setup e ;;
      ret (Some (mkState enc setup input (mkScratch e x)))
    end
  else ret (Some st).

End AttackDetector.

(** ** An instance of the helpers, used to run the detector

    Headroom of the largest magnitude in the buffer; these definitions stand
    in for the helpers only where a concrete run is evaluated. *)
Fixpoint max_abs (n : nat) (data : Mem) : Z :=
  match n with
  | O => 0
  | Datatypes.S n' => Z.max (max_abs n' data) (Z.abs (data (Z.of_nat n')))
  end.

Definition headroom (bits zero : Z) (m : Z) : Z :=
  if m =? 0 then zero else Z.max 0 (bits - 2 - Z.log2 m).

Definition example_util : BasopUtil :=
  {| getScaleFactor16 := fun data len =>
       ret (headroom 16 15 (max_abs (Z.to_nat len) data));
     getScaleFactor16_0 := fun data len =>
       ret (headroom 16 16 (max_abs (Z.to_nat len) data));
     getScaleFactor32_0 := fun data len =>
       ret (headroom 32 32 (max_abs (Z.to_nat len) data));
     s_and := fun a b => ret (Z.land a b) |}.

(** A 32 kHz, 10 ms channel (four blocks) whose detector holds an
    accumulated energy of 2^30 and an empty filter memory, and a silent
    frame. *)
Definition silent_frame_state : State :=
  mkState (mkLC3_Enc 32000 320 4 2 [])
          (mkEncSetup 1 0 (0, 0) 1073741824 0 (-1) [])
          (fun _ => 0)
          (mkScratch (fun _ => 0) (fun _ => 0)).

(** The same channel with attack handling switched off. *)
Definition disabled_state : State :=
  mkState (mkLC3_Enc 32000 320 4 2 [])
          (mkEncSetup 0 3 (120, -45) 1048576 1 2 [])
          (fun i => 100 * i)
          (mkScratch (fun _ => 7) (fun _ => 9)).

(** The channel of [silent_frame_state] with a loud frame: full-scale
    pairs of samples of alternating sign. *)
Definition loud_frame_state : State :=
  mkState (mkLC3_Enc 32000 320 4 2 [])
          (mkEncSetup 1 0 (0, 0) 1073741824 0 (-1) [])
          (fun i => if Z.even (i / 2) then 32767 else -32767)
          (mkScratch (fun _ => 0) (fun _ => 0)).

(** ** Notions used to state the properties *)

Definition fits16 (x : Z) : bool := (MIN_16 <=? x) && (x <=? MAX_16).
Definition fits32 (x : Z) : bool := (MIN_32 <=? x) && (x <=? MAX_32).

(** What one overflow event passed to [BASOP_CHECK_fn] does to the globals:
    it is counted in [overflow_count] when warnings are enabled and the
    counter exists. *)
Definition tick {build : Build} (g : Globals) : Globals :=
  if negb (overflow_warning_enable g =? 0) && negb HIDE_UNUSED_BASOP
  then incr_overflow_count g else g.

Fixpoint ticks {build : Build} (n : nat) (g : Globals) : Globals :=
  match n with
  | O => g
  | S n' => tick (ticks n' g)
  end.

(** Number of events that an indicator value stands for. *)
Definition nz (x : Z) : nat := if x =? 0 then 0%nat else 1%nat.

(** The calls that the saturation property of the operators ranges over. *)
Inductive SatCall : Type :=
| call_add (var1 var2 : Z)
| call_sub (var1 var2 : Z)
| call_shl (var1 var2 : Z)
| call_L_shl (L_var1 var2 : Z)
| call_L_add (L_var1 L_var2 : Z)
| call_L_sub (L_var1 L_var2 : Z)
| call_L_mac (L_var3 var1 var2 : Z)
| call_L_msu (L_var3 var1 var2 : Z)
| call_L_mac0 (L_var3 var1 var2 : Z)
| call_L_msu0 (L_var3 var1 var2 : Z)
| call_mac_r (L_var3 var1 var2 : Z)
| call_msu_r (L_var3 var1 var2 : Z).

Definition run_call {build : Build} (c : SatCall) : M Z :=
  match c with
  | call_add a b => add a b
  | call_sub a b => sub a b
  | call_shl a s => shl a s
  | call_L_shl x s => L_shl x s
  | call_L_add x y => L_add x y
  | call_L_sub x y => L_sub x y
  | call_L_mac x a b => L_mac x a b
  | call_L_msu x a b => L_msu x a b
  | call_L_mac0 x a b => L_mac0 x a b
  | call_L_msu0 x a b => L_msu0 x a b
  | call_mac_r x a b => mac_r x a b
  | call_msu_r x a b => msu_r x a b
  end.

(** The arguments are of the C parameter types. *)
Definition legal_args (c : SatCall) : Prop :=
  match c with
  | call_add a b | call_sub a b | call_shl a b => Word16 a /\ Word16 b
  | call_L_shl x s => Word32 x /\ Word16 s
  | call_L_add x y | call_L_sub x y => Word32 x /\ Word32 y
  | call_L_mac x a b | call_L_msu x a b
  | call_L_mac0 x a b | call_L_msu0 x a b
  | call_mac_r x a b | call_msu_r x a b => Word32 x /\ Word16 a /\ Word16 b
  end.

(** The mathematical result; a shift by a negative count is the shift in
    the other direction ([Z.shiftl a s] is [a / 2^(-s)] rounded down), and
    [mac_r] / [msu_r] round the low 16 bits into the high 16 bits. *)
Definition exact_result (c : SatCall) : Z :=
  match c with
  | call_add a b => a + b
  | call_sub a b => a - b
  | call_shl a s => Z.shiftl a s
  | call_L_shl x s => Z.shiftl x s
  | call_L_add x y => x + y
  | call_L_sub x y => x - y
  | call_L_mac x a b => x + 2 * (a * b)
  | call_L_msu x a b => x - 2 * (a * b)
  | call_L_mac0 x a b => x + a * b
  | call_L_msu0 x a b => x - a * b
  | call_mac_r x a b => Z.shiftr (x + 2 * (a * b) + 0x8000) 16
  | call_msu_r x a b => Z.shiftr (x - 2 * (a * b) + 0x8000) 16
  end.

Definition target_min (c : SatCall) : Z :=
  match c with
  | call_add _ _ | call_sub _ _ | call_shl _ _
  | call_mac_r _ _ _ | call_msu_r _ _ _ => MIN_16
  | _ => MIN_32
  end.

Definition target_max (c : SatCall) : Z :=
  match c with
  | call_add _ _ | call_sub _ _ | call_shl _ _
  | call_mac_r _ _ _ | call_msu_r _ _ _ => MAX_16
  | _ => MAX_32
  end.

Definition fits_target (c : SatCall) : Prop :=
  target_min c <= exact_result c <= target_max c.

(** Step 7 of the detector as a recurrence: the running energy after [k]
    blocks, started from [acc], over the block energies [E]. *)
Fixpoint attdec_envelope (E : Mem) (acc : Z) (k : nat) : Z :=
  match k with
  | O => acc
  | S k' => Z.max (Z.shiftr (attdec_envelope E acc k') 2) (E (Z.of_nat k'))
  end.

(** The accumulated energy as the call holds it after the memory
    re-scaling (line 45), before the blocks are compared. *)
Definition attdec_rescaled_energy {build : Build} {util : BasopUtil}
  (st : State) (input_scaling : Z) (g : Globals) : Z :=
  attdec_acc_energy
    (eval (attdec_rescale (st_enc st) (st_setup st) (st_input st)
             input_scaling)
          (exec (i_mult (attdec_nblocks (st_enc st)) 40) g)).

(** What [L_mac] / [L_msu] return for the exact sum or difference [t]:
    [t] saturated, or a value off by one towards zero when the product
    itself saturated. *)
Definition mac_result (t y : Z) : Prop :=
  y = clamp MIN_32 MAX_32 t \/ (0 <= t /\ t - 1 <= y) \/
  (t < 0 /\ y <= t + 1).

(** A memory region holding zeros only. *)
Definition all_zero (m : Mem) : Prop := forall j, m j = 0.

(** The members of [EncSetup] outside the five [attdec_] fields agree. *)
Definition same_config (s s' : EncSetup) : Prop :=
  attack_handling s' = attack_handling s /\ setup_other s' = setup_other s.

(** The Q15 quotient rounded to nearest, for comparison with [div_s]. *)
Definition round_q15 (num den : Z) : Z := (2 * num * 32768 + den) / (2 * den).

(** The computation [m] keeps the relation [R] between the globals it
    starts from and the globals it leaves. *)
Definition keeps {A : Type} (R : Globals -> Globals -> Prop) (m : M A)
  : Prop :=
  forall g, R g (exec m g).

(** Every helper from outside the sources keeps [R]. *)
Definition util_keeps {util : BasopUtil} (R : Globals -> Globals -> Prop)
  : Prop :=
  (forall data len, keeps R (getScaleFactor16 data len)) /\
  (forall data len, keeps R (getScaleFactor16_0 data len)) /\
  (forall data len, keeps R (getScaleFactor32_0 data len)) /\
  (forall a b, keeps R (s_and a b)).

(** The globals [g'] differ from [g] at most in the diagnostic counter
    [overflow_count]. *)
Definition same_flags (g g' : Globals) : Prop :=
  Carry g' = Carry g /\ Overflow g' = Overflow g /\
  Overflow2 g' = Overflow2 g /\
  overflow_warning_enable g' = overflow_warning_enable g /\
  overflow_warning_disable_counter g' = overflow_warning_disable_counter g /\
  overflow_error_enable g' = overflow_error_enable g.

(** The sum of the squares of the [n] samples [x[start]], ...,
    [x[start + n - 1]], for comparison with the block energies. *)
Fixpoint sum_sq (x : Mem) (start : Z) (n : nat) : Z :=
  match n with
  | O => 0
  | S n' =>
    sum_sq x start n' + x (start + Z.of_nat n') * x (start + Z.of_nat n')
  end.

(* ================================================================== *)
(** * Properties of the basic operators *)

(** ** Casts *)

Lemma cast16_eq x : cast16 x = (x + 32768) mod 65536 - 32768.
Proof. reflexivity. Qed.

Lemma cast32_eq x : cast32 x = (x + 2147483648) mod 4294967296 - 2147483648.
Proof. reflexivity. Qed.

Lemma cast16_id x : Word16 x -> cast16 x = x.
Proof.
  unfold Word16, MIN_16, MAX_16. intros H. rewrite cast16_eq.
  rewrite Z.mod_small; lia.
Qed.

Lemma cast32_id x : Word32 x -> cast32 x = x.
Proof.
  unfold Word32, MIN_32, MAX_32. intros H. rewrite cast32_eq.
  rewrite Z.mod_small; lia.
Qed.

Lemma cast16_range x : Word16 (cast16 x).
Proof.
  unfold Word16, MIN_16, MAX_16. rewrite cast16_eq.
  pose proof (Z.mod_pos_bound (x + 32768) 65536). lia.
Qed.

Lemma cast32_range x : Word32 (cast32 x).
Proof.
  unfold Word32, MIN_32, MAX_32. rewrite cast32_eq.
  pose proof (Z.mod_pos_bound (x + 2147483648) 4294967296). lia.
Qed.

Lemma Word16_Word32 x : Word16 x -> Word32 x.
Proof. unfold Word16, Word32, MIN_16, MAX_16, MIN_32, MAX_32. lia. Qed.

(** ** The monad *)

Lemma bind_run {A B} (m : M A) (k : A -> M B) g :
  bind m k g = k (eval m g) (exec m g).
Proof. unfold bind, eval, exec. destruct (m g); reflexivity. Qed.

Lemma eval_bind {A B} (m : M A) (k : A -> M B) g :
  eval (bind m k) g = eval (k (eval m g)) (exec m g).
Proof. unfold eval at 1. rewrite bind_run. reflexivity. Qed.

Lemma exec_bind {A B} (m : M A) (k : A -> M B) g :
  exec (bind m k) g = exec (k (eval m g)) (exec m g).
Proof. unfold exec at 1. rewrite bind_run. reflexivity. Qed.

Lemma eval_ret {A} (a : A) g : eval (ret a) g = a.
Proof. reflexivity. Qed.

Lemma exec_ret {A} (a : A) g : exec (ret a) g = g.
Proof. reflexivity. Qed.

Ltac run_monad :=
  repeat first [ rewrite eval_bind | rewrite exec_bind
               | rewrite eval_ret | rewrite exec_ret ].

Section OperatorFacts.
Context {build : Build}.

(** ** Values of the 16-bit operators *)

Lemma eval_extract_l x g : eval (extract_l x) g = cast16 x.
Proof. unfold extract_l. run_monad. reflexivity. Qed.

Lemma eval_saturate x g :
  eval (saturate x) g = clamp MIN_16 MAX_16 x.
Proof.
  unfold saturate. run_monad.
  unfold clamp, MIN_16, MAX_16.
  change (cast32 0xffff8000) with (-32768).
  destruct (x >? 32767) eqn:Hhi.
  - run_monad. cbn [fst snd]. run_monad.
    destruct (x <? -32768) eqn:Hlo; [lia|].
    destruct (32767 <? x) eqn:Hhi'; [reflexivity|lia].
  - destruct (x <? -32768) eqn:Hlo.
    + run_monad. reflexivity.
    + run_monad. rewrite eval_extract_l. cbn [fst snd]. run_monad.
      destruct (32767 <? x) eqn:Hhi'; [lia|].
      apply cast16_id. unfold Word16, MIN_16, MAX_16. lia.
Qed.

Lemma eval_add a b g :
  Word16 a -> Word16 b -> eval (add a b) g = clamp MIN_16 MAX_16 (a + b).
Proof.
  intros Ha Hb. unfold add. run_monad. rewrite eval_saturate.
  rewrite cast32_id; [reflexivity|].
  unfold Word16, Word32, MIN_16, MAX_16, MIN_32, MAX_32 in *. lia.
Qed.

Lemma eval_sub a b g :
  Word16 a -> Word16 b -> eval (sub a b) g = clamp MIN_16 MAX_16 (a - b).
Proof.
  intros Ha Hb. unfold sub. run_monad. rewrite eval_saturate.
  rewrite cast32_id; [reflexivity|].
  unfold Word16, Word32, MIN_16, MAX_16, MIN_32, MAX_32 in *. lia.
Qed.

(** ** Values of the 16-bit shifts *)

Lemma lnot_shiftr_lnot a s :
  a < 0 -> 0 <= s -> Z.lnot (Z.shiftr (Z.lnot a) s) = Z.shiftr a s.
Proof.
  intros Ha Hs. rewrite !Z.shiftr_div_pow2 by lia.
  unfold Z.lnot. assert (Hd : 0 < 2 ^ s) by (apply Z.pow_pos_nonneg; lia).
  generalize dependent (2 ^ s). intros d Hd.
  Z.div_mod_to_equations. nia.
Qed.

Lemma shiftr_Word16 a s : Word16 a -> 0 <= s -> Word16 (Z.shiftr a s).
Proof.
  unfold Word16, MIN_16, MAX_16. intros Ha Hs.
  rewrite Z.shiftr_div_pow2 by lia.
  assert (Hd : 0 < 2 ^ s) by (apply Z.pow_pos_nonneg; lia).
  generalize dependent (2 ^ s). intros d Hd.
  Z.div_mod_to_equations. nia.
Qed.

Lemma shiftr_sign_fill a s :
  Word16 a -> 15 <= s -> Z.shiftr a s = if a <? 0 then -1 else 0.
Proof.
  unfold Word16, MIN_16, MAX_16. intros Ha Hs.
  rewrite Z.shiftr_div_pow2 by lia.
  assert (Hd : 2 ^ 15 <= 2 ^ s) by (apply Z.pow_le_mono_r; lia).
  change (2 ^ 15) with 32768 in Hd.
  generalize dependent (2 ^ s). intros d Hd.
  destruct (a <? 0) eqn:Hneg; Z.div_mod_to_equations; nia.
Qed.

(** For a count [s >= 0], [shr] is the arithmetic right shift. *)
Lemma eval_shr_fuel_nonneg n a s g :
  Word16 a -> 0 <= s ->
  eval (shr_fuel (S n) a s) g = Z.shiftr a s.
Proof.
  intros Ha Hs. cbn [shr_fuel]. run_monad.
  destruct (s <? 0) eqn:E0; [lia|].
  destruct (s >=? 15) eqn:E15.
  - run_monad. cbn [fst snd]. run_monad.
    rewrite shiftr_sign_fill by (auto; lia). reflexivity.
  - destruct (a <? 0) eqn:Eneg; run_monad; cbn [fst snd]; run_monad.
    + rewrite lnot_shiftr_lnot by lia.
      apply cast16_id, shiftr_Word16; auto.
    + apply cast16_id, shiftr_Word16; auto.
Qed.

Lemma clamp16_extreme x :
  ~ Word16 x -> clamp MIN_16 MAX_16 x = if x >? 0 then MAX_16 else MIN_16.
Proof.
  unfold Word16, clamp, MIN_16, MAX_16. intros H.
  destruct (x <? -32768) eqn:E1; destruct (32767 <? x) eqn:E2;
    destruct (x >? 0) eqn:E3; try reflexivity; lia.
Qed.

Lemma clamp16_id x : Word16 x -> clamp MIN_16 MAX_16 x = x.
Proof.
  unfold Word16, clamp, MIN_16, MAX_16. intros H.
  destruct (x <? -32768) eqn:E1; destruct (32767 <? x) eqn:E2; lia.
Qed.

(** For a count [s >= 0], [shl] is the saturated product [a * 2^s]. *)
Lemma eval_shl_fuel_nonneg n a s g :
  Word16 a -> 0 <= s ->
  eval (shl_fuel (S n) a s) g = clamp MIN_16 MAX_16 (a * 2 ^ s).
Proof.
  intros Ha Hs. cbn [shl_fuel]. run_monad.
  destruct (s <? 0) eqn:E0; [lia|].
  destruct (s >? 15) eqn:E15.
  - (* the count alone decides *)
    assert (Hp : 65536 <= 2 ^ s).
    { change 65536 with (2 ^ 16). apply Z.pow_le_mono_r; lia. }
    destruct (a =? 0) eqn:Ea.
    + assert (a = 0) by lia. subst a. rewrite Z.mul_0_l.
      cbn. run_monad. rewrite eval_extract_l. reflexivity.
    + cbn [negb andb orb]. run_monad. cbn [fst snd]. run_monad.
      rewrite clamp16_extreme.
      * unfold Word16, MIN_16, MAX_16 in Ha.
        destruct (a >? 0) eqn:E1; destruct (a * 2 ^ s >? 0) eqn:E2;
          try reflexivity; nia.
      * unfold Word16, MIN_16, MAX_16 in *. nia.
  - assert (Hp : 1 <= 2 ^ s <= 32768).
    { split.
      - change 1 with (2 ^ 0). apply Z.pow_le_mono_r; lia.
      - change 32768 with (2 ^ 15). apply Z.pow_le_mono_r; lia. }
    rewrite Z.shiftl_mul_pow2, Z.mul_1_l by lia.
    rewrite (cast32_id (2 ^ s)) by (unfold Word32, MIN_32, MAX_32; lia).
    rewrite (cast32_id (a * 2 ^ s))
      by (unfold Word16, Word32, MIN_16, MAX_16, MIN_32, MAX_32 in *; nia).
    rewrite (cast32_id (cast16 _)) by (apply Word16_Word32, cast16_range).
    cbn [andb orb].
    destruct (a * 2 ^ s =? cast16 (a * 2 ^ s)) eqn:Efit; cbn [negb].
    + run_monad. rewrite eval_extract_l. cbn [fst snd]. run_monad.
      assert (Hw : Word16 (a * 2 ^ s)).
      { apply Z.eqb_eq in Efit. rewrite Efit. apply cast16_range. }
      rewrite clamp16_id by exact Hw. apply cast16_id, Hw.
    + run_monad. cbn [fst snd]. run_monad.
      assert (Hw : ~ Word16 (a * 2 ^ s)).
      { intros Hw. apply cast16_id in Hw. lia. }
      rewrite clamp16_extreme by exact Hw.
      unfold Word16, MIN_16, MAX_16 in *.
      destruct (a >? 0) eqn:E1; destruct (a * 2 ^ s >? 0) eqn:E2;
        try reflexivity; nia.
Qed.

Lemma neg_count_range s :
  s < 0 -> 1 <= cast16 (- (if s <? -16 then -16 else s)) <= 16 /\
           cast16 (- (if s <? -16 then -16 else s)) = Z.min (- s) 16.
Proof.
  intros Hs. destruct (s <? -16) eqn:E.
  - change (cast16 (- -16)) with 16. lia.
  - rewrite cast16_id by (unfold Word16, MIN_16, MAX_16; lia). lia.
Qed.

Lemma shiftr_min16 a s :
  Word16 a -> 0 < s -> Z.shiftr a (Z.min s 16) = Z.shiftr a s.
Proof.
  intros Ha Hs. destruct (Z.le_gt_cases s 16).
  - rewrite Z.min_l by lia. reflexivity.
  - rewrite Z.min_r by lia. rewrite !shiftr_sign_fill by (auto; lia).
    reflexivity.
Qed.

Lemma clamp16_mul_pow2_min16 a s :
  Word16 a -> 0 < s ->
  clamp MIN_16 MAX_16 (a * 2 ^ Z.min s 16) = clamp MIN_16 MAX_16 (a * 2 ^ s).
Proof.
  intros Ha Hs. destruct (Z.le_gt_cases s 16).
  - rewrite Z.min_l by lia. reflexivity.
  - rewrite Z.min_r by lia.
    assert (Hp : 65536 <= 2 ^ s).
    { change 65536 with (2 ^ 16). apply Z.pow_le_mono_r; lia. }
    change (2 ^ 16) with 65536.
    destruct (Z.eq_dec a 0) as [->|Hne]; [rewrite !Z.mul_0_l; reflexivity|].
    unfold Word16, MIN_16, MAX_16 in Ha.
    rewrite !clamp16_extreme by (unfold Word16, MIN_16, MAX_16; nia).
    destruct (a * 65536 >? 0) eqn:E1; destruct (a * 2 ^ s >? 0) eqn:E2;
      try reflexivity; nia.
Qed.

(** [shl] over every count: the saturated shift, where a negative count
    shifts right ([Z.shiftl a s] is [a * 2^s] for [s >= 0] and
    [a / 2^(-s)] rounded down for [s < 0]). *)
Lemma eval_shl a s g :
  Word16 a -> eval (shl a s) g = clamp MIN_16 MAX_16 (Z.shiftl a s).
Proof.
  intros Ha. unfold shl. destruct (Z.lt_ge_cases s 0) as [Hs|Hs].
  - cbn [shl_fuel]. run_monad.
    destruct (s <? 0) eqn:E0; [|lia].
    destruct (neg_count_range s Hs) as [Hr Hc].
    run_monad. rewrite eval_shr_fuel_nonneg by (auto; lia).
    cbn [fst snd]. run_monad. rewrite Hc.
    rewrite shiftr_min16 by (auto; lia).
    rewrite <- Z.shiftl_opp_r, Z.opp_involutive.
    rewrite clamp16_id; [reflexivity|].
    rewrite <- (Z.opp_involutive s), Z.shiftl_opp_r.
    apply shiftr_Word16; auto; lia.
  - rewrite eval_shl_fuel_nonneg by auto.
    rewrite Z.shiftl_mul_pow2 by lia. reflexivity.
Qed.

(** [shr] over every count. *)
Lemma eval_shr a s g :
  Word16 a -> eval (shr a s) g = clamp MIN_16 MAX_16 (Z.shiftr a s).
Proof.
  intros Ha. unfold shr. destruct (Z.lt_ge_cases s 0) as [Hs|Hs].
  - cbn [shr_fuel]. run_monad.
    destruct (s <? 0) eqn:E0; [|lia].
    destruct (neg_count_range s Hs) as [Hr Hc].
    run_monad. rewrite eval_shl_fuel_nonneg by (auto; lia).
    cbn [fst snd]. run_monad. rewrite Hc.
    rewrite clamp16_mul_pow2_min16 by (auto; lia).
    rewrite <- Z.shiftl_mul_pow2 by lia.
    rewrite Z.shiftl_opp_r. reflexivity.
  - rewrite eval_shr_fuel_nonneg by auto.
    rewrite clamp16_id; [reflexivity|]. apply shiftr_Word16; auto.
Qed.

(** The bound [fuel = 2] on the mutual calls of [shl] and [shr] is never
    reached: any larger bound computes the same result and globals. *)
Lemma shl_shr_fuel_enough n a s g :
  shl_fuel (S (S n)) a s g = shl a s g /\
  shr_fuel (S (S n)) a s g = shr a s g.
Proof.
  unfold shl, shr. split.
  - cbn [shl_fuel]. rewrite !bind_run.
    destruct (s <? 0) eqn:E0; [|reflexivity].
    destruct (neg_count_range s ltac:(lia)) as [Hr _].
    set (c := cast16 (- (if s <? -16 then -16 else s))) in *.
    assert (Hshr : forall g', shr_fuel (S n) a c g' = shr_fuel 1 a c g').
    { intros g'. cbn [shr_fuel]. rewrite !bind_run.
      destruct (c <? 0) eqn:E1; [lia|reflexivity]. }
    unfold eval, exec. rewrite !bind_run. unfold eval, exec.
    rewrite Hshr. reflexivity.
  - cbn [shr_fuel]. rewrite !bind_run.
    destruct (s <? 0) eqn:E0; [|reflexivity].
    destruct (neg_count_range s ltac:(lia)) as [Hr _].
    set (c := cast16 (- (if s <? -16 then -16 else s))) in *.
    assert (Hshl : forall g', shl_fuel (S n) a c g' = shl_fuel 1 a c g').
    { intros g'. cbn [shl_fuel]. rewrite !bind_run.
      destruct (c <? 0) eqn:E1; [lia|reflexivity]. }
    unfold eval, exec. rewrite !bind_run. unfold eval, exec.
    rewrite Hshl. reflexivity.
Qed.

(** ** Sign tests of the 32-bit operators

    [(x & MIN_32) == 0] tests the sign bit; on the embedding this is a
    statement about the bits of [x] from position 31 upwards. *)

Lemma testbit_MIN_32 n : 0 <= n -> Z.testbit MIN_32 n = (31 <=? n).
Proof.
  intros Hn. change MIN_32 with (Z.lnot (Z.ones 31)).
  rewrite Z.lnot_spec by lia. rewrite Z.testbit_ones by lia.
  destruct (0 <=? n) eqn:E0; destruct (n <? 31) eqn:E1;
    destruct (31 <=? n) eqn:E2; try reflexivity; lia.
Qed.

Lemma testbit_high x n : Word32 x -> 31 <= n -> Z.testbit x n = (x <? 0).
Proof.
  unfold Word32, MIN_32, MAX_32. intros Hx Hn.
  destruct (x <? 0) eqn:Hneg.
  - apply Z.bits_above_log2_neg; [lia|].
    destruct (Z.eq_dec (Z.pred (- x)) 0) as [->|Hne]; [cbn; lia|].
    apply Z.lt_le_trans with 31; [|lia].
    apply Z.log2_lt_pow2; lia.
  - destruct (Z.eq_dec x 0) as [->|Hne]; [apply Z.testbit_0_l|].
    apply Z.bits_above_log2; [lia|].
    apply Z.lt_le_trans with 31; [|lia].
    apply Z.log2_lt_pow2; lia.
Qed.

Lemma sign_test y (c : bool) :
  (forall n, 31 <= n -> Z.testbit y n = c) ->
  (Z.land y MIN_32 =? 0) = negb c.
Proof.
  intros Hhigh. destruct c; cbn [negb].
  - apply Z.eqb_neq. intros H0.
    assert (Hb : Z.testbit (Z.land y MIN_32) 31 = true).
    { rewrite Z.land_spec, Hhigh, testbit_MIN_32 by lia. reflexivity. }
    rewrite H0, Z.testbit_0_l in Hb. discriminate.
  - apply Z.eqb_eq. apply Z.bits_inj'. intros n Hn.
    rewrite Z.land_spec, testbit_MIN_32, Z.testbit_0_l by lia.
    destruct (31 <=? n) eqn:E; [|apply andb_false_r].
    rewrite Hhigh by lia. reflexivity.
Qed.

Lemma sign_test_lxor a b :
  Word32 a -> Word32 b ->
  (Z.land (Z.lxor a b) MIN_32 =? 0) = negb (xorb (a <? 0) (b <? 0)).
Proof.
  intros Ha Hb. apply sign_test. intros n Hn.
  rewrite Z.lxor_spec, !testbit_high by auto. reflexivity.
Qed.

(** ** Values of the 32-bit operators *)

Lemma clamp32_cases x :
  clamp MIN_32 MAX_32 x =
  if x <? MIN_32 then MIN_32 else if MAX_32 <? x then MAX_32 else x.
Proof. reflexivity. Qed.

Lemma eval_L_add a b g :
  Word32 a -> Word32 b -> eval (L_add a b) g = clamp MIN_32 MAX_32 (a + b).
Proof.
  intros Ha Hb. unfold L_add.
  rewrite !sign_test_lxor by (auto using cast32_range).
  pose proof (cast32_range (a + b)) as Hc.
  assert (Hfit : Word32 (a + b) -> cast32 (a + b) = a + b)
    by apply cast32_id.
  assert (Hhi : MAX_32 < a + b -> cast32 (a + b) = a + b - 4294967296).
  { intros H. rewrite cast32_eq. unfold Word32, MIN_32, MAX_32 in *.
    Z.div_mod_to_equations. lia. }
  assert (Hlo : a + b < MIN_32 -> cast32 (a + b) = a + b + 4294967296).
  { intros H. rewrite cast32_eq. unfold Word32, MIN_32, MAX_32 in *.
    Z.div_mod_to_equations. lia. }
  rewrite clamp32_cases.
  unfold Word32, MIN_32, MAX_32 in *.
  destruct (a <? 0) eqn:E1; destruct (b <? 0) eqn:E2;
    destruct (cast32 (a + b) <? 0) eqn:E3;
    destruct (a + b <? -2147483648) eqn:E4;
    destruct (2147483647 <? a + b) eqn:E5;
    cbn [xorb negb]; run_monad; cbn [fst snd]; run_monad; try lia.
Qed.

Lemma eval_L_sub a b g :
  Word32 a -> Word32 b -> eval (L_sub a b) g = clamp MIN_32 MAX_32 (a - b).
Proof.
  intros Ha Hb. unfold L_sub.
  rewrite !sign_test_lxor by (auto using cast32_range).
  pose proof (cast32_range (a - b)) as Hc.
  assert (Hfit : Word32 (a - b) -> cast32 (a - b) = a - b)
    by apply cast32_id.
  assert (Hhi : MAX_32 < a - b -> cast32 (a - b) = a - b - 4294967296).
  { intros H. rewrite cast32_eq. unfold Word32, MIN_32, MAX_32 in *.
    Z.div_mod_to_equations. lia. }
  assert (Hlo : a - b < MIN_32 -> cast32 (a - b) = a - b + 4294967296).
  { intros H. rewrite cast32_eq. unfold Word32, MIN_32, MAX_32 in *.
    Z.div_mod_to_equations. lia. }
  rewrite clamp32_cases.
  unfold Word32, MIN_32, MAX_32 in *.
  destruct (a <? 0) eqn:E1; destruct (b <? 0) eqn:E2;
    destruct (cast32 (a - b) <? 0) eqn:E3;
    destruct (a - b <? -2147483648) eqn:E4;
    destruct (2147483647 <? a - b) eqn:E5;
    cbn [xorb negb]; run_monad; cbn [fst snd]; run_monad; try lia.
Qed.

(** [L_mult] doubles the product and saturates the single product that does
    not fit, [-32768 * -32768]. *)
Lemma eval_L_mult a b g :
  Word16 a -> Word16 b ->
  eval (L_mult a b) g = clamp MIN_32 MAX_32 (2 * (a * b)).
Proof.
  intros Ha Hb. unfold L_mult.
  assert (Hp : -1073709056 <= a * b <= 1073741824)
    by (unfold Word16, MIN_16, MAX_16 in *; nia).
  rewrite (cast32_id (a * b)) by (unfold Word32, MIN_32, MAX_32; lia).
  rewrite clamp32_cases. unfold MIN_32, MAX_32.
  destruct (a * b =? 0x40000000) eqn:E; cbn [negb];
    run_monad; cbn [fst snd]; run_monad.
  - destruct (2 * (a * b) <? -2147483648) eqn:E1;
      destruct (2147483647 <? 2 * (a * b)) eqn:E2; lia.
  - rewrite cast32_id by (unfold Word32, MIN_32, MAX_32; lia).
    destruct (2 * (a * b) <? -2147483648) eqn:E1;
      destruct (2147483647 <? 2 * (a * b)) eqn:E2; lia.
Qed.

Lemma clamp32_range x : Word32 (clamp MIN_32 MAX_32 x).
Proof.
  rewrite clamp32_cases. unfold Word32, MIN_32, MAX_32.
  destruct (x <? -2147483648) eqn:E1;
    destruct (0x7fffffff <? x) eqn:E2; lia.
Qed.

Lemma eval_L_mac c a b g :
  Word32 c -> Word16 a -> Word16 b ->
  eval (L_mac c a b) g =
  clamp MIN_32 MAX_32 (c + clamp MIN_32 MAX_32 (2 * (a * b))).
Proof.
  intros Hc Ha Hb. unfold L_mac. run_monad.
  rewrite eval_L_mult by auto.
  rewrite eval_L_add by (auto using clamp32_range). reflexivity.
Qed.

Lemma eval_L_msu c a b g :
  Word32 c -> Word16 a -> Word16 b ->
  eval (L_msu c a b) g =
  clamp MIN_32 MAX_32 (c - clamp MIN_32 MAX_32 (2 * (a * b))).
Proof.
  intros Hc Ha Hb. unfold L_msu. run_monad.
  rewrite eval_L_mult by auto.
  rewrite eval_L_sub by (auto using clamp32_range). reflexivity.
Qed.

Lemma shiftr_Word32 a s : Word32 a -> 0 <= s -> Word32 (Z.shiftr a s).
Proof.
  unfold Word32, MIN_32, MAX_32. intros Ha Hs.
  rewrite Z.shiftr_div_pow2 by lia.
  assert (Hd : 0 < 2 ^ s) by (apply Z.pow_pos_nonneg; lia).
  generalize dependent (2 ^ s). intros d Hd.
  Z.div_mod_to_equations. nia.
Qed.

Lemma shiftr_sign_fill32 a s :
  Word32 a -> 31 <= s -> Z.shiftr a s = if a <? 0 then -1 else 0.
Proof.
  unfold Word32, MIN_32, MAX_32. intros Ha Hs.
  rewrite Z.shiftr_div_pow2 by lia.
  assert (Hd : 2 ^ 31 <= 2 ^ s) by (apply Z.pow_le_mono_r; lia).
  change (2 ^ 31) with 2147483648 in Hd.
  generalize dependent (2 ^ s). intros d Hd.
  destruct (a <? 0) eqn:Hneg; Z.div_mod_to_equations; nia.
Qed.

Lemma eval_L_shr_fuel_nonneg n a s g :
  Word32 a -> 0 <= s ->
  eval (L_shr_fuel (S n) a s) g = Z.shiftr a s.
Proof.
  intros Ha Hs. cbn [L_shr_fuel]. run_monad.
  destruct (s <? 0) eqn:E0; [lia|].
  destruct (s >=? 31) eqn:E31.
  - run_monad. cbn [fst snd]. run_monad.
    rewrite shiftr_sign_fill32 by (auto; lia). reflexivity.
  - destruct (a <? 0) eqn:Eneg; run_monad; cbn [fst snd]; run_monad.
    + apply lnot_shiftr_lnot; lia.
    + reflexivity.
Qed.

(** The loop of [L_shl] entered with [L_var_out = L_var1]: it doubles [n]
    times, or stops at the first value whose double does not fit. *)
Lemma L_shl_loop_spec n : forall x,
  Word32 x ->
  L_shl_loop n x x =
  (clamp MIN_32 MAX_32 (x * 2 ^ Z.of_nat n),
   if fits32 (x * 2 ^ Z.of_nat n) then 0 else 1).
Proof.
  induction n as [|n IH]; intros x Hx.
  - cbn [L_shl_loop]. change (2 ^ Z.of_nat 0) with 1. rewrite Z.mul_1_r.
    rewrite clamp32_cases. unfold fits32, Word32, MIN_32, MAX_32 in *.
    destruct (x <? -2147483648) eqn:E1; destruct (0x7fffffff <? x) eqn:E2;
      destruct (-2147483648 <=? x) eqn:E3;
      destruct (x <=? 0x7fffffff) eqn:E4; cbn [andb]; try lia; reflexivity.
  - cbn [L_shl_loop]. change (cast32 0xc0000000) with (-1073741824).
    rewrite Nat2Z.inj_succ, Z.pow_succ_r by lia.
    assert (Hp : 1 <= 2 ^ Z.of_nat n).
    { change 1 with (2 ^ 0). apply Z.pow_le_mono_r; lia. }
    rewrite clamp32_cases. unfold fits32, Word32, MIN_32, MAX_32 in *.
    destruct (x >? 0x3fffffff) eqn:Ehi.
    + destruct (x * (2 * 2 ^ Z.of_nat n) <? -2147483648) eqn:E1;
        destruct (0x7fffffff <? x * (2 * 2 ^ Z.of_nat n)) eqn:E2;
        destruct (-2147483648 <=? x * (2 * 2 ^ Z.of_nat n)) eqn:E3;
        destruct (x * (2 * 2 ^ Z.of_nat n) <=? 0x7fffffff) eqn:E4;
        cbn [andb]; try reflexivity; nia.
    + destruct (x <? -1073741824) eqn:Elo.
      * destruct (x * (2 * 2 ^ Z.of_nat n) <? -2147483648) eqn:E1;
          destruct (0x7fffffff <? x * (2 * 2 ^ Z.of_nat n)) eqn:E2;
          destruct (-2147483648 <=? x * (2 * 2 ^ Z.of_nat n)) eqn:E3;
          destruct (x * (2 * 2 ^ Z.of_nat n) <=? 0x7fffffff) eqn:E4;
          cbn [andb]; try reflexivity; nia.
      * rewrite cast32_id by (unfold Word32, MIN_32, MAX_32; lia).
        rewrite IH by (unfold Word32, MIN_32, MAX_32; lia).
        rewrite clamp32_cases. unfold fits32, MIN_32, MAX_32.
        replace (x * 2 * 2 ^ Z.of_nat n) with (x * (2 * 2 ^ Z.of_nat n))
          by ring.
        reflexivity.
Qed.

(** One step into the loop from the C initial value [L_var_out = 0]. *)
Lemma L_shl_loop_first n x :
  Word32 x -> (0 < n)%nat ->
  L_shl_loop n x 0 =
  (clamp MIN_32 MAX_32 (x * 2 ^ Z.of_nat n),
   if fits32 (x * 2 ^ Z.of_nat n) then 0 else 1).
Proof.
  intros Hx Hn. rewrite <- (L_shl_loop_spec n x Hx).
  destruct n as [|n]; [lia|]. reflexivity.
Qed.

Lemma eval_L_shl_fuel_pos n a s g :
  Word32 a -> 0 < s ->
  eval (L_shl_fuel (S n) a s) g = clamp MIN_32 MAX_32 (a * 2 ^ s).
Proof.
  intros Ha Hs. cbn [L_shl_fuel]. run_monad.
  destruct (s <=? 0) eqn:E0; [lia|].
  run_monad. rewrite L_shl_loop_first by (auto; lia).
  cbn [fst snd]. run_monad. rewrite Z2Nat.id by lia. reflexivity.
Qed.

Lemma neg_count_range32 s :
  s <= 0 -> 0 <= cast16 (- (if s <? -32 then -32 else s)) <= 32 /\
            cast16 (- (if s <? -32 then -32 else s)) = Z.min (- s) 32.
Proof.
  intros Hs. destruct (s <? -32) eqn:E.
  - change (cast16 (- -32)) with 32. lia.
  - rewrite cast16_id by (unfold Word16, MIN_16, MAX_16; lia). lia.
Qed.

Lemma shiftr_min32 a s :
  Word32 a -> 0 <= s -> Z.shiftr a (Z.min s 32) = Z.shiftr a s.
Proof.
  intros Ha Hs. destruct (Z.le_gt_cases s 32).
  - rewrite Z.min_l by lia. reflexivity.
  - rewrite Z.min_r by lia. rewrite !shiftr_sign_fill32 by (auto; lia).
    reflexivity.
Qed.

Lemma clamp32_id x : Word32 x -> clamp MIN_32 MAX_32 x = x.
Proof.
  rewrite clamp32_cases. unfold Word32, MIN_32, MAX_32. intros H.
  destruct (x <? -2147483648) eqn:E1; destruct (0x7fffffff <? x) eqn:E2;
    lia.
Qed.

(** [L_shl] over every count: the saturated shift. *)
Lemma eval_L_shl a s g :
  Word32 a -> eval (L_shl a s) g = clamp MIN_32 MAX_32 (Z.shiftl a s).
Proof.
  intros Ha. unfold L_shl. destruct (Z.lt_ge_cases 0 s) as [Hs|Hs].
  - rewrite eval_L_shl_fuel_pos by auto.
    rewrite Z.shiftl_mul_pow2 by lia. reflexivity.
  - cbn [L_shl_fuel]. run_monad.
    destruct (s <=? 0) eqn:E0; [|lia].
    destruct (neg_count_range32 s Hs) as [Hr Hc].
    run_monad. rewrite eval_L_shr_fuel_nonneg by (auto; lia).
    cbn [fst snd]. run_monad. rewrite Hc.
    rewrite shiftr_min32 by (auto; lia).
    rewrite <- Z.shiftl_opp_r, Z.opp_involutive.
    rewrite clamp32_id; [reflexivity|].
    rewrite <- (Z.opp_involutive s), Z.shiftl_opp_r.
    apply shiftr_Word32; auto; lia.
Qed.

(** [L_shr] for a count [s >= 0]: the arithmetic right shift. *)
Lemma eval_L_shr_nonneg a s g :
  Word32 a -> 0 <= s -> eval (L_shr a s) g = Z.shiftr a s.
Proof. intros. unfold L_shr. apply eval_L_shr_fuel_nonneg; auto. Qed.

(** As for [shl] and [shr], the bound on the mutual calls is not reached. *)
Lemma L_shl_L_shr_fuel_enough n a s g :
  L_shl_fuel (S (S n)) a s g = L_shl a s g /\
  L_shr_fuel (S (S n)) a s g = L_shr a s g.
Proof.
  unfold L_shl, L_shr. split.
  - cbn [L_shl_fuel]. rewrite !bind_run.
    destruct (s <=? 0) eqn:E0; [|reflexivity].
    destruct (neg_count_range32 s ltac:(lia)) as [Hr _].
    set (c := cast16 (- (if s <? -32 then -32 else s))) in *.
    assert (Hshr : forall g', L_shr_fuel (S n) a c g' = L_shr_fuel 1 a c g').
    { intros g'. cbn [L_shr_fuel]. rewrite !bind_run.
      destruct (c <? 0) eqn:E1; [lia|reflexivity]. }
    unfold eval, exec. rewrite !bind_run. unfold eval, exec.
    rewrite Hshr. reflexivity.
  - cbn [L_shr_fuel]. rewrite !bind_run.
    destruct (s <? 0) eqn:E0; [|reflexivity].
    destruct (neg_count_range32 s ltac:(lia)) as [Hr Hc].
    set (c := cast16 (- (if s <? -32 then -32 else s))) in *.
    assert (Hshl : forall g', L_shl_fuel (S n) a c g' = L_shl_fuel 1 a c g').
    { intros g'. cbn [L_shl_fuel]. rewrite !bind_run.
      destruct (c <=? 0) eqn:E1; [lia|reflexivity]. }
    unfold eval, exec. rewrite !bind_run. unfold eval, exec.
    rewrite Hshl. reflexivity.
Qed.

(** ** The division loop *)

(** Arithmetic of one restoring-division step. *)
Lemma div_step_sub r d k :
  0 < d -> 0 <= k ->
  (2 * r - d) * k / d + k = 2 * r * k / d /\
  ((2 * r - d) * k) mod d = (2 * r * k) mod d.
Proof.
  intros Hd Hk.
  replace (2 * r * k) with ((2 * r - d) * k + k * d) by ring.
  rewrite Z.div_add, Z.mod_add by lia. split; reflexivity.
Qed.

(** [n] iterations from the loop state [(q, r)] append the next [n]
    quotient bits of [r / d] to [q] and leave the remainder in [L_num]. *)
Lemma eval_div_s_loop n : forall q r d g,
  0 < d <= MAX_16 -> 0 <= r < d -> 0 <= q ->
  (q + 1) * 2 ^ Z.of_nat n <= 32768 ->
  eval (div_s_loop n q r d) g =
  (q * 2 ^ Z.of_nat n + r * 2 ^ Z.of_nat n / d, (r * 2 ^ Z.of_nat n) mod d).
Proof.
  unfold MAX_16.
  induction n as [|n IH]; intros q r d g Hd Hr Hq Hb.
  - cbn [div_s_loop]. run_monad. change (2 ^ Z.of_nat 0) with 1.
    rewrite !Z.mul_1_r, Z.div_small, Z.mod_small by lia.
    f_equal. lia.
  - cbn [div_s_loop]. rewrite Nat2Z.inj_succ, Z.pow_succ_r in * by lia.
    assert (Hp : 1 <= 2 ^ Z.of_nat n).
    { change 1 with (2 ^ 0). apply Z.pow_le_mono_r; lia. }
    set (k := 2 ^ Z.of_nat n) in *.
    rewrite !Z.shiftl_mul_pow2 by lia. change (2 ^ 1) with 2.
    rewrite (cast16_id (q * 2)) by (unfold Word16, MIN_16, MAX_16; nia).
    rewrite (cast32_id (r * 2)) by (unfold Word32, MIN_32, MAX_32; lia).
    run_monad. destruct (r * 2 >=? d) eqn:Ege; run_monad.
    + rewrite eval_L_sub by (unfold Word32, MIN_32, MAX_32; lia).
      rewrite clamp32_id by (unfold Word32, MIN_32, MAX_32; lia).
      rewrite eval_add by (unfold Word16, MIN_16, MAX_16; nia).
      rewrite clamp16_id by (unfold Word16, MIN_16, MAX_16; nia).
      cbn [fst snd]. rewrite IH by nia.
      destruct (div_step_sub r d k) as [H1 H2]; [lia|lia|].
      replace (r * 2 - d) with (2 * r - d) by ring.
      replace (r * (2 * k)) with (2 * r * k) by ring.
      rewrite <- H1, H2. f_equal. ring.
    + cbn [fst snd]. rewrite IH by nia.
      replace (r * 2 * k) with (r * (2 * k)) by ring. f_equal. ring.
Qed.

(** ** The normalisation loop *)

(** From [x] in 1..32767 the loop leaves after the [n] doublings that bring
    [x] into 0x4000..0x7fff, provided [fuel] allows for them. *)
Lemma norm_s_loop_spec fuel : forall x k,
  1 <= x <= 32767 -> 0 <= k -> k + Z.of_nat fuel <= 32767 ->
  32768 <= x * 2 ^ Z.of_nat fuel ->
  exists n, norm_s_loop fuel x k = Some (k + n) /\
            0 <= n < Z.of_nat fuel /\ 16384 <= x * 2 ^ n <= 32767.
Proof.
  induction fuel as [|fuel IH]; intros x k Hx Hk Hkf Hreach.
  - change (2 ^ Z.of_nat 0) with 1 in Hreach. lia.
  - cbn [norm_s_loop]. rewrite Nat2Z.inj_succ, Z.pow_succ_r in * by lia.
    destruct (x <? 0x4000) eqn:E.
    + rewrite Z.shiftl_mul_pow2 by lia. change (2 ^ 1) with 2.
      rewrite (cast16_id (x * 2)) by (unfold Word16, MIN_16, MAX_16; lia).
      rewrite (cast16_id (k + 1)) by (unfold Word16, MIN_16, MAX_16; lia).
      destruct (IH (x * 2) (k + 1)) as (n & Hn & Hr & Hb); try lia.
      exists (n + 1). rewrite Hn. split; [f_equal; lia|].
      split; [lia|]. rewrite Z.pow_add_r by lia. change (2 ^ 1) with 2. lia.
    + exists 0. rewrite Z.add_0_r. change (2 ^ 0) with 1. repeat split; lia.
Qed.

(** More iterations than the loop needs change nothing. *)
Lemma norm_s_loop_more_fuel fuel : forall x k r m,
  norm_s_loop fuel x k = Some r -> norm_s_loop (fuel + m) x k = Some r.
Proof.
  induction fuel as [|fuel IH]; intros x k r m H; [discriminate|].
  cbn [norm_s_loop Nat.add] in *.
  destruct (x <? 0x4000); [apply IH|]; exact H.
Qed.

(** [norm_s] returns with the 15 iterations it is given, and the count it
    returns normalises the magnitude it worked on. *)
Lemma eval_norm_s v g :
  Word16 v -> v <> 0 -> v <> -1 ->
  exists n, eval (norm_s v) g = Some n /\ 0 <= n <= 14 /\
            16384 <= (if v <? 0 then - v - 1 else v) * 2 ^ n <= 32767.
Proof.
  unfold Word16, MIN_16, MAX_16. intros Hv H0 H1.
  unfold norm_s, norm_s_fuel. run_monad.
  destruct (v =? 0) eqn:E0; [lia|].
  change (cast16 0xffff) with (-1). destruct (v =? -1) eqn:E1; [lia|].
  run_monad.
  assert (Hx : 1 <= (if v <? 0 then - v - 1 else v) <= 32767)
    by (destruct (v <? 0) eqn:E; lia).
  assert (Hc : (if v <? 0 then cast16 (Z.lnot v) else v) =
               (if v <? 0 then - v - 1 else v)).
  { destruct (v <? 0) eqn:E; [|reflexivity].
    unfold Z.lnot. rewrite cast16_id by (unfold Word16, MIN_16, MAX_16; lia).
    lia. }
  rewrite Hc.
  destruct (norm_s_loop_spec 15 (if v <? 0 then - v - 1 else v) 0)
    as (n & Hn & Hr & Hb); try lia.
  exists n. rewrite Hn. split; [reflexivity|]. split; [lia|exact Hb].
Qed.

Lemma eval_norm_s_0 g : eval (norm_s 0) g = Some 0.
Proof. unfold norm_s, norm_s_fuel. run_monad. reflexivity. Qed.

Lemma eval_norm_s_m1 g : eval (norm_s (-1)) g = Some 15.
Proof. unfold norm_s, norm_s_fuel. run_monad. reflexivity. Qed.

Lemma testbit14_pos r : 16384 <= r <= 32767 -> Z.testbit r 14 = true.
Proof.
  intros H. apply Z.testbit_true; [lia|]. change (2 ^ 14) with 16384.
  Z.div_mod_to_equations. lia.
Qed.

Lemma testbit14_neg r : -32768 <= r <= -16385 -> Z.testbit r 14 = false.
Proof.
  intros H. apply Z.testbit_false; [lia|]. change (2 ^ 14) with 16384.
  Z.div_mod_to_equations. lia.
Qed.

(** Multiples of [2^n] below [2^15] leave room for one more [2^n]. *)
Lemma next_multiple_fits x n :
  0 <= n <= 14 -> 0 <= x -> x * 2 ^ n <= 32767 -> (x + 1) * 2 ^ n <= 32768.
Proof.
  intros Hn Hx Hb.
  assert (Hsplit : 32768 = 2 ^ n * 2 ^ (15 - n)).
  { rewrite <- Z.pow_add_r by lia. replace (n + (15 - n)) with 15 by lia.
    reflexivity. }
  assert (Hp : 0 < 2 ^ n) by (apply Z.pow_pos_nonneg; lia).
  assert (Hq : 0 < 2 ^ (15 - n)) by (apply Z.pow_pos_nonneg; lia).
  assert (x < 2 ^ (15 - n)) by nia. nia.
Qed.

(** Entering any of the 15 iterations, the sum formed by [add] and the
    difference formed by [L_sub] are representable. *)
Lemma div_s_loop_operands_fit var1 var2 g k :
  Word16 var2 -> 0 <= var1 < var2 -> (k < 15)%nat ->
  Word16 (cast16 (Z.shiftl (fst (eval (div_s_loop k 0 var1 var2) g)) 1) + 1) /\
  Word32 (cast32 (Z.shiftl (snd (eval (div_s_loop k 0 var1 var2) g)) 1)
          - var2).
Proof.
  unfold Word16, MIN_16, MAX_16. intros Hw Hlt Hk.
  assert (Hp : 1 <= 2 ^ Z.of_nat k <= 16384).
  { split.
    - change 1 with (2 ^ 0). apply Z.pow_le_mono_r; lia.
    - change 16384 with (2 ^ 14). apply Z.pow_le_mono_r; lia. }
  rewrite eval_div_s_loop by (unfold MAX_16; lia).
  cbn [fst snd]. rewrite Z.mul_0_l, Z.add_0_l.
  set (p := 2 ^ Z.of_nat k) in *.
  assert (Hq : 0 <= var1 * p / var2 < p).
  { split; [apply Z.div_pos; nia|]. apply Z.div_lt_upper_bound; nia. }
  pose proof (Z.mod_pos_bound (var1 * p) var2 ltac:(lia)) as Hr.
  rewrite !Z.shiftl_mul_pow2 by lia. change (2 ^ 1) with 2.
  rewrite cast16_id by (unfold Word16, MIN_16, MAX_16; lia).
  rewrite cast32_id by (unfold Word32, MIN_32, MAX_32; lia).
  unfold Word32, MIN_32, MAX_32. lia.
Qed.

Lemma eval_L_deposit_l x g : eval (L_deposit_l x) g = x.
Proof. unfold L_deposit_l. run_monad. reflexivity. Qed.

(** The value of a legal division, in every build. *)
Lemma eval_div_s var1 var2 g :
  Word16 var2 -> 0 <= var1 < var2 ->
  option_map fst (div_s var1 var2 g) = Some (var1 * 32768 / var2).
Proof.
  unfold Word16, MIN_16, MAX_16. intros Hw Hlt. unfold div_s.
  destruct (var1 >? var2) eqn:E1; [lia|].
  destruct (var1 <? 0) eqn:E2; [lia|].
  destruct (var2 <? 0) eqn:E3; [lia|].
  destruct (var2 =? 0) eqn:E4; [lia|]. cbn [orb option_map].
  f_equal. change (fst (?m g)) with (eval m g). run_monad.
  destruct (var1 =? 0) eqn:E5.
  - run_monad. assert (var1 = 0) by lia. subst var1. reflexivity.
  - destruct (var1 =? var2) eqn:E6; [lia|]. run_monad.
    rewrite !eval_L_deposit_l.
    rewrite eval_div_s_loop by (unfold MAX_16; cbn; lia).
    cbn [fst]. change (2 ^ Z.of_nat 15) with 32768.
    rewrite Z.mul_0_l, Z.add_0_l. reflexivity.
Qed.

Lemma div_s_abort var1 var2 g :
  div_s var1 var2 g = None <->
  (var1 > var2 \/ var1 < 0 \/ var2 < 0 \/ var2 = 0).
Proof.
  unfold div_s.
  destruct (var1 >? var2) eqn:E1; destruct (var1 <? 0) eqn:E2;
    destruct (var2 <? 0) eqn:E3; destruct (var2 =? 0) eqn:E4;
    cbn [orb]; split; intros H; try reflexivity; try discriminate; lia.
Qed.

(** A shift whose exact result does not fit shifts to the left. *)
Lemma shl_unfit_count a s :
  Word16 a -> ~ Word16 (Z.shiftl a s) -> 0 <= s.
Proof.
  intros Ha Hn. destruct (Z.lt_ge_cases s 0) as [Hs|Hs]; [|exact Hs].
  exfalso. apply Hn. rewrite <- (Z.opp_involutive s), Z.shiftl_opp_r.
  apply shiftr_Word16; auto; lia.
Qed.

Lemma L_shl_unfit_count x s :
  Word32 x -> ~ Word32 (Z.shiftl x s) -> 0 < s.
Proof.
  intros Hx Hn. destruct (Z.lt_ge_cases 0 s) as [Hs|Hs]; [exact Hs|].
  exfalso. apply Hn. rewrite <- (Z.opp_involutive s), Z.shiftl_opp_r.
  apply shiftr_Word32; auto; lia.
Qed.

(** Saturating the product first does not change a sum or difference that
    saturates anyway. *)
Lemma mac_clamp x a b :
  Word32 x -> Word16 a -> Word16 b -> ~ Word32 (x + 2 * (a * b)) ->
  clamp MIN_32 MAX_32 (x + clamp MIN_32 MAX_32 (2 * (a * b))) =
  clamp MIN_32 MAX_32 (x + 2 * (a * b)).
Proof.
  intros Hx Ha Hb Hn.
  assert (Hp : -1073709056 <= a * b <= 1073741824)
    by (unfold Word16, MIN_16, MAX_16 in *; nia).
  generalize dependent (a * b). intros p Hn Hp.
  rewrite !clamp32_cases. unfold Word32, MIN_32, MAX_32 in *.
  destruct (2 * p <? -2147483648) eqn:E1; [lia|].
  destruct (0x7fffffff <? 2 * p) eqn:E2.
  - destruct (x + 0x7fffffff <? -2147483648) eqn:E3;
      destruct (0x7fffffff <? x + 0x7fffffff) eqn:E4;
      destruct (x + 2 * p <? -2147483648) eqn:E5;
      destruct (0x7fffffff <? x + 2 * p) eqn:E6; lia.
  - reflexivity.
Qed.

Lemma msu_clamp x a b :
  Word32 x -> Word16 a -> Word16 b -> ~ Word32 (x - 2 * (a * b)) ->
  clamp MIN_32 MAX_32 (x - clamp MIN_32 MAX_32 (2 * (a * b))) =
  clamp MIN_32 MAX_32 (x - 2 * (a * b)).
Proof.
  intros Hx Ha Hb Hn.
  assert (Hp : -1073709056 <= a * b <= 1073741824)
    by (unfold Word16, MIN_16, MAX_16 in *; nia).
  generalize dependent (a * b). intros p Hn Hp.
  rewrite !clamp32_cases. unfold Word32, MIN_32, MAX_32 in *.
  destruct (2 * p <? -2147483648) eqn:E1; [lia|].
  destruct (0x7fffffff <? 2 * p) eqn:E2.
  - destruct (x - 0x7fffffff <? -2147483648) eqn:E3;
      destruct (0x7fffffff <? x - 0x7fffffff) eqn:E4;
      destruct (x - 2 * p <? -2147483648) eqn:E5;
      destruct (0x7fffffff <? x - 2 * p) eqn:E6; lia.
  - reflexivity.
Qed.

Lemma eval_L_mult0 a b g :
  Word16 a -> Word16 b -> eval (L_mult0 a b) g = a * b.
Proof.
  intros Ha Hb. unfold L_mult0. run_monad. apply cast32_id.
  unfold Word16, Word32, MIN_16, MAX_16, MIN_32, MAX_32 in *. nia.
Qed.

Lemma mult0_Word32 a b : Word16 a -> Word16 b -> Word32 (a * b).
Proof.
  unfold Word16, Word32, MIN_16, MAX_16, MIN_32, MAX_32. intros; nia.
Qed.

Lemma eval_L_mac0 c a b g :
  Word32 c -> Word16 a -> Word16 b ->
  eval (L_mac0 c a b) g = clamp MIN_32 MAX_32 (c + a * b).
Proof.
  intros Hc Ha Hb. unfold L_mac0. run_monad. rewrite eval_L_mult0 by auto.
  apply eval_L_add; auto using mult0_Word32.
Qed.

Lemma eval_L_msu0 c a b g :
  Word32 c -> Word16 a -> Word16 b ->
  eval (L_msu0 c a b) g = clamp MIN_32 MAX_32 (c - a * b).
Proof.
  intros Hc Ha Hb. unfold L_msu0. run_monad. rewrite eval_L_mult0 by auto.
  apply eval_L_sub; auto using mult0_Word32.
Qed.

Lemma eval_extract_h x g : eval (extract_h x) g = cast16 (Z.shiftr x 16).
Proof. unfold extract_h. run_monad. reflexivity. Qed.

Lemma Word32_0x8000 : Word32 0x00008000.
Proof. unfold Word32, MIN_32, MAX_32. lia. Qed.

Lemma eval_mac_r c a b g :
  Word32 c -> Word16 a -> Word16 b ->
  eval (mac_r c a b) g =
  cast16 (Z.shiftr
    (clamp MIN_32 MAX_32
       (clamp MIN_32 MAX_32 (c + clamp MIN_32 MAX_32 (2 * (a * b)))
        + 0x8000)) 16).
Proof.
  intros Hc Ha Hb. unfold mac_r. run_monad.
  rewrite eval_L_mac by auto.
  rewrite eval_L_add by (auto using clamp32_range, Word32_0x8000).
  apply eval_extract_h.
Qed.

Lemma eval_msu_r c a b g :
  Word32 c -> Word16 a -> Word16 b ->
  eval (msu_r c a b) g =
  cast16 (Z.shiftr
    (clamp MIN_32 MAX_32
       (clamp MIN_32 MAX_32 (c - clamp MIN_32 MAX_32 (2 * (a * b)))
        + 0x8000)) 16).
Proof.
  intros Hc Ha Hb. unfold msu_r. run_monad.
  rewrite eval_L_msu by auto.
  rewrite eval_L_add by (auto using clamp32_range, Word32_0x8000).
  apply eval_extract_h.
Qed.

Lemma shiftr16_Word16 z : Word32 z -> Word16 (Z.shiftr z 16).
Proof.
  unfold Word32, Word16, MIN_32, MAX_32, MIN_16, MAX_16. intros Hz.
  rewrite Z.shiftr_div_pow2 by lia. change (2 ^ 16) with 65536.
  Z.div_mod_to_equations. lia.
Qed.

(** A rounded sum [t = c + 2ab] (or difference [t = c - 2ab]) whose high
    half does not fit 16 bits: the two saturating additions of the code end
    at the top or at the bottom of the 16-bit range as well. *)
Lemma round_clamp t y :
  ~ Word16 (Z.shiftr (t + 0x8000) 16) ->
  Word32 y -> mac_result t y ->
  cast16 (Z.shiftr (clamp MIN_32 MAX_32 (y + 0x8000)) 16) =
  clamp MIN_16 MAX_16 (Z.shiftr (t + 0x8000) 16).
Proof.
  unfold mac_result. intros Hn Hy Hrel.
  assert (Ht : 2147483648 <= t + 32768 \/ t + 32768 < -2147483648).
  { destruct (Z_le_gt_dec 2147483648 (t + 32768)); [left; lia|].
    destruct (Z_lt_ge_dec (t + 32768) (-2147483648)); [right; lia|].
    exfalso. apply Hn. apply shiftr16_Word16.
    unfold Word32, MIN_32, MAX_32. lia. }
  rewrite clamp16_extreme by exact Hn.
  rewrite !Z.shiftr_div_pow2 by lia. change (2 ^ 16) with 65536.
  rewrite !clamp32_cases in *. unfold Word32, MIN_32, MAX_32 in *.
  destruct Ht as [Hhi|Hlo].
  - assert (Hz : 2147483647 <= y + 32768).
    { destruct Hrel as [-> | [[_ Hy'] | [Hneg _]]]; [|lia|lia].
      destruct (t <? -2147483648) eqn:E1; [lia|].
      destruct (0x7fffffff <? t) eqn:E2; lia. }
    destruct (y + 0x8000 <? -2147483648) eqn:E1; [lia|].
    destruct ((t + 0x8000) / 65536 >? 0) eqn:E3;
      [|Z.div_mod_to_equations; lia].
    destruct (0x7fffffff <? y + 0x8000) eqn:E2.
    + reflexivity.
    + replace (y + 0x8000) with 2147483647 by lia. reflexivity.
  - assert (Hz : y = -2147483648).
    { destruct Hrel as [-> | [[Hpos _] | [_ Hy']]]; [|lia|lia].
      destruct (t <? -2147483648) eqn:E1; [reflexivity|lia]. }
    subst y.
    destruct ((t + 0x8000) / 65536 >? 0) eqn:E3;
      [Z.div_mod_to_equations; lia|].
    reflexivity.
Qed.

Lemma mac_relation x p :
  Word32 x -> -1073709056 <= p <= 1073741824 ->
  mac_result (x + 2 * p)
    (clamp MIN_32 MAX_32 (x + clamp MIN_32 MAX_32 (2 * p))).
Proof.
  unfold mac_result. intros Hx Hp.
  rewrite !clamp32_cases. unfold Word32, MIN_32, MAX_32 in *.
  destruct (2 * p <? -2147483648) eqn:E1; [lia|].
  destruct (0x7fffffff <? 2 * p) eqn:E2; [|left; reflexivity].
  destruct (x + 0x7fffffff <? -2147483648) eqn:E3; [lia|].
  destruct (0x7fffffff <? x + 0x7fffffff) eqn:E4; [|right; left; lia].
  left. destruct (x + 2 * p <? -2147483648) eqn:E5; [lia|].
  destruct (0x7fffffff <? x + 2 * p) eqn:E6; [reflexivity|lia].
Qed.

Lemma msu_relation x p :
  Word32 x -> -1073709056 <= p <= 1073741824 ->
  mac_result (x - 2 * p)
    (clamp MIN_32 MAX_32 (x - clamp MIN_32 MAX_32 (2 * p))).
Proof.
  unfold mac_result. intros Hx Hp.
  rewrite !clamp32_cases. unfold Word32, MIN_32, MAX_32 in *.
  destruct (2 * p <? -2147483648) eqn:E1; [lia|].
  destruct (0x7fffffff <? 2 * p) eqn:E2; [|left; reflexivity].
  destruct (0x7fffffff <? x - 0x7fffffff) eqn:E4; [lia|].
  destruct (x - 0x7fffffff <? -2147483648) eqn:E3; [|right; right; lia].
  left. destruct (x - 2 * p <? -2147483648) eqn:E5; [reflexivity|lia].
Qed.

(** The value of every call of [SatCall] whose exact result does not fit. *)
Lemma eval_run_call c g :
  legal_args c -> ~ fits_target c ->
  eval (run_call c) g = clamp (target_min c) (target_max c) (exact_result c).
Proof.
  unfold fits_target.
  destruct c as [a b|a b|a s|x s|x y|x y|x a b|x a b|x a b|x a b|x a b|x a b];
    cbn [legal_args run_call target_min target_max exact_result];
    intros Hl Hn.
  - apply eval_add; tauto.
  - apply eval_sub; tauto.
  - apply eval_shl; tauto.
  - apply eval_L_shl; tauto.
  - apply eval_L_add; tauto.
  - apply eval_L_sub; tauto.
  - destruct Hl as (Hx & Ha & Hb). rewrite eval_L_mac by auto.
    apply mac_clamp; auto.
  - destruct Hl as (Hx & Ha & Hb). rewrite eval_L_msu by auto.
    apply msu_clamp; auto.
  - apply eval_L_mac0; tauto.
  - apply eval_L_msu0; tauto.
  - destruct Hl as (Hx & Ha & Hb). rewrite eval_mac_r by auto.
    apply round_clamp; [exact Hn|apply clamp32_range|].
    apply mac_relation; [exact Hx|].
    unfold Word16, MIN_16, MAX_16 in *. nia.
  - destruct Hl as (Hx & Ha & Hb). rewrite eval_msu_r by auto.
    apply round_clamp; [exact Hn|apply clamp32_range|].
    apply msu_relation; [exact Hx|].
    unfold Word16, MIN_16, MAX_16 in *. nia.
Qed.

End OperatorFacts.

(** ** Effect of the operators on the globals, instrumented builds

    With BASOP_OVERFLOW2 defined, [BASOP_CHECK] is the function of
    basop32.c, and a call changes the globals by one [tick] per indicator
    that is set. *)

Section CheckedBuild.
Context {build : Build}.
Hypothesis Hchk : BASOP_OVERFLOW2 = true.

Lemma ticks_ticks n m g : ticks n (ticks m g) = ticks (m + n) g.
Proof.
  induction n as [|n IH]; [rewrite Nat.add_0_r; reflexivity|].
  rewrite Nat.add_succ_r. cbn [ticks]. rewrite IH. reflexivity.
Qed.

Lemma tick_fields g :
  Carry (tick g) = Carry g /\ Overflow (tick g) = Overflow g /\
  Overflow2 (tick g) = Overflow2 g /\
  overflow_warning_enable (tick g) = overflow_warning_enable g /\
  overflow_warning_disable_counter (tick g) =
    overflow_warning_disable_counter g /\
  overflow_error_enable (tick g) = overflow_error_enable g.
Proof.
  unfold tick.
  destruct (negb (overflow_warning_enable g =? 0) && negb HIDE_UNUSED_BASOP);
    cbn; auto 10.
Qed.

Lemma ticks_fields n g :
  Carry (ticks n g) = Carry g /\ Overflow (ticks n g) = Overflow g /\
  Overflow2 (ticks n g) = Overflow2 g /\
  overflow_warning_enable (ticks n g) = overflow_warning_enable g /\
  overflow_warning_disable_counter (ticks n g) =
    overflow_warning_disable_counter g /\
  overflow_error_enable (ticks n g) = overflow_error_enable g.
Proof.
  induction n as [|n IH]; [cbn; auto 10|].
  cbn [ticks].
  destruct (tick_fields (ticks n g)) as (H1 & H2 & H3 & H4 & H5 & H6).
  destruct IH as (I1 & I2 & I3 & I4 & I5 & I6).
  rewrite H1, H2, H3, H4, H5, H6. auto 10.
Qed.

Lemma BASOP_CHECK_run a b g :
  BASOP_CHECK a b g = (tt, ticks (nz a + nz b) g).
Proof.
  unfold BASOP_CHECK. rewrite Hchk. unfold BASOP_CHECK_fn, nz.
  destruct (a =? 0); destruct (b =? 0); cbn [negb Nat.add ticks];
    unfold tick;
    destruct (overflow_warning_enable g =? 0) eqn:Ew;
    destruct HIDE_UNUSED_BASOP; cbn; rewrite ?Ew; reflexivity.
Qed.

Lemma exec_BASOP_CHECK a b g :
  exec (BASOP_CHECK a b) g = ticks (nz a + nz b) g.
Proof. unfold exec. rewrite BASOP_CHECK_run. reflexivity. Qed.

Lemma exec_BASOP_CHECK_0 g : exec (BASOP_CHECK 0 0) g = g.
Proof. apply exec_BASOP_CHECK. Qed.

Lemma exec_extract_l x g : exec (extract_l x) g = g.
Proof. unfold extract_l. run_monad. apply exec_BASOP_CHECK_0. Qed.

Lemma exec_L_deposit_l x g : exec (L_deposit_l x) g = g.
Proof. unfold L_deposit_l. run_monad. apply exec_BASOP_CHECK_0. Qed.

Lemma exec_saturate x g :
  exec (saturate x) g = ticks (if fits16 x then 0 else 1) g.
Proof.
  unfold saturate. run_monad.
  change (cast32 0xffff8000) with (-32768).
  unfold fits16, MIN_16, MAX_16.
  destruct (x >? 32767) eqn:Hhi.
  - run_monad. cbn [fst snd]. run_monad. rewrite exec_BASOP_CHECK.
    destruct (-32768 <=? x) eqn:E1; destruct (x <=? 32767) eqn:E2;
      cbn [andb]; try lia; reflexivity.
  - destruct (x <? -32768) eqn:Hlo.
    + run_monad. cbn [fst snd]. run_monad. rewrite exec_BASOP_CHECK.
      destruct (-32768 <=? x) eqn:E1; destruct (x <=? 32767) eqn:E2;
        cbn [andb]; try lia; reflexivity.
    + run_monad. cbn [fst snd]. run_monad.
      rewrite exec_BASOP_CHECK, exec_extract_l.
      destruct (-32768 <=? x) eqn:E1; destruct (x <=? 32767) eqn:E2;
        cbn [andb]; try lia; reflexivity.
Qed.

Lemma exec_add a b g :
  Word16 a -> Word16 b ->
  exec (add a b) g = ticks (if fits16 (a + b) then 0 else 1) g.
Proof.
  intros Ha Hb. unfold add. run_monad. rewrite exec_saturate.
  rewrite cast32_id; [reflexivity|].
  unfold Word16, Word32, MIN_16, MAX_16, MIN_32, MAX_32 in *. lia.
Qed.

Lemma exec_sub a b g :
  Word16 a -> Word16 b ->
  exec (sub a b) g = ticks (if fits16 (a - b) then 0 else 1) g.
Proof.
  intros Ha Hb. unfold sub. run_monad. rewrite exec_saturate.
  rewrite cast32_id; [reflexivity|].
  unfold Word16, Word32, MIN_16, MAX_16, MIN_32, MAX_32 in *. lia.
Qed.

Lemma fits16_Word16 x : fits16 x = true <-> Word16 x.
Proof. unfold fits16, Word16. rewrite andb_true_iff. lia. Qed.

Lemma fits32_Word32 x : fits32 x = true <-> Word32 x.
Proof. unfold fits32, Word32. rewrite andb_true_iff. lia. Qed.

Lemma fits16_false x : ~ Word16 x -> fits16 x = false.
Proof.
  intros H. destruct (fits16 x) eqn:E; [|reflexivity].
  apply fits16_Word16 in E. contradiction.
Qed.

Lemma fits32_false x : ~ Word32 x -> fits32 x = false.
Proof.
  intros H. destruct (fits32 x) eqn:E; [|reflexivity].
  apply fits32_Word32 in E. contradiction.
Qed.

Lemma fits32_true x : Word32 x -> fits32 x = true.
Proof. apply fits32_Word32. Qed.

Lemma fits16_true x : Word16 x -> fits16 x = true.
Proof. apply fits16_Word16. Qed.

Lemma exec_shl_nonneg a s g :
  Word16 a -> 0 <= s ->
  exec (shl a s) g = ticks (if fits16 (a * 2 ^ s) then 0 else 1) g.
Proof.
  intros Ha Hs. unfold shl. cbn [shl_fuel]. run_monad.
  destruct (s <? 0) eqn:E0; [lia|].
  destruct (s >? 15) eqn:E15.
  - assert (Hp : 65536 <= 2 ^ s).
    { change 65536 with (2 ^ 16). apply Z.pow_le_mono_r; lia. }
    destruct (a =? 0) eqn:Ea.
    + assert (a = 0) by lia. subst a. rewrite Z.mul_0_l.
      cbn. run_monad. rewrite exec_BASOP_CHECK_0, exec_extract_l.
      reflexivity.
    + cbn [negb andb orb]. run_monad. cbn [fst snd]. run_monad.
      rewrite exec_BASOP_CHECK. rewrite fits16_false; [reflexivity|].
      unfold Word16, MIN_16, MAX_16 in *. nia.
  - assert (Hp : 1 <= 2 ^ s <= 32768).
    { split.
      - change 1 with (2 ^ 0). apply Z.pow_le_mono_r; lia.
      - change 32768 with (2 ^ 15). apply Z.pow_le_mono_r; lia. }
    rewrite Z.shiftl_mul_pow2, Z.mul_1_l by lia.
    rewrite (cast32_id (2 ^ s)) by (unfold Word32, MIN_32, MAX_32; lia).
    rewrite (cast32_id (a * 2 ^ s))
      by (unfold Word16, Word32, MIN_16, MAX_16, MIN_32, MAX_32 in *; nia).
    rewrite (cast32_id (cast16 _)) by (apply Word16_Word32, cast16_range).
    cbn [andb orb].
    destruct (a * 2 ^ s =? cast16 (a * 2 ^ s)) eqn:Efit; cbn [negb].
    + run_monad. cbn [fst snd]. run_monad.
      rewrite exec_BASOP_CHECK_0, exec_extract_l.
      rewrite fits16_true; [reflexivity|].
      apply Z.eqb_eq in Efit. rewrite Efit. apply cast16_range.
    + run_monad. cbn [fst snd]. run_monad. rewrite exec_BASOP_CHECK.
      rewrite fits16_false; [reflexivity|].
      intros Hw. apply cast16_id in Hw. lia.
Qed.

Lemma exec_L_add a b g :
  Word32 a -> Word32 b ->
  exec (L_add a b) g = ticks (if fits32 (a + b) then 0 else 1) g.
Proof.
  intros Ha Hb. unfold L_add.
  rewrite !sign_test_lxor by (auto using cast32_range).
  pose proof (cast32_range (a + b)) as Hc.
  assert (Hfit : Word32 (a + b) -> cast32 (a + b) = a + b)
    by apply cast32_id.
  assert (Hhi : MAX_32 < a + b -> cast32 (a + b) = a + b - 4294967296).
  { intros H. rewrite cast32_eq. unfold Word32, MIN_32, MAX_32 in *.
    Z.div_mod_to_equations. lia. }
  assert (Hlo : a + b < MIN_32 -> cast32 (a + b) = a + b + 4294967296).
  { intros H. rewrite cast32_eq. unfold Word32, MIN_32, MAX_32 in *.
    Z.div_mod_to_equations. lia. }
  unfold fits32, Word32, MIN_32, MAX_32 in *.
  destruct (a <? 0) eqn:E1; destruct (b <? 0) eqn:E2;
    destruct (cast32 (a + b) <? 0) eqn:E3;
    destruct (-2147483648 <=? a + b) eqn:E4;
    destruct (a + b <=? 0x7fffffff) eqn:E5;
    cbn [xorb negb andb]; run_monad; cbn [fst snd]; run_monad;
    rewrite exec_BASOP_CHECK; try reflexivity; lia.
Qed.

Lemma exec_L_sub a b g :
  Word32 a -> Word32 b ->
  exec (L_sub a b) g = ticks (if fits32 (a - b) then 0 else 1) g.
Proof.
  intros Ha Hb. unfold L_sub.
  rewrite !sign_test_lxor by (auto using cast32_range).
  pose proof (cast32_range (a - b)) as Hc.
  assert (Hfit : Word32 (a - b) -> cast32 (a - b) = a - b)
    by apply cast32_id.
  assert (Hhi : MAX_32 < a - b -> cast32 (a - b) = a - b - 4294967296).
  { intros H. rewrite cast32_eq. unfold Word32, MIN_32, MAX_32 in *.
    Z.div_mod_to_equations. lia. }
  assert (Hlo : a - b < MIN_32 -> cast32 (a - b) = a - b + 4294967296).
  { intros H. rewrite cast32_eq. unfold Word32, MIN_32, MAX_32 in *.
    Z.div_mod_to_equations. lia. }
  unfold fits32, Word32, MIN_32, MAX_32 in *.
  destruct (a <? 0) eqn:E1; destruct (b <? 0) eqn:E2;
    destruct (cast32 (a - b) <? 0) eqn:E3;
    destruct (-2147483648 <=? a - b) eqn:E4;
    destruct (a - b <=? 0x7fffffff) eqn:E5;
    cbn [xorb negb andb]; run_monad; cbn [fst snd]; run_monad;
    rewrite exec_BASOP_CHECK; try reflexivity; lia.
Qed.

Lemma exec_L_mult a b g :
  Word16 a -> Word16 b ->
  exec (L_mult a b) g = ticks (if fits32 (2 * (a * b)) then 0 else 1) g.
Proof.
  intros Ha Hb. unfold L_mult.
  assert (Hp : -1073709056 <= a * b <= 1073741824)
    by (unfold Word16, MIN_16, MAX_16 in *; nia).
  rewrite (cast32_id (a * b)) by (unfold Word32, MIN_32, MAX_32; lia).
  destruct (a * b =? 0x40000000) eqn:E; cbn [negb];
    run_monad; cbn [fst snd]; run_monad; rewrite exec_BASOP_CHECK.
  - rewrite fits32_false; [reflexivity|].
    unfold Word32, MIN_32, MAX_32. lia.
  - rewrite fits32_true; [reflexivity|].
    unfold Word32, MIN_32, MAX_32. lia.
Qed.

Lemma exec_L_mac c a b g :
  Word32 c -> Word16 a -> Word16 b ->
  exec (L_mac c a b) g =
  ticks ((if fits32 (2 * (a * b)) then 0 else 1) +
         (if fits32 (c + clamp MIN_32 MAX_32 (2 * (a * b))) then 0 else 1)) g.
Proof.
  intros Hc Ha Hb. unfold L_mac. run_monad.
  rewrite exec_BASOP_CHECK_0, eval_L_mult by auto.
  rewrite exec_L_add by (auto using clamp32_range).
  rewrite exec_L_mult by auto. apply ticks_ticks.
Qed.

Lemma exec_L_msu c a b g :
  Word32 c -> Word16 a -> Word16 b ->
  exec (L_msu c a b) g =
  ticks ((if fits32 (2 * (a * b)) then 0 else 1) +
         (if fits32 (c - clamp MIN_32 MAX_32 (2 * (a * b))) then 0 else 1)) g.
Proof.
  intros Hc Ha Hb. unfold L_msu. run_monad.
  rewrite exec_BASOP_CHECK_0, eval_L_mult by auto.
  rewrite exec_L_sub by (auto using clamp32_range).
  rewrite exec_L_mult by auto. apply ticks_ticks.
Qed.

Lemma exec_L_shl_pos a s g :
  Word32 a -> 0 < s ->
  exec (L_shl a s) g = ticks (if fits32 (a * 2 ^ s) then 0 else 1) g.
Proof.
  intros Ha Hs. unfold L_shl. cbn [L_shl_fuel]. run_monad.
  destruct (s <=? 0) eqn:E0; [lia|].
  run_monad. rewrite L_shl_loop_first by (auto; lia).
  cbn [fst snd]. run_monad. rewrite exec_BASOP_CHECK.
  rewrite Z2Nat.id by lia.
  destruct (fits32 (a * 2 ^ s)); reflexivity.
Qed.

Lemma exec_div_s_loop n : forall q r d g,
  0 < d <= MAX_16 -> 0 <= r < d -> 0 <= q ->
  (q + 1) * 2 ^ Z.of_nat n <= 32768 ->
  exec (div_s_loop n q r d) g = g.
Proof.
  unfold MAX_16.
  induction n as [|n IH]; intros q r d g Hd Hr Hq Hb.
  - reflexivity.
  - cbn [div_s_loop]. rewrite Nat2Z.inj_succ, Z.pow_succ_r in * by lia.
    assert (Hp : 1 <= 2 ^ Z.of_nat n).
    { change 1 with (2 ^ 0). apply Z.pow_le_mono_r; lia. }
    set (k := 2 ^ Z.of_nat n) in *.
    rewrite !Z.shiftl_mul_pow2 by lia. change (2 ^ 1) with 2.
    rewrite (cast16_id (q * 2)) by (unfold Word16, MIN_16, MAX_16; nia).
    rewrite (cast32_id (r * 2)) by (unfold Word32, MIN_32, MAX_32; lia).
    run_monad. destruct (r * 2 >=? d) eqn:Ege; run_monad.
    + rewrite eval_L_sub by (unfold Word32, MIN_32, MAX_32; lia).
      rewrite clamp32_id by (unfold Word32, MIN_32, MAX_32; lia).
      rewrite eval_add by (unfold Word16, MIN_16, MAX_16; nia).
      rewrite clamp16_id by (unfold Word16, MIN_16, MAX_16; nia).
      rewrite exec_add by (unfold Word16, MIN_16, MAX_16; nia).
      rewrite fits16_true by (unfold Word16, MIN_16, MAX_16; nia).
      rewrite exec_L_sub by (unfold Word32, MIN_32, MAX_32; lia).
      rewrite fits32_true by (unfold Word32, MIN_32, MAX_32; lia).
      cbn [fst snd ticks]. apply IH; nia.
    + cbn [fst snd]. apply IH; nia.
Qed.

(** In an instrumented build a legal division returns the globals as it
    found them: no operator inside recorded an overflow. *)
Lemma div_s_run var1 var2 g :
  Word16 var2 -> 0 <= var1 < var2 ->
  div_s var1 var2 g = Some (var1 * 32768 / var2, g).
Proof.
  unfold Word16, MIN_16, MAX_16. intros Hw Hlt. unfold div_s.
  destruct (var1 >? var2) eqn:E1; [lia|].
  destruct (var1 <? 0) eqn:E2; [lia|].
  destruct (var2 <? 0) eqn:E3; [lia|].
  destruct (var2 =? 0) eqn:E4; [lia|]. cbn [orb].
  f_equal. rewrite !bind_run. run_monad.
  destruct (var1 =? 0) eqn:E5.
  - run_monad. rewrite exec_BASOP_CHECK_0.
    assert (var1 = 0) by lia. subst var1. reflexivity.
  - destruct (var1 =? var2) eqn:E6; [lia|]. run_monad.
    rewrite !eval_L_deposit_l, !exec_L_deposit_l.
    rewrite exec_BASOP_CHECK_0.
    rewrite eval_div_s_loop, exec_div_s_loop
      by (unfold MAX_16; cbn; lia).
    cbn [fst]. change (2 ^ Z.of_nat 15) with 32768.
    rewrite Z.mul_0_l, Z.add_0_l. reflexivity.
Qed.

Lemma ticks_Overflow n g : Overflow (ticks n g) = Overflow g.
Proof. apply ticks_fields. Qed.

Lemma exec_L_mult0 a b g : exec (L_mult0 a b) g = g.
Proof. unfold L_mult0. run_monad. apply exec_BASOP_CHECK_0. Qed.

Lemma exec_L_mac0 c a b g :
  Word32 c -> Word16 a -> Word16 b ->
  exec (L_mac0 c a b) g = ticks (if fits32 (c + a * b) then 0 else 1) g.
Proof.
  intros Hc Ha Hb. unfold L_mac0. run_monad.
  rewrite exec_BASOP_CHECK_0, eval_L_mult0, exec_L_mult0 by auto.
  apply exec_L_add; auto using mult0_Word32.
Qed.

Lemma exec_L_msu0 c a b g :
  Word32 c -> Word16 a -> Word16 b ->
  exec (L_msu0 c a b) g = ticks (if fits32 (c - a * b) then 0 else 1) g.
Proof.
  intros Hc Ha Hb. unfold L_msu0. run_monad.
  rewrite exec_BASOP_CHECK_0, eval_L_mult0, exec_L_mult0 by auto.
  apply exec_L_sub; auto using mult0_Word32.
Qed.

Lemma exec_extract_h x g : exec (extract_h x) g = g.
Proof. unfold extract_h. run_monad. apply exec_BASOP_CHECK_0. Qed.

Lemma exec_mac_r c a b g :
  Word32 c -> Word16 a -> Word16 b ->
  exec (mac_r c a b) g =
  ticks ((if fits32 (2 * (a * b)) then 0 else 1) +
         (if fits32 (c + clamp MIN_32 MAX_32 (2 * (a * b))) then 0 else 1) +
         (if fits32 (clamp MIN_32 MAX_32
                       (c + clamp MIN_32 MAX_32 (2 * (a * b))) + 0x8000)
          then 0 else 1)) g.
Proof.
  intros Hc Ha Hb. unfold mac_r. run_monad.
  rewrite exec_BASOP_CHECK_0, exec_extract_h, eval_L_mac by auto.
  rewrite exec_L_add by (auto using clamp32_range, Word32_0x8000).
  rewrite exec_L_mac by auto. apply ticks_ticks.
Qed.

Lemma exec_msu_r c a b g :
  Word32 c -> Word16 a -> Word16 b ->
  exec (msu_r c a b) g =
  ticks ((if fits32 (2 * (a * b)) then 0 else 1) +
         (if fits32 (c - clamp MIN_32 MAX_32 (2 * (a * b))) then 0 else 1) +
         (if fits32 (clamp MIN_32 MAX_32
                       (c - clamp MIN_32 MAX_32 (2 * (a * b))) + 0x8000)
          then 0 else 1)) g.
Proof.
  intros Hc Ha Hb. unfold msu_r. run_monad.
  rewrite exec_BASOP_CHECK_0, exec_extract_h, eval_L_msu by auto.
  rewrite exec_L_add by (auto using clamp32_range, Word32_0x8000).
  rewrite exec_L_msu by auto. apply ticks_ticks.
Qed.

(** Every call of [SatCall] whose exact result does not fit hands at least
    one overflow event to [BASOP_CHECK], and at most three (the product,
    the accumulation and the rounding of [mac_r] / [msu_r]). *)
Lemma exec_run_call c g :
  legal_args c -> ~ fits_target c ->
  exists k, (1 <= k <= 3)%nat /\ exec (run_call c) g = ticks k g.
Proof.
  unfold fits_target.
  destruct c as [a b|a b|a s|x s|x y|x y|x a b|x a b|x a b|x a b|x a b|x a b];
    cbn [legal_args run_call target_min target_max exact_result];
    intros Hl Hn.
  - exists 1%nat. split; [lia|]. rewrite exec_add by tauto.
    rewrite fits16_false by exact Hn. reflexivity.
  - exists 1%nat. split; [lia|]. rewrite exec_sub by tauto.
    rewrite fits16_false by exact Hn. reflexivity.
  - destruct Hl as [Ha Hs].
    pose proof (shl_unfit_count a s Ha Hn) as Hs0.
    exists 1%nat. split; [lia|]. rewrite exec_shl_nonneg by auto.
    rewrite Z.shiftl_mul_pow2 in Hn by lia.
    rewrite fits16_false by exact Hn. reflexivity.
  - destruct Hl as [Hx Hs].
    pose proof (L_shl_unfit_count x s Hx Hn) as Hs0.
    exists 1%nat. split; [lia|]. rewrite exec_L_shl_pos by auto.
    rewrite Z.shiftl_mul_pow2 in Hn by lia.
    rewrite fits32_false by exact Hn. reflexivity.
  - exists 1%nat. split; [lia|]. rewrite exec_L_add by tauto.
    rewrite fits32_false by exact Hn. reflexivity.
  - exists 1%nat. split; [lia|]. rewrite exec_L_sub by tauto.
    rewrite fits32_false by exact Hn. reflexivity.
  - destruct Hl as (Hx & Ha & Hb). rewrite exec_L_mac by auto.
    destruct (fits32 (2 * (a * b))) eqn:Ep.
    + apply fits32_Word32 in Ep. rewrite clamp32_id by exact Ep.
      rewrite fits32_false by exact Hn. exists 1%nat. split; [lia|reflexivity].
    + destruct (fits32 (x + clamp MIN_32 MAX_32 (2 * (a * b)))).
      * exists 1%nat. split; [lia|reflexivity].
      * exists 2%nat. split; [lia|reflexivity].
  - destruct Hl as (Hx & Ha & Hb). rewrite exec_L_msu by auto.
    destruct (fits32 (2 * (a * b))) eqn:Ep.
    + apply fits32_Word32 in Ep. rewrite clamp32_id by exact Ep.
      rewrite fits32_false by exact Hn. exists 1%nat. split; [lia|reflexivity].
    + destruct (fits32 (x - clamp MIN_32 MAX_32 (2 * (a * b)))).
      * exists 1%nat. split; [lia|reflexivity].
      * exists 2%nat. split; [lia|reflexivity].
  - destruct Hl as (Hx & Ha & Hb). exists 1%nat. split; [lia|].
    rewrite exec_L_mac0 by auto.
    rewrite fits32_false by exact Hn. reflexivity.
  - destruct Hl as (Hx & Ha & Hb). exists 1%nat. split; [lia|].
    rewrite exec_L_msu0 by auto.
    rewrite fits32_false by exact Hn. reflexivity.
  - destruct Hl as (Hx & Ha & Hb). rewrite exec_mac_r by auto.
    destruct (fits32 (2 * (a * b))) eqn:E1;
      destruct (fits32 (x + clamp MIN_32 MAX_32 (2 * (a * b)))) eqn:E2;
      destruct (fits32 (clamp MIN_32 MAX_32
                  (x + clamp MIN_32 MAX_32 (2 * (a * b))) + 0x8000)) eqn:E3;
      try (eexists; split; [|reflexivity]; cbn; lia).
    exfalso. apply Hn.
    apply fits32_Word32 in E1. apply fits32_Word32 in E2.
    apply fits32_Word32 in E3.
    rewrite (clamp32_id (2 * (a * b))) in * by exact E1.
    rewrite clamp32_id in E3 by exact E2.
    apply shiftr16_Word16. exact E3.
  - destruct Hl as (Hx & Ha & Hb). rewrite exec_msu_r by auto.
    destruct (fits32 (2 * (a * b))) eqn:E1;
      destruct (fits32 (x - clamp MIN_32 MAX_32 (2 * (a * b)))) eqn:E2;
      destruct (fits32 (clamp MIN_32 MAX_32
                  (x - clamp MIN_32 MAX_32 (2 * (a * b))) + 0x8000)) eqn:E3;
      try (eexists; split; [|reflexivity]; cbn; lia).
    exfalso. apply Hn.
    apply fits32_Word32 in E1. apply fits32_Word32 in E2.
    apply fits32_Word32 in E3.
    rewrite (clamp32_id (2 * (a * b))) in * by exact E1.
    rewrite clamp32_id in E3 by exact E2.
    apply shiftr16_Word16. exact E3.
Qed.

End CheckedBuild.

(* ================================================================== *)
(** * Properties of the attack detector *)

(** ** Loops *)

Lemma bind_ret_r {A} (m : M A) g : bind m (fun a => ret a) g = m g.
Proof. unfold bind, ret. destruct (m g); reflexivity. Qed.

(** The last iteration of a counting loop, split off. *)
Lemma for_up_snoc {S : Type} (body : Z -> S -> M S) n : forall i s g,
  for_up (Datatypes.S n) i body s g =
  bind (for_up n i body s) (fun s' => body (i + Z.of_nat n) s') g.
Proof.
  induction n as [|n IH]; intros i s g.
  - cbn [for_up]. rewrite bind_ret_r. unfold bind, ret.
    change (Z.of_nat 0) with 0. rewrite Z.add_0_r. reflexivity.
  - change (for_up (Datatypes.S (Datatypes.S n)) i body s)
      with (bind (body i s)
              (fun s' => for_up (Datatypes.S n) (i + 1) body s')).
    rewrite bind_run, IH.
    cbn [for_up]. rewrite !bind_run. unfold eval, exec. rewrite !bind_run.
    rewrite Nat2Z.inj_succ.
    replace (i + 1 + Z.of_nat n) with (i + Z.succ (Z.of_nat n)) by lia.
    reflexivity.
Qed.

Lemma eval_for_up_snoc {S : Type} (body : Z -> S -> M S) n i s g :
  eval (for_up (Datatypes.S n) i body s) g =
  eval (body (i + Z.of_nat n) (eval (for_up n i body s) g))
       (exec (for_up n i body s) g).
Proof. unfold eval at 1. rewrite for_up_snoc, bind_run. reflexivity. Qed.

(** A property kept by the body is kept by the loop. *)
Lemma for_up_invariant {S : Type} (P : S -> Prop) (body : Z -> S -> M S) :
  (forall i s g, P s -> P (eval (body i s) g)) ->
  forall n i s g, P s -> P (eval (for_up n i body s) g).
Proof.
  intros Hbody. induction n as [|n IH]; intros i s g Hs.
  - exact Hs.
  - cbn [for_up]. rewrite eval_bind. apply IH, Hbody, Hs.
Qed.

Lemma for_down_invariant {S : Type} (P : S -> Prop) (body : Z -> S -> M S) :
  (forall i s g, P s -> P (eval (body i s) g)) ->
  forall n s g, P s -> P (eval (for_down n body s) g).
Proof.
  intros Hbody. induction n as [|n IH]; intros s g Hs.
  - exact Hs.
  - cbn [for_down]. rewrite eval_bind. apply IH, Hbody, Hs.
Qed.

Section AttackDetectorFacts.
Context {build : Build} {util : BasopUtil}.

(** ** The energy envelope (lines 99-114) *)

(** For a count below 31, [L_shr] is the arithmetic shift of any input. *)
Lemma eval_L_shr_small a s g :
  0 <= s < 31 -> eval (L_shr a s) g = Z.shiftr a s.
Proof.
  intros Hs. unfold L_shr. cbn [L_shr_fuel]. run_monad.
  destruct (s <? 0) eqn:E0; [lia|].
  destruct (s >=? 31) eqn:E31; [lia|].
  destruct (a <? 0) eqn:Eneg; run_monad; cbn [fst snd]; run_monad.
  - apply lnot_shiftr_lnot; lia.
  - reflexivity.
Qed.

Lemma eval_L_max a b g : eval (L_max a b) g = Z.max a b.
Proof.
  unfold L_max. rewrite eval_ret. destruct (a >=? b) eqn:E; lia.
Qed.

(** One block: whatever the comparison decides, the running energy becomes
    the larger of its quarter and the block energy. *)
Lemma threshold_step_energy E i sp g :
  attdec_acc_energy (fst (eval (attdec_threshold_step E i sp) g)) =
  Z.max (Z.shiftr (attdec_acc_energy (fst sp)) 2) (E i).
Proof.
  destruct sp as [setup position]. unfold attdec_threshold_step.
  run_monad.
  match goal with
  | |- context [if ?c then (set_attdec_detected 1 setup, i)
                else (setup, position)] => destruct c
  end; run_monad; cbn [fst attdec_acc_energy set_attdec_acc_energy];
    rewrite eval_L_max, eval_L_shr_small by lia; reflexivity.
Qed.

Lemma threshold_loop_energy E n : forall sp g,
  attdec_acc_energy
    (fst (eval (for_up n 0 (attdec_threshold_step E) sp) g)) =
  attdec_envelope E (attdec_acc_energy (fst sp)) n.
Proof.
  induction n as [|n IH]; intros sp g.
  - reflexivity.
  - rewrite eval_for_up_snoc, threshold_step_energy, IH, Z.add_0_l.
    reflexivity.
Qed.

Lemma attdec_threshold_energy enc setup E g :
  attdec_acc_energy (eval (attdec_threshold enc setup E) g) =
  attdec_envelope E (attdec_acc_energy setup)
    (Z.to_nat (attdec_nblocks enc)).
Proof.
  unfold attdec_threshold. run_monad.
  match goal with
  | |- context [eval (for_up ?n 0 ?b ?sp) ?g'] =>
      pose proof (threshold_loop_energy E n sp g') as H;
      destruct (eval (for_up n 0 b sp) g') as [setup' position']
  end.
  run_monad. cbn [fst] in H. cbn [attdec_acc_energy set_attdec_position].
  exact H.
Qed.

(** ** Supported sampling rates *)

Lemma attdec_resample_supported fs_ input ns isc n x g :
  fs_ = 32000 \/ fs_ = 48000 ->
  exists r, eval (attdec_resample fs_ input ns isc n x) g = Some r.
Proof.
  intros [-> | ->]; unfold attdec_resample; cbn [Z.eqb Pos.eqb];
    run_monad; eexists; reflexivity.
Qed.

(** ** What the phases leave alone *)

Lemma same_config_refl s : same_config s s.
Proof. split; reflexivity. Qed.

Lemma same_config_trans s1 s2 s3 :
  same_config s1 s2 -> same_config s2 s3 -> same_config s1 s3.
Proof. unfold same_config. intros [H1 H2] [H3 H4]. split; congruence. Qed.

Lemma attdec_rescale_config enc setup input isc g :
  same_config setup (eval (attdec_rescale enc setup input isc) g).
Proof.
  unfold attdec_rescale. run_monad.
  match goal with
  | |- context [if ?c then _ else ret setup] => destruct c
  end; run_monad; split; reflexivity.
Qed.

Lemma threshold_step_config E i sp g :
  same_config (fst sp) (fst (eval (attdec_threshold_step E i sp) g)).
Proof.
  destruct sp as [setup position]. unfold attdec_threshold_step.
  run_monad.
  match goal with
  | |- context [if ?c then (set_attdec_detected 1 setup, i)
                else (setup, position)] => destruct c
  end; run_monad; split; reflexivity.
Qed.

Lemma attdec_threshold_config enc setup E g :
  same_config setup (eval (attdec_threshold enc setup E) g).
Proof.
  unfold attdec_threshold. run_monad.
  match goal with
  | |- context [eval (for_up ?n 0 ?b ?sp) ?g'] =>
      pose proof (for_up_invariant
                    (fun sp' => same_config setup (fst sp')) b
                    (fun i s g0 Hs =>
                       same_config_trans _ _ _ Hs
                         (threshold_step_config E i s g0))
                    n 0 sp g') as H;
      destruct (eval (for_up n 0 b sp) g') as [setup' position']
  end.
  run_monad. cbn [fst] in H.
  apply same_config_trans with setup'; [apply H; split; reflexivity|].
  split; reflexivity.
Qed.

(** ** A silent frame

    When the frame, the filter memory and the scratch hold zeros, every
    phase produces zeros, whatever exponents the helpers choose. *)

Lemma store_zero m i : all_zero m -> all_zero (store m i 0).
Proof. intros H j. unfold store. destruct (j =? i); [reflexivity|apply H]. Qed.

Lemma Word16_0 : Word16 0.
Proof. unfold Word16, MIN_16, MAX_16. lia. Qed.

Lemma Word32_0 : Word32 0.
Proof. unfold Word32, MIN_32, MAX_32. lia. Qed.

Lemma eval_shr_0 s g : eval (shr 0 s) g = 0.
Proof. rewrite eval_shr by apply Word16_0. rewrite Z.shiftr_0_l. reflexivity. Qed.

Lemma eval_shl_0 s g : eval (shl 0 s) g = 0.
Proof. rewrite eval_shl by apply Word16_0. rewrite Z.shiftl_0_l. reflexivity. Qed.

Lemma eval_add_0_0 g : eval (add 0 0) g = 0.
Proof. rewrite eval_add by apply Word16_0. reflexivity. Qed.

Lemma eval_i_mult a b g :
  eval (i_mult a b) g = clamp MIN_16 MAX_16 (cast32 (a * b)).
Proof. unfold i_mult. apply eval_saturate. Qed.

Lemma attdec_resample_zero input ns isc n x g :
  all_zero input -> all_zero x ->
  exists r, eval (attdec_resample 32000 input ns isc n x) g = Some r /\
            all_zero r.
Proof.
  intros Hin Hx. unfold attdec_resample. cbn [Z.eqb Pos.eqb]. run_monad.
  eexists. split; [reflexivity|].
  apply for_up_invariant; [|exact Hx].
  intros i m g0 Hm. run_monad. rewrite !Hin, !eval_shr_0, eval_add_0_0.
  apply store_zero, Hm.
Qed.

Lemma attdec_filter_zero n x g :
  all_zero x -> all_zero (eval (attdec_filter n x) g).
Proof.
  intros Hx. unfold attdec_filter. apply for_down_invariant; [|exact Hx].
  intros i m g0 Hm. run_monad. rewrite !Hm.
  rewrite eval_L_mult by (unfold Word16, MIN_16, MAX_16; lia).
  change (clamp MIN_32 MAX_32 (2 * (0 * 12288))) with 0.
  rewrite eval_L_msu
    by (try apply Word32_0; unfold Word16, MIN_16, MAX_16; lia).
  change (clamp MIN_32 MAX_32 (0 - clamp MIN_32 MAX_32 (2 * (0 * 16384))))
    with 0.
  rewrite eval_L_mac
    by (try apply Word32_0; unfold Word16, MIN_16, MAX_16; lia).
  change (clamp MIN_32 MAX_32 (0 + clamp MIN_32 MAX_32 (2 * (0 * 4096))))
    with 0.
  unfold extract_h. run_monad. apply store_zero, Hm.
Qed.

Lemma attdec_block_energy_zero nb x E g :
  all_zero x -> all_zero E ->
  all_zero (eval (attdec_block_energy nb x E) g).
Proof.
  intros Hx HE. unfold attdec_block_energy.
  apply for_up_invariant;
    [|cbn [basop_memset]; repeat apply store_zero; exact HE].
  intros j m g0 Hm. apply for_up_invariant; [|exact Hm].
  intros i m' g1 Hm'. run_monad. rewrite Hm', Hx.
  rewrite eval_L_mac by (try apply Word32_0; apply Word16_0).
  apply store_zero, Hm'.
Qed.

(** Re-scaling keeps an empty filter memory empty and the energy in
    32 bits. *)
Lemma attdec_rescale_zero_mem enc setup input isc g :
  attdec_filter_mem setup = (0, 0) -> Word32 (attdec_acc_energy setup) ->
  attdec_filter_mem (eval (attdec_rescale enc setup input isc) g) = (0, 0) /\
  Word32 (attdec_acc_energy (eval (attdec_rescale enc setup input isc) g)).
Proof.
  intros Hfm Hacc. unfold attdec_rescale. run_monad.
  match goal with
  | |- context [if ?c then _ else ret setup] => destruct c
  end; run_monad;
    cbn [attdec_filter_mem attdec_acc_energy set_attdec_scaling
         set_attdec_acc_energy set_attdec_filter_mem fst snd].
  - rewrite Hfm. cbn [fst snd]. rewrite !eval_shl_0. split; [reflexivity|].
    rewrite eval_L_shl by exact Hacc. apply clamp32_range.
  - split; assumption.
Qed.

(** Four silent blocks take any 32-bit energy below 2^23. *)
Lemma envelope_silent E acc :
  all_zero E -> acc <= MAX_32 -> attdec_envelope E acc 4 <= 8388607.
Proof.
  unfold MAX_32. intros HE Hacc. cbn [attdec_envelope]. rewrite !HE.
  rewrite !Z.shiftr_div_pow2 by lia. change (2 ^ 2) with 4.
  repeat match goal with
  | |- context [Z.max ?a 0] =>
      let m := fresh "m" in
      let Hm := fresh "Hm" in
      pose proof (Z.max_spec a 0) as Hm; set (m := Z.max a 0) in *;
      clearbody m
  end.
  Z.div_mod_to_equations. lia.
Qed.

(** So a silent frame leaves the detector of [silent_frame_state] with
    less than a quarter of the energy it stored before, for every
    implementation of the helpers and every input exponent. *)
Lemma silent_frame_energy_drop isc g :
  exists st',
    eval (attack_detector_fx silent_frame_state isc) g = Some st' /\
    attdec_acc_energy (st_setup st') <
      Z.shiftr (attdec_acc_energy (st_setup silent_frame_state)) 2.
Proof.
  change (Z.shiftr (attdec_acc_energy (st_setup silent_frame_state)) 2)
    with 268435456.
  unfold attack_detector_fx. run_monad.
  cbn [silent_frame_state st_enc st_setup st_input st_scratch
       attack_handling attdec_nblocks fs input_16k block_energy].
  change (negb (1 =? 0)) with true. cbv iota. run_monad.
  match goal with
  | |- context [attdec_rescale ?e ?s ?i isc] =>
      set (enc := e); set (setup := s); set (input := i)
  end.
  match goal with
  | |- context [eval (attdec_resample 32000 input ?ns isc ?n ?x) ?g'] =>
      destruct (attdec_resample_zero input ns isc n x g'
                  (fun _ => eq_refl) (fun _ => eq_refl)) as (r & Hr & Hr0);
      rewrite Hr
  end.
  run_monad. eexists. split; [reflexivity|].
  cbn [st_setup]. rewrite attdec_threshold_energy.
  cbn [attdec_acc_energy set_attdec_filter_mem attdec_nblocks enc].
  change (Z.to_nat 4) with 4%nat.
  match goal with
  | |- context [eval (attdec_rescale enc setup input isc) ?g'] =>
      destruct (attdec_rescale_zero_mem enc setup input isc g'
                  eq_refl ltac:(cbn; unfold Word32, MIN_32, MAX_32; lia))
        as [Hfm [_ Hhi]]
  end.
  eapply Z.le_lt_trans; [apply envelope_silent|lia].
  - apply attdec_block_energy_zero; [|intros j; reflexivity].
    apply attdec_filter_zero. rewrite Hfm. cbn [fst snd].
    repeat apply store_zero. exact Hr0.
  - exact Hhi.
Qed.

(** ** The call as a whole *)

(** With attack handling off the call returns the state it was given. *)
Lemma attack_detector_fx_disabled st isc g :
  attack_handling (st_setup st) = 0 ->
  eval (attack_detector_fx st isc) g = Some st.
Proof.
  intros Hoff. unfold attack_detector_fx. run_monad.
  rewrite Hoff. reflexivity.
Qed.

(** With attack handling on, a call that returns leaves [enc] and [input]
    alone and produces its [setup] by the threshold phase, run over the
    block energies it leaves in the scratch and started from the re-scaled
    state. *)
Lemma attack_detector_fx_enabled st isc g st' :
  attack_handling (st_setup st) <> 0 ->
  eval (attack_detector_fx st isc) g = Some st' ->
  st_enc st' = st_enc st /\ st_input st' = st_input st /\
  exists setup2 g2,
    st_setup st' =
      eval (attdec_threshold (st_enc st) setup2
              (block_energy (st_scratch st'))) g2 /\
    attdec_acc_energy setup2 = attdec_rescaled_energy st isc g /\
    same_config (st_setup st) setup2.
Proof.
  intros Hon. unfold attack_detector_fx. run_monad.
  destruct (attack_handling (st_setup st) =? 0) eqn:E; [lia|].
  cbn [negb]. run_monad.
  match goal with
  | |- context [match ?r with Some _ => _ | None => _ end] =>
      destruct r as [x|] eqn:Er
  end; run_monad; [|discriminate].
  intros H. injection H as <-. cbn [st_enc st_input st_setup st_scratch
                                    block_energy].
  split; [reflexivity|]. split; [reflexivity|].
  eexists. eexists. split; [reflexivity|].
  split; [reflexivity|].
  eapply same_config_trans; [apply attdec_rescale_config|].
  split; reflexivity.
Qed.

Lemma attack_detector_fx_returns st isc g :
  attack_handling (st_setup st) = 0 \/
  fs (st_enc st) = 32000 \/ fs (st_enc st) = 48000 ->
  exists st', eval (attack_detector_fx st isc) g = Some st'.
Proof.
  intros Hsup.
  destruct (Z.eq_dec (attack_handling (st_setup st)) 0) as [Hoff|Hon].
  { exists st. apply attack_detector_fx_disabled, Hoff. }
  destruct Hsup as [Hoff|Hfs]; [contradiction|].
  unfold attack_detector_fx. run_monad.
  destruct (attack_handling (st_setup st) =? 0) eqn:E; [lia|].
  cbn [negb]. run_monad.
  match goal with
  | |- context [eval (attdec_resample ?a ?b ?c ?d ?e ?f) ?g'] =>
      destruct (attdec_resample_supported a b c d e f g' Hfs) as [r Hr];
      rewrite Hr
  end.
  run_monad. eexists. reflexivity.
Qed.

End AttackDetectorFacts.

(* ================================================================== *)
(** * What the calls do to the globals

    The operators reach the globals through [BASOP_CHECK] only, and the
    attack detector through the operators and the helpers only: a
    relation that is reflexive, transitive and kept by [BASOP_CHECK] (and
    by the helpers) is kept by every call. *)

Section GlobalsFacts.
Context {build : Build}.
Variable R : Globals -> Globals -> Prop.
Hypothesis R_refl : forall g, R g g.
Hypothesis R_trans : forall g1 g2 g3, R g1 g2 -> R g2 g3 -> R g1 g3.
Hypothesis R_check : forall a b, keeps R (BASOP_CHECK a b).

Lemma keeps_ret {A} (a : A) : keeps R (ret a).
Proof. intros g. apply R_refl. Qed.

Lemma keeps_bind {A B} (m : M A) (k : A -> M B) :
  keeps R m -> (forall a, keeps R (k a)) -> keeps R (bind m k).
Proof.
  intros Hm Hk g. rewrite exec_bind.
  eapply R_trans; [apply Hm|apply Hk].
Qed.

Ltac keeps_step :=
  match goal with
  | |- keeps R (ret _) => apply keeps_ret
  | |- keeps R (BASOP_CHECK _ _) => apply R_check
  | |- keeps R (bind _ _) => apply keeps_bind; [|intros]
  | |- keeps R (if ?c then _ else _) => destruct c
  | |- keeps R (match ?p with (_, _) => _ end) => destruct p
  | |- keeps R (let _ := _ in _) => cbv zeta
  end.

Lemma keeps_extract_l x : keeps R (extract_l x).
Proof. unfold extract_l. repeat keeps_step. Qed.

Lemma keeps_extract_h x : keeps R (extract_h x).
Proof. unfold extract_h. repeat keeps_step. Qed.

Lemma keeps_saturate x : keeps R (saturate x).
Proof. unfold saturate. repeat keeps_step; apply keeps_extract_l. Qed.

Lemma keeps_add a b : keeps R (add a b).
Proof. unfold add. repeat keeps_step; apply keeps_saturate. Qed.

Lemma keeps_sub a b : keeps R (sub a b).
Proof. unfold sub. repeat keeps_step; apply keeps_saturate. Qed.

Lemma keeps_i_mult a b : keeps R (i_mult a b).
Proof. unfold i_mult. apply keeps_saturate. Qed.

Lemma keeps_shl_shr_fuel n :
  (forall a s, keeps R (shl_fuel n a s)) /\
  (forall a s, keeps R (shr_fuel n a s)).
Proof.
  induction n as [|n [IH1 IH2]]; split; intros a s;
    cbn [shl_fuel shr_fuel]; repeat keeps_step;
    first [apply IH1 | apply IH2 | apply keeps_extract_l].
Qed.

Lemma keeps_shl a s : keeps R (shl a s).
Proof. apply keeps_shl_shr_fuel. Qed.

Lemma keeps_shr a s : keeps R (shr a s).
Proof. apply keeps_shl_shr_fuel. Qed.

Lemma keeps_L_mult a b : keeps R (L_mult a b).
Proof. unfold L_mult. repeat keeps_step. Qed.

Lemma keeps_L_add a b : keeps R (L_add a b).
Proof. unfold L_add. repeat keeps_step. Qed.

Lemma keeps_L_sub a b : keeps R (L_sub a b).
Proof. unfold L_sub. repeat keeps_step. Qed.

Lemma keeps_L_mac c a b : keeps R (L_mac c a b).
Proof.
  unfold L_mac. repeat keeps_step;
    first [apply keeps_L_mult | apply keeps_L_add].
Qed.

Lemma keeps_L_msu c a b : keeps R (L_msu c a b).
Proof.
  unfold L_msu. repeat keeps_step;
    first [apply keeps_L_mult | apply keeps_L_sub].
Qed.

Lemma keeps_L_shl_L_shr_fuel n :
  (forall a s, keeps R (L_shl_fuel n a s)) /\
  (forall a s, keeps R (L_shr_fuel n a s)).
Proof.
  induction n as [|n [IH1 IH2]]; split; intros a s;
    cbn [L_shl_fuel L_shr_fuel]; repeat keeps_step;
    first [apply IH1 | apply IH2].
Qed.

Lemma keeps_L_shl a s : keeps R (L_shl a s).
Proof. apply keeps_L_shl_L_shr_fuel. Qed.

Lemma keeps_L_shr a s : keeps R (L_shr a s).
Proof. apply keeps_L_shl_L_shr_fuel. Qed.

Lemma keeps_L_mult0 a b : keeps R (L_mult0 a b).
Proof. unfold L_mult0. repeat keeps_step. Qed.

Lemma keeps_L_mac0 c a b : keeps R (L_mac0 c a b).
Proof.
  unfold L_mac0. repeat keeps_step;
    first [apply keeps_L_mult0 | apply keeps_L_add].
Qed.

Lemma keeps_L_msu0 c a b : keeps R (L_msu0 c a b).
Proof.
  unfold L_msu0. repeat keeps_step;
    first [apply keeps_L_mult0 | apply keeps_L_sub].
Qed.

Lemma keeps_mac_r c a b : keeps R (mac_r c a b).
Proof.
  unfold mac_r. repeat keeps_step;
    first [apply keeps_L_mac | apply keeps_L_add | apply keeps_extract_h].
Qed.

Lemma keeps_msu_r c a b : keeps R (msu_r c a b).
Proof.
  unfold msu_r. repeat keeps_step;
    first [apply keeps_L_msu | apply keeps_L_add | apply keeps_extract_h].
Qed.

Lemma keeps_run_call c : keeps R (run_call c).
Proof.
  destruct c; cbn [run_call];
    auto using keeps_add, keeps_sub, keeps_shl, keeps_L_shl, keeps_L_add,
      keeps_L_sub, keeps_L_mac, keeps_L_msu, keeps_L_mac0, keeps_L_msu0,
      keeps_mac_r, keeps_msu_r.
Qed.

Lemma keeps_for_up {S : Type} (body : Z -> S -> M S) :
  (forall i s, keeps R (body i s)) ->
  forall n i s, keeps R (for_up n i body s).
Proof.
  intros Hbody. induction n as [|n IH]; intros i s; cbn [for_up].
  - apply keeps_ret.
  - apply keeps_bind; [apply Hbody|intros; apply IH].
Qed.

Lemma keeps_for_down {S : Type} (body : Z -> S -> M S) :
  (forall i s, keeps R (body i s)) ->
  forall n s, keeps R (for_down n body s).
Proof.
  intros Hbody. induction n as [|n IH]; intros s; cbn [for_down].
  - apply keeps_ret.
  - apply keeps_bind; [apply Hbody|intros; apply IH].
Qed.

(** ** The attack detector *)

Context {util : BasopUtil}.
Hypothesis R_util : util_keeps R.

Ltac keeps_op :=
  first
    [ apply keeps_add | apply keeps_sub | apply keeps_shl | apply keeps_shr
    | apply keeps_L_shl | apply keeps_L_shr | apply keeps_L_mult
    | apply keeps_L_mac | apply keeps_L_msu | apply keeps_L_mult0
    | apply keeps_L_mac0 | apply keeps_extract_l | apply keeps_extract_h
    | apply keeps_i_mult
    | apply (proj1 R_util)
    | apply (proj1 (proj2 R_util))
    | apply (proj1 (proj2 (proj2 R_util)))
    | apply (proj2 (proj2 (proj2 R_util))) ].

Lemma keeps_attdec_rescale enc setup input isc :
  keeps R (attdec_rescale enc setup input isc).
Proof.
  unfold attdec_rescale, s_min.
  repeat first [keeps_step | keeps_op].
Qed.

Lemma keeps_attdec_resample fs_ input ns isc n x :
  keeps R (attdec_resample fs_ input ns isc n x).
Proof.
  unfold attdec_resample, ASSERT_abort.
  repeat first [keeps_step | keeps_op | apply keeps_for_up; intros].
Qed.

Lemma keeps_attdec_filter n x : keeps R (attdec_filter n x).
Proof.
  unfold attdec_filter. apply keeps_for_down. intros.
  repeat first [keeps_step | keeps_op].
Qed.

Lemma keeps_attdec_block_energy nb x E :
  keeps R (attdec_block_energy nb x E).
Proof.
  unfold attdec_block_energy. cbv zeta.
  apply keeps_for_up. intros. apply keeps_for_up. intros.
  repeat first [keeps_step | keeps_op].
Qed.

Lemma keeps_attdec_threshold_step E i sp :
  keeps R (attdec_threshold_step E i sp).
Proof.
  unfold attdec_threshold_step, L_max. destruct sp as [setup position].
  repeat first [keeps_step | keeps_op].
Qed.

Lemma keeps_attdec_threshold enc setup E :
  keeps R (attdec_threshold enc setup E).
Proof.
  unfold attdec_threshold. cbv zeta.
  apply keeps_bind; [apply keeps_for_up, keeps_attdec_threshold_step|].
  intros [s p]. apply keeps_ret.
Qed.

Lemma keeps_attack_detector_fx st isc :
  keeps R (attack_detector_fx st isc).
Proof.
  unfold attack_detector_fx. cbv zeta.
  apply keeps_bind; [apply keeps_i_mult|]. intros n.
  destruct (negb (attack_handling (st_setup st) =? 0));
    [|apply keeps_ret].
  apply keeps_bind; [apply keeps_attdec_rescale|]. intros setup.
  apply keeps_bind; [apply keeps_attdec_resample|]. intros [x|];
    [|apply keeps_ret].
  apply keeps_bind; [apply keeps_attdec_filter|]. intros y.
  apply keeps_bind; [apply keeps_attdec_block_energy|]. intros e.
  apply keeps_bind; [apply keeps_attdec_threshold|]. intros s.
  apply keeps_ret.
Qed.

End GlobalsFacts.

(** In an instrumented build [BASOP_CHECK] only counts. *)
Lemma same_flags_refl g : same_flags g g.
Proof. unfold same_flags. auto 10. Qed.

Lemma same_flags_trans g1 g2 g3 :
  same_flags g1 g2 -> same_flags g2 g3 -> same_flags g1 g3.
Proof.
  unfold same_flags.
  intros (A1 & A2 & A3 & A4 & A5 & A6) (B1 & B2 & B3 & B4 & B5 & B6).
  repeat split; congruence.
Qed.

Lemma same_flags_check {build : Build} :
  BASOP_OVERFLOW2 = true -> forall a b, keeps same_flags (BASOP_CHECK a b).
Proof.
  intros Hchk a b g. rewrite (exec_BASOP_CHECK Hchk).
  apply ticks_fields.
Qed.

(* ================================================================== *)
(** * The operators against the specification *)

(** C1.  For all 16-bit [a] and [b], [add(a,b)] is [a + b] clamped to
    -32768..32767 and [sub(a,b)] is [a - b] clamped to the same range; the
    sum and the difference are the exact integers. *)
Theorem add_sub_saturate {build : Build} (a b : Z) (g : Globals) :
  Word16 a -> Word16 b ->
  eval (add a b) g = clamp (-32768) 32767 (a + b) /\
  eval (sub a b) g = clamp (-32768) 32767 (a - b).
Proof.
  intros Ha Hb. split; [apply eval_add | apply eval_sub]; assumption.
Qed.

Lemma add_sub_saturate_witness :
  Word16 30000 /\ Word16 (-10000) /\
  eval (@add build_overflow2 30000 (-10000)) Globals_init =
    clamp (-32768) 32767 (30000 + -10000) /\
  eval (@sub build_overflow2 30000 (-10000)) Globals_init =
    clamp (-32768) 32767 (30000 - -10000).
Proof.
  assert (Ha : Word16 30000) by (unfold Word16, MIN_16, MAX_16; lia).
  assert (Hb : Word16 (-10000)) by (unfold Word16, MIN_16, MAX_16; lia).
  exact (conj Ha (conj Hb
    (@add_sub_saturate build_overflow2 30000 (-10000) Globals_init Ha Hb))).
Defined.

(** C2, as the code has it.  For every call of add, sub, shl, L_shl,
    L_add, L_sub or of the mac family (L_mac, L_msu, L_mac0, L_msu0, mac_r,
    msu_r) whose mathematical result does not fit the target width, the
    result is that value clamped to the representable extreme.  The
    overflow indicator the operator raises is a variable local to the call,
    handed by value to BASOP_CHECK; the operator itself never writes the
    global [Overflow] flag, so in every build whose BASOP_CHECK leaves the
    flag alone the flag keeps its value.  An instrumented build
    (BASOP_OVERFLOW2), where BASOP_CHECK is the function of basop32.c, is
    such a build: there the only change to the globals is one to three
    events counted in [overflow_count] (when warnings are enabled). *)
Theorem saturating_call_clamps {build : Build} (c : SatCall) (g : Globals) :
  legal_args c -> ~ fits_target c ->
  eval (run_call c) g = clamp (target_min c) (target_max c) (exact_result c) /\
  ((forall a b g0, Overflow (exec (BASOP_CHECK a b) g0) = Overflow g0) ->
   Overflow (exec (run_call c) g) = Overflow g) /\
  (BASOP_OVERFLOW2 = true ->
   Overflow (exec (run_call c) g) = Overflow g /\
   exists k, (1 <= k <= 3)%nat /\ exec (run_call c) g = ticks k g).
Proof.
  intros Hl Hn. split; [apply eval_run_call; assumption|]. split.
  - intros Hcheck.
    apply (keeps_run_call (fun g1 g2 => Overflow g2 = Overflow g1)).
    + reflexivity.
    + intros g1 g2 g3 H12 H23. congruence.
    + intros a b g0. apply Hcheck.
  - intros Hchk. destruct (exec_run_call Hchk c g Hl Hn) as (k & Hk & He).
    split; [|exists k; auto]. rewrite He. apply (ticks_Overflow k g).
Qed.

Lemma saturating_call_clamps_witness :
  legal_args (call_L_mac 1 (-32768) (-32768)) /\
  ~ fits_target (call_L_mac 1 (-32768) (-32768)) /\
  eval (@run_call build_overflow2 (call_L_mac 1 (-32768) (-32768)))
       Globals_init = MAX_32.
Proof.
  assert (Hl : legal_args (call_L_mac 1 (-32768) (-32768))).
  { cbn. unfold Word32, Word16, MIN_32, MAX_32, MIN_16, MAX_16. lia. }
  assert (Hn : ~ fits_target (call_L_mac 1 (-32768) (-32768))).
  { unfold fits_target. cbn. unfold MIN_32, MAX_32. lia. }
  exact (conj Hl (conj Hn
    (proj1 (@saturating_call_clamps build_overflow2
              (call_L_mac 1 (-32768) (-32768)) Globals_init Hl Hn)))).
Defined.

(** C2, as the claim states it, fails: 32767 + 1 does not fit 16 bits,
    [add] clamps it to 32767, and the global [Overflow] flag is still 0
    after the call (only [overflow_count] has moved). *)
Lemma add_overflow_leaves_flag_clear :
  ~ fits_target (call_add 32767 1) /\
  eval (@add build_overflow2 32767 1) Globals_init = 32767 /\
  Overflow (exec (@add build_overflow2 32767 1) Globals_init) = 0 /\
  overflow_count (exec (@add build_overflow2 32767 1) Globals_init) = 1.
Proof.
  split; [unfold fits_target; cbn; unfold MIN_16, MAX_16; lia|].
  repeat split; vm_compute; reflexivity.
Qed.

(** C3.  [div_s] aborts exactly when its precondition is violated
    ([var1 > var2], [var1 < 0], [var2 < 0] or [var2 = 0]), and returns a
    value for every pair with [0 <= var1 <= var2] and [var2 <> 0]. *)
Theorem div_s_abort_iff {build : Build} (var1 var2 : Z) (g : Globals) :
  (div_s var1 var2 g = None <->
   (var1 > var2 \/ var1 < 0 \/ var2 < 0 \/ var2 = 0)) /\
  (0 <= var1 <= var2 -> var2 <> 0 ->
   exists var_out g', div_s var1 var2 g = Some (var_out, g')).
Proof.
  split; [apply div_s_abort|]. intros Hr Hnz.
  destruct (div_s var1 var2 g) as [[v g']|] eqn:E.
  - exists v, g'. reflexivity.
  - apply div_s_abort in E. lia.
Qed.

(** C4.  [div_s(3,5)] returns a value within one unit of 19661, the
    quotient 3/5 * 32768 rounded to nearest: it returns 19660, the
    quotient rounded down. *)
Theorem div_s_3_5 {build : Build} (g : Globals) :
  exists r, option_map fst (div_s 3 5 g) = Some r /\
    Z.abs (r - 19661) <= 1 /\ round_q15 3 5 = 19661 /\ r = 19660.
Proof.
  exists 19660. split; [|repeat split; vm_compute; congruence].
  rewrite eval_div_s; [reflexivity| |lia].
  unfold Word16, MIN_16, MAX_16. lia.
Qed.

(** C5, as the code has it.  [norm_s(0) = 0], [norm_s(-1) = 15], and for
    every nonzero 16-bit [v] the value [shl(v, norm_s(v))] is normalised:
    in 16384..32767 (bit 14 set) for positive [v], in -32768..-16385 (sign
    bit set, bit 14 clear) for negative [v]. *)
Theorem norm_s_normalises {build : Build} (v : Z) (g g' : Globals) :
  Word16 v -> v <> 0 ->
  eval (norm_s 0) g = Some 0 /\
  eval (norm_s (-1)) g = Some 15 /\
  exists n, eval (norm_s v) g = Some n /\ 0 <= n <= 15 /\
    (0 < v -> 16384 <= eval (shl v n) g' <= 32767 /\
              Z.testbit (eval (shl v n) g') 14 = true) /\
    (v < 0 -> -32768 <= eval (shl v n) g' <= -16385 /\
              Z.testbit (eval (shl v n) g') 14 = false).
Proof.
  intros Hv Hnz. split; [apply eval_norm_s_0|].
  split; [apply eval_norm_s_m1|].
  destruct (Z.eq_dec v (-1)) as [->|Hm1].
  - exists 15. rewrite eval_norm_s_m1. split; [reflexivity|].
    split; [lia|]. rewrite eval_shl by exact Hv.
    split; [lia|]. intros _. vm_compute. repeat split; discriminate.
  - destruct (eval_norm_s v g Hv Hnz Hm1) as (n & Hn & Hr & Hb).
    exists n. split; [exact Hn|]. split; [lia|].
    rewrite eval_shl by exact Hv. rewrite Z.shiftl_mul_pow2 by lia.
    unfold Word16, MIN_16, MAX_16 in Hv.
    split; intros Hsign.
    + destruct (v <? 0) eqn:E; [lia|].
      rewrite clamp16_id by (unfold Word16, MIN_16, MAX_16; lia).
      split; [lia|]. apply testbit14_pos. lia.
    + destruct (v <? 0) eqn:E; [|lia].
      pose proof (next_multiple_fits (- v - 1) n Hr ltac:(lia) ltac:(lia))
        as Hfit.
      assert (Hp : 1 <= 2 ^ n).
      { change 1 with (2 ^ 0). apply Z.pow_le_mono_r; lia. }
      assert (Hrange : -32768 <= v * 2 ^ n <= -16385) by nia.
      rewrite clamp16_id by (unfold Word16, MIN_16, MAX_16; lia).
      split; [lia|]. apply testbit14_neg. lia.
Qed.

Lemma norm_s_normalises_witness :
  Word16 (-3) /\ -3 <> 0 /\
  exists n, eval (@norm_s build_overflow2 (-3)) Globals_init = Some n /\
    0 <= n <= 15 /\
    (-3 < 0 ->
     -32768 <= eval (@shl build_overflow2 (-3) n) Globals_init <= -16385 /\
     Z.testbit (eval (@shl build_overflow2 (-3) n) Globals_init) 14 = false).
Proof.
  assert (Hv : Word16 (-3)) by (unfold Word16, MIN_16, MAX_16; lia).
  assert (Hnz : -3 <> 0) by lia.
  split; [exact Hv|]. split; [exact Hnz|].
  destruct (@norm_s_normalises build_overflow2 (-3) Globals_init
              Globals_init Hv Hnz) as (_ & _ & n & Hn & Hr & _ & Hneg).
  exists n. split; [exact Hn|]. split; [exact Hr|exact Hneg].
Defined.

(** C5, as the claim states it, fails for negative values: for [v = -1],
    [norm_s] gives 15 and [shl(-1, 15) = -32768], whose bit 14 is clear. *)
Lemma norm_s_negative_bit14_clear :
  Word16 (-1) /\ -1 <> 0 /\
  eval (@norm_s build_overflow2 (-1)) Globals_init = Some 15 /\
  eval (@shl build_overflow2 (-1) 15) Globals_init = -32768 /\
  Z.testbit (eval (@shl build_overflow2 (-1) 15) Globals_init) 14 = false.
Proof.
  split; [unfold Word16, MIN_16, MAX_16; lia|].
  split; [lia|]. repeat split; vm_compute; reflexivity.
Qed.

(** C6.  For every 16-bit [a] and every count [s] in -16..16,
    [shl(a, -s) = shr(a, s)] and [shr(a, -s) = shl(a, s)]. *)
Theorem shl_shr_symmetry {build : Build} (a s : Z) (g g' : Globals) :
  Word16 a -> -16 <= s <= 16 ->
  eval (shl a (- s)) g = eval (shr a s) g' /\
  eval (shr a (- s)) g = eval (shl a s) g'.
Proof.
  intros Ha Hs. rewrite !eval_shl, !eval_shr by exact Ha.
  rewrite Z.shiftl_opp_r, Z.shiftr_opp_r. split; reflexivity.
Qed.

Lemma shl_shr_symmetry_witness :
  Word16 (-12345) /\ -16 <= 3 <= 16 /\
  eval (@shl build_overflow2 (-12345) (- 3)) Globals_init =
    eval (@shr build_overflow2 (-12345) 3) Globals_init /\
  eval (@shr build_overflow2 (-12345) (- 3)) Globals_init =
    eval (@shl build_overflow2 (-12345) 3) Globals_init.
Proof.
  assert (Ha : Word16 (-12345)) by (unfold Word16, MIN_16, MAX_16; lia).
  assert (Hs : -16 <= 3 <= 16) by lia.
  exact (conj Ha (conj Hs
    (@shl_shr_symmetry build_overflow2 (-12345) 3 Globals_init Globals_init
       Ha Hs))).
Defined.

(** C9.  For 16-bit inputs with [0 <= var1 < var2], [div_s] returns
    [var1 * 32768 / var2] rounded down, and none of the [add] and [L_sub]
    calls of its loop saturates: entering each of the 15 iterations from
    the loop state [(var_out, L_num)], the sum [var_out' + 1] and the
    difference [L_num' - L_denom] of the shifted values are representable;
    and in an instrumented build, where every saturation is an event
    handed to BASOP_CHECK, the call returns the globals exactly as it
    found them. *)
Theorem div_s_truncated_quotient {build : Build} (var1 var2 : Z) (g : Globals) :
  Word16 var1 -> Word16 var2 -> 0 <= var1 < var2 ->
  option_map fst (div_s var1 var2 g) = Some (var1 * 32768 / var2) /\
  (forall k g0, (k < 15)%nat ->
   let var_out := fst (eval (div_s_loop k 0 var1 var2) g0) in
   let L_num := snd (eval (div_s_loop k 0 var1 var2) g0) in
   Word16 (cast16 (Z.shiftl var_out 1) + 1) /\
   Word32 (cast32 (Z.shiftl L_num 1) - var2)) /\
  (BASOP_OVERFLOW2 = true ->
   div_s var1 var2 g = Some (var1 * 32768 / var2, g)).
Proof.
  intros H1 H2 Hlt. split; [apply eval_div_s; assumption|]. split.
  - intros k g0 Hk. apply div_s_loop_operands_fit; assumption.
  - intros Hchk. apply div_s_run; assumption.
Qed.

Lemma div_s_truncated_quotient_witness :
  Word16 3 /\ Word16 5 /\ 0 <= 3 < 5 /\
  option_map fst (@div_s build_overflow2 3 5 Globals_init) =
    Some (3 * 32768 / 5).
Proof.
  assert (H1 : Word16 3) by (unfold Word16, MIN_16, MAX_16; lia).
  assert (H2 : Word16 5) by (unfold Word16, MIN_16, MAX_16; lia).
  assert (Hlt : 0 <= 3 < 5) by lia.
  exact (conj H1 (conj H2 (conj Hlt
    (proj1 (@div_s_truncated_quotient build_overflow2 3 5 Globals_init
              H1 H2 Hlt))))).
Defined.

(* ================================================================== *)
(** * The attack detector against the specification *)

(** C7, as the code has it.  For every call with attack handling enabled,
    a supported sampling rate and one to four blocks, the accumulated
    energy stored afterwards is [max (prev >> 2) E_last], where [E_last] is
    the raw energy of the last compared block and [prev] is the running
    energy just before that block is compared: the stored energy of the
    previous call, re-scaled to the new exponent, and then taken through
    the earlier blocks of this call.  So it is at least [prev >> 2] and at
    least [E_last]. *)
Theorem attdec_energy_envelope {build : Build} {util : BasopUtil}
  (st : State) (input_scaling : Z) (g : Globals) :
  attack_handling (st_setup st) <> 0 ->
  fs (st_enc st) = 32000 \/ fs (st_enc st) = 48000 ->
  1 <= attdec_nblocks (st_enc st) <= 4 ->
  exists st', eval (attack_detector_fx st input_scaling) g = Some st' /\
    let E := block_energy (st_scratch st') in
    let last := attdec_nblocks (st_enc st) - 1 in
    let prev :=
      attdec_envelope E (attdec_rescaled_energy st input_scaling g)
        (Z.to_nat last) in
    attdec_acc_energy (st_setup st') = Z.max (Z.shiftr prev 2) (E last) /\
    Z.shiftr prev 2 <= attdec_acc_energy (st_setup st') /\
    E last <= attdec_acc_energy (st_setup st').
Proof.
  intros Hon Hfs Hnb.
  destruct (attack_detector_fx_returns st input_scaling g
              (or_intror Hfs)) as [st' Hst'].
  exists st'. split; [exact Hst'|].
  destruct (attack_detector_fx_enabled st input_scaling g st' Hon Hst')
    as (_ & _ & setup2 & g2 & Hsetup & Hacc & _).
  cbv zeta. rewrite Hsetup, attdec_threshold_energy, Hacc.
  replace (Z.to_nat (attdec_nblocks (st_enc st)))
    with (S (Z.to_nat (attdec_nblocks (st_enc st) - 1))) by lia.
  cbn [attdec_envelope]. rewrite Z2Nat.id by lia.
  split; [reflexivity|]. split; [apply Z.le_max_l | apply Z.le_max_r].
Qed.

Lemma attdec_energy_envelope_witness :
  attack_handling (st_setup silent_frame_state) <> 0 /\
  (fs (st_enc silent_frame_state) = 32000 \/
   fs (st_enc silent_frame_state) = 48000) /\
  1 <= attdec_nblocks (st_enc silent_frame_state) <= 4 /\
  exists st',
    eval (@attack_detector_fx build_overflow2 example_util
            silent_frame_state 0) Globals_init = Some st' /\
    block_energy (st_scratch st') 3 <= attdec_acc_energy (st_setup st').
Proof.
  assert (Hon : attack_handling (st_setup silent_frame_state) <> 0)
    by (cbn; lia).
  assert (Hfs : fs (st_enc silent_frame_state) = 32000 \/
                fs (st_enc silent_frame_state) = 48000)
    by (left; reflexivity).
  assert (Hnb : 1 <= attdec_nblocks (st_enc silent_frame_state) <= 4)
    by (cbn; lia).
  split; [exact Hon|]. split; [exact Hfs|]. split; [exact Hnb|].
  destruct (@attdec_energy_envelope build_overflow2 example_util
              silent_frame_state 0 Globals_init Hon Hfs Hnb)
    as (st' & Hst' & _ & _ & Hlast).
  exists st'. split; [exact Hst'|exact Hlast].
Defined.

(** C7, as the claim states it, fails from one call to the next: a
    silent frame takes the stored energy 2^30 through the re-scaling and
    four blocks, each of which quarters it, and leaves 2^18, far below the
    previously stored energy shifted right by 2 (2^28).  By
    [silent_frame_energy_drop] the outcome is below 2^28 for every
    implementation of the helpers. *)
Lemma attdec_energy_below_previous_quarter :
  option_map (fun st' => attdec_acc_energy (st_setup st'))
    (eval (@attack_detector_fx build_overflow2 example_util
             silent_frame_state 0) Globals_init) = Some 262144 /\
  attdec_acc_energy (st_setup silent_frame_state) = 1073741824 /\
  262144 < Z.shiftr (attdec_acc_energy (st_setup silent_frame_state)) 2.
Proof. repeat split; vm_compute; reflexivity. Qed.

(** C8.  With the attack-handling flag off the call is a no-op: it returns
    the state it was given, so the scaling, the filter memory, the
    accumulated energy, the detected flag and the position are all as
    before. *)
Theorem attack_detector_disabled_noop {build : Build} {util : BasopUtil}
  (st : State) (input_scaling : Z) (g : Globals) :
  attack_handling (st_setup st) = 0 ->
  eval (attack_detector_fx st input_scaling) g = Some st.
Proof. apply attack_detector_fx_disabled. Qed.

Lemma attack_detector_disabled_noop_witness :
  attack_handling (st_setup disabled_state) = 0 /\
  eval (@attack_detector_fx build_overflow2 example_util disabled_state 5)
       Globals_init = Some disabled_state.
Proof.
  assert (Hoff : attack_handling (st_setup disabled_state) = 0)
    by reflexivity.
  exact (conj Hoff
    (@attack_detector_disabled_noop build_overflow2 example_util
       disabled_state 5 Globals_init Hoff)).
Defined.

(** C10, as the code has it.  For zero to four blocks: of what the call
    reaches through its arguments, it never changes the input frame nor any
    member of the encoder configuration, and in the setup it changes
    nothing but the five attack-detector fields (scaling, filter memory,
    accumulated energy, detected, position); the rest of what it writes
    there is scratch.  The call returns whenever attack handling is off or
    the sampling rate is supported.  Outside its arguments it reaches the
    globals of basop32.c, through BASOP_CHECK and the helpers only: in an
    instrumented build (BASOP_OVERFLOW2), with helpers that leave the
    flags alone, the globals after the call differ from those before at
    most in [overflow_count]. *)
Theorem attack_detector_frame {build : Build} {util : BasopUtil}
  (st : State) (input_scaling : Z) (g : Globals) :
  0 <= attdec_nblocks (st_enc st) <= 4 ->
  (attack_handling (st_setup st) = 0 \/
   fs (st_enc st) = 32000 \/ fs (st_enc st) = 48000 ->
   exists st', eval (attack_detector_fx st input_scaling) g = Some st') /\
  (forall st', eval (attack_detector_fx st input_scaling) g = Some st' ->
   st_enc st' = st_enc st /\ st_input st' = st_input st /\
   same_config (st_setup st) (st_setup st')) /\
  (BASOP_OVERFLOW2 = true -> util_keeps same_flags ->
   same_flags g (exec (attack_detector_fx st input_scaling) g)).
Proof.
  intros _. split; [apply attack_detector_fx_returns|]. split.
  - intros st' Hst'.
    destruct (Z.eq_dec (attack_handling (st_setup st)) 0) as [Hoff|Hon].
    + rewrite attack_detector_fx_disabled in Hst' by exact Hoff.
      injection Hst' as <-. repeat split; reflexivity.
    + destruct (attack_detector_fx_enabled st input_scaling g st' Hon Hst')
        as (He & Hi & setup2 & g2 & Hsetup & _ & Hcfg).
      split; [exact He|]. split; [exact Hi|].
      rewrite Hsetup. eapply same_config_trans; [exact Hcfg|].
      apply attdec_threshold_config.
  - intros Hchk Hutil.
    apply (keeps_attack_detector_fx same_flags same_flags_refl
             same_flags_trans (same_flags_check Hchk) Hutil).
Qed.

Lemma attack_detector_frame_witness :
  0 <= attdec_nblocks (st_enc loud_frame_state) <= 4 /\
  same_flags Globals_init
    (exec (@attack_detector_fx build_overflow2 example_util
             loud_frame_state 0) Globals_init).
Proof.
  assert (Hn : 0 <= attdec_nblocks (st_enc loud_frame_state) <= 4)
    by (cbn; lia).
  split; [exact Hn|].
  refine (proj2 (proj2 (@attack_detector_frame build_overflow2 example_util
                          loud_frame_state 0 Globals_init Hn)) eq_refl _).
  repeat split; intros; intro g0; apply same_flags_refl.
Defined.

(** C10, as the claim states it, fails: the five fields and the scratch are
    not the only locations the call changes.  In an instrumented build the
    loud frame of [loud_frame_state] saturates the block energies, and the
    call leaves the global [overflow_count] at 95, up from 0. *)
Lemma attack_detector_counts_overflows :
  attack_handling (st_setup loud_frame_state) <> 0 /\
  overflow_count Globals_init = 0 /\
  overflow_count
    (exec (@attack_detector_fx build_overflow2 example_util
             loud_frame_state 0) Globals_init) = 95.
Proof.
  split; [cbn; lia|]. split; vm_compute; reflexivity.
Qed.

(* ================================================================== *)
(** * Further properties of the basic operators *)

Section MoreOperatorFacts.
Context {build : Build}.

(** ** Negation and absolute value *)

Lemma eval_negate a g :
  Word16 a -> eval (negate a) g = clamp MIN_16 MAX_16 (- a).
Proof.
  unfold Word16, MIN_16, MAX_16. intros Ha. unfold negate. run_monad.
  unfold clamp, MIN_16, MAX_16.
  destruct (a =? -32768) eqn:E.
  - assert (a = -32768) by lia. subst a. reflexivity.
  - rewrite cast16_id by (unfold Word16, MIN_16, MAX_16; lia).
    destruct (- a <? -32768) eqn:E1; destruct (32767 <? - a) eqn:E2; lia.
Qed.

Lemma eval_abs_s a g :
  Word16 a -> eval (abs_s a) g = clamp MIN_16 MAX_16 (Z.abs a).
Proof.
  unfold Word16, MIN_16, MAX_16. intros Ha. unfold abs_s.
  change (cast16 MIN_16) with (-32768). unfold clamp, MIN_16, MAX_16.
  destruct (a =? -32768) eqn:E.
  - run_monad. assert (a = -32768) by lia. subst a. reflexivity.
  - destruct (a <? 0) eqn:Eneg; run_monad.
    + rewrite cast16_id by (unfold Word16, MIN_16, MAX_16; lia).
      destruct (Z.abs a <? -32768) eqn:E1;
        destruct (32767 <? Z.abs a) eqn:E2; lia.
    + destruct (Z.abs a <? -32768) eqn:E1;
        destruct (32767 <? Z.abs a) eqn:E2; lia.
Qed.

Lemma eval_L_negate a g :
  Word32 a -> eval (L_negate a) g = clamp MIN_32 MAX_32 (- a).
Proof.
  unfold Word32, MIN_32, MAX_32. intros Ha. unfold L_negate. run_monad.
  rewrite clamp32_cases. unfold MIN_32, MAX_32.
  destruct (a =? -2147483648) eqn:E.
  - assert (a = -2147483648) by lia. subst a. reflexivity.
  - rewrite cast32_id by (unfold Word32, MIN_32, MAX_32; lia).
    destruct (- a <? -2147483648) eqn:E1;
      destruct (0x7fffffff <? - a) eqn:E2; lia.
Qed.

Lemma eval_L_abs a g :
  Word32 a -> eval (L_abs a) g = clamp MIN_32 MAX_32 (Z.abs a).
Proof.
  unfold Word32, MIN_32, MAX_32. intros Ha. unfold L_abs.
  rewrite clamp32_cases. unfold MIN_32, MAX_32.
  destruct (a =? -2147483648) eqn:E.
  - run_monad. assert (a = -2147483648) by lia. subst a. reflexivity.
  - destruct (a <? 0) eqn:Eneg; run_monad.
    + rewrite cast32_id by (unfold Word32, MIN_32, MAX_32; lia).
      destruct (Z.abs a <? -2147483648) eqn:E1;
        destruct (0x7fffffff <? Z.abs a) eqn:E2; lia.
    + destruct (Z.abs a <? -2147483648) eqn:E1;
        destruct (0x7fffffff <? Z.abs a) eqn:E2; lia.
Qed.

(** ** The fractional products *)

(** [x & 0xffff8000] followed by [>> 15] is just [>> 15]. *)
Lemma mask_shift15 p :
  Z.shiftr (Z.land p (cast32 0xffff8000)) 15 = p / 32768.
Proof.
  change (cast32 0xffff8000) with (Z.lnot (Z.ones 15)).
  rewrite <- Z.ldiff_land, Z.ldiff_ones_r by lia.
  rewrite Z.shiftr_shiftl_l by lia. change (15 - 15) with 0.
  rewrite Z.shiftl_0_r, Z.shiftr_div_pow2 by lia. reflexivity.
Qed.

(** The sign extension from bit 16 does nothing to a quotient that is
    already a sign-extended 17-bit value. *)
Lemma sign_extend17 q :
  -65536 <= q < 65536 ->
  (if negb (Z.land q 0x00010000 =? 0)
   then Z.lor q (cast32 0xffff0000) else q) = q.
Proof.
  intros Hq. change (cast32 0xffff0000) with (Z.lnot (Z.ones 16)).
  destruct (Z.land q 0x00010000 =? 0) eqn:E; [reflexivity|]. cbn [negb].
  destruct (Z.lt_ge_cases q 0) as [Hneg|Hpos].
  - apply Z.bits_inj'. intros n Hn.
    rewrite Z.lor_spec, Z.lnot_spec, Z.testbit_ones by lia.
    destruct (0 <=? n) eqn:E0; [|lia].
    destruct (n <? 16) eqn:E1; cbn [andb negb]; [apply orb_false_r|].
    rewrite orb_true_r. symmetry.
    apply Z.bits_above_log2_neg; [lia|].
    destruct (Z.eq_dec (Z.pred (- q)) 0) as [->|Hne]; [cbn; lia|].
    apply Z.lt_le_trans with 16; [|lia]. apply Z.log2_lt_pow2; lia.
  - exfalso. apply Z.eqb_neq in E. apply E.
    apply Z.bits_inj'. intros n Hn.
    rewrite Z.land_spec, Z.testbit_0_l.
    change 0x00010000 with (2 ^ 16). rewrite Z.pow2_bits_eqb by lia.
    destruct (16 =? n) eqn:E16; [|apply andb_false_r].
    assert (n = 16) by lia. subst n. rewrite andb_true_r.
    destruct (Z.eq_dec q 0) as [->|Hne]; [apply Z.testbit_0_l|].
    apply Z.bits_above_log2; [lia|]. apply Z.log2_lt_pow2; lia.
Qed.

Lemma product_range a b :
  Word16 a -> Word16 b -> -1073709056 <= a * b <= 1073741824.
Proof. unfold Word16, MIN_16, MAX_16. intros; nia. Qed.

Lemma eval_mult a b g :
  Word16 a -> Word16 b ->
  eval (mult a b) g = clamp MIN_16 MAX_16 (a * b / 32768).
Proof.
  intros Ha Hb. pose proof (product_range a b Ha Hb) as Hp.
  unfold mult. run_monad.
  rewrite cast32_id by (unfold Word32, MIN_32, MAX_32; lia).
  rewrite mask_shift15.
  rewrite sign_extend17 by (Z.div_mod_to_equations; lia).
  apply eval_saturate.
Qed.

Lemma eval_mult_r a b g :
  Word16 a -> Word16 b ->
  eval (mult_r a b) g = clamp MIN_16 MAX_16 ((a * b + 16384) / 32768).
Proof.
  intros Ha Hb. pose proof (product_range a b Ha Hb) as Hp.
  unfold mult_r. run_monad.
  rewrite (cast32_id (a * b)) by (unfold Word32, MIN_32, MAX_32; lia).
  rewrite cast32_id by (unfold Word32, MIN_32, MAX_32; lia).
  rewrite mask_shift15.
  rewrite sign_extend17 by (Z.div_mod_to_equations; lia).
  apply eval_saturate.
Qed.

Lemma eval_round_fx x g :
  Word32 x ->
  eval (round_fx x) g =
  Z.shiftr (clamp MIN_32 MAX_32 (x + 32768)) 16.
Proof.
  intros Hx. unfold round_fx. run_monad.
  rewrite eval_L_add by (auto using Word32_0x8000).
  rewrite eval_extract_h. apply cast16_id, shiftr16_Word16, clamp32_range.
Qed.

Lemma eval_L_deposit_h v g :
  Word16 v -> eval (L_deposit_h v) g = v * 65536.
Proof.
  unfold Word16, MIN_16, MAX_16. intros Hv. unfold L_deposit_h. run_monad.
  rewrite Z.shiftl_mul_pow2 by lia. change (2 ^ 16) with 65536.
  apply cast32_id. unfold Word32, MIN_32, MAX_32. lia.
Qed.

End MoreOperatorFacts.

(* ================================================================== *)
(** * Further properties against the source *)

(** X1.  [negate] and [abs_s] are the exact negation and absolute value
    clamped to 16 bits: only -32768 saturates (to 32767), [abs_s] never
    returns a negative value, and negating twice gives the value back
    except for -32768. *)
Theorem negate_abs_s_saturate {build : Build} (a : Z) (g g' : Globals) :
  Word16 a ->
  eval (negate a) g = (if a =? -32768 then 32767 else - a) /\
  eval (abs_s a) g = (if a =? -32768 then 32767 else Z.abs a) /\
  0 <= eval (abs_s a) g <= 32767 /\
  (a <> -32768 -> eval (negate (eval (negate a) g)) g' = a).
Proof.
  intros Ha. rewrite eval_negate, eval_abs_s by exact Ha.
  unfold Word16, MIN_16, MAX_16 in Ha.
  assert (Hn : clamp MIN_16 MAX_16 (- a) = if a =? -32768 then 32767 else - a).
  { unfold clamp, MIN_16, MAX_16.
    destruct (a =? -32768) eqn:E; destruct (- a <? -32768) eqn:E1;
      destruct (32767 <? - a) eqn:E2; lia. }
  assert (Habs : clamp MIN_16 MAX_16 (Z.abs a) =
                 if a =? -32768 then 32767 else Z.abs a).
  { unfold clamp, MIN_16, MAX_16.
    destruct (a =? -32768) eqn:E; destruct (Z.abs a <? -32768) eqn:E1;
      destruct (32767 <? Z.abs a) eqn:E2; lia. }
  rewrite Hn, Habs. split; [reflexivity|]. split; [reflexivity|]. split.
  - destruct (a =? -32768) eqn:E; lia.
  - intros Hne. destruct (a =? -32768) eqn:E; [lia|].
    rewrite eval_negate by (unfold Word16, MIN_16, MAX_16; lia).
    unfold clamp, MIN_16, MAX_16.
    destruct (- - a <? -32768) eqn:E1; destruct (32767 <? - - a) eqn:E2; lia.
Qed.

Lemma negate_abs_s_saturate_witness :
  Word16 (-32768) /\
  eval (@negate build_overflow2 (-32768)) Globals_init = 32767 /\
  eval (@abs_s build_overflow2 (-32768)) Globals_init = 32767.
Proof.
  assert (Ha : Word16 (-32768)) by (unfold Word16, MIN_16, MAX_16; lia).
  destruct (@negate_abs_s_saturate build_overflow2 (-32768) Globals_init
              Globals_init Ha) as (H1 & H2 & _).
  exact (conj Ha (conj H1 H2)).
Defined.

(** X2.  [L_negate] and [L_abs] are the exact negation and absolute value
    clamped to 32 bits: only -2^31 saturates (to 2^31 - 1), and [L_abs]
    never returns a negative value. *)
Theorem L_negate_L_abs_saturate {build : Build} (a : Z) (g : Globals) :
  Word32 a ->
  eval (L_negate a) g = (if a =? MIN_32 then MAX_32 else - a) /\
  eval (L_abs a) g = (if a =? MIN_32 then MAX_32 else Z.abs a) /\
  0 <= eval (L_abs a) g <= MAX_32.
Proof.
  intros Ha. rewrite eval_L_negate, eval_L_abs by exact Ha.
  rewrite !clamp32_cases. unfold Word32, MIN_32, MAX_32 in *.
  destruct (a =? -2147483648) eqn:E;
    destruct (- a <? -2147483648) eqn:E1;
    destruct (0x7fffffff <? - a) eqn:E2;
    destruct (Z.abs a <? -2147483648) eqn:E3;
    destruct (0x7fffffff <? Z.abs a) eqn:E4; lia.
Qed.

Lemma L_negate_L_abs_saturate_witness :
  Word32 MIN_32 /\
  eval (@L_negate build_overflow2 MIN_32) Globals_init = MAX_32 /\
  eval (@L_abs build_overflow2 MIN_32) Globals_init = MAX_32.
Proof.
  assert (Ha : Word32 MIN_32) by (unfold Word32, MIN_32, MAX_32; lia).
  destruct (@L_negate_L_abs_saturate build_overflow2 MIN_32 Globals_init Ha)
    as (H1 & H2 & _).
  exact (conj Ha (conj H1 H2)).
Defined.

Lemma product_not_extreme a b :
  Word16 a -> Word16 b -> (a =? -32768) && (b =? -32768) = false ->
  -1073709056 <= a * b <= 1073709056.
Proof.
  unfold Word16, MIN_16, MAX_16. intros Ha Hb Hne.
  destruct (a =? -32768) eqn:Ea; destruct (b =? -32768) eqn:Eb;
    cbn [andb] in Hne; try discriminate; nia.
Qed.

(** X3.  [mult] is the Q15 product [a * b / 2^15] rounded down; it
    saturates only for (-32768, -32768), which gives 32767; and it is the
    high half of [L_mult]. *)
Theorem mult_q15 {build : Build} (a b : Z) (g g1 g2 : Globals) :
  Word16 a -> Word16 b ->
  eval (mult a b) g =
    (if (a =? -32768) && (b =? -32768) then 32767 else a * b / 32768) /\
  eval (mult a b) g = eval (extract_h (eval (L_mult a b) g1)) g2.
Proof.
  intros Ha Hb. rewrite eval_mult, eval_extract_h, eval_L_mult by auto.
  destruct ((a =? -32768) && (b =? -32768)) eqn:E.
  - apply andb_true_iff in E. destruct E as [Ea Eb].
    assert (a = -32768) by lia. assert (b = -32768) by lia. subst a b.
    split; reflexivity.
  - pose proof (product_not_extreme a b Ha Hb E) as Hp.
    assert (Hq : -32767 <= a * b / 32768 <= 32767)
      by (Z.div_mod_to_equations; lia).
    rewrite clamp16_id by (unfold Word16, MIN_16, MAX_16; lia).
    split; [reflexivity|].
    rewrite clamp32_id by (unfold Word32, MIN_32, MAX_32; lia).
    rewrite Z.shiftr_div_pow2 by lia. change (2 ^ 16) with (2 * 32768).
    rewrite Z.div_mul_cancel_l by lia.
    symmetry. apply cast16_id. unfold Word16, MIN_16, MAX_16. lia.
Qed.

Lemma mult_q15_witness :
  Word16 (-3) /\ Word16 5 /\
  eval (@mult build_overflow2 (-3) 5) Globals_init = -3 * 5 / 32768.
Proof.
  assert (Ha : Word16 (-3)) by (unfold Word16, MIN_16, MAX_16; lia).
  assert (Hb : Word16 5) by (unfold Word16, MIN_16, MAX_16; lia).
  exact (conj Ha (conj Hb
    (proj1 (@mult_q15 build_overflow2 (-3) 5 Globals_init Globals_init
              Globals_init Ha Hb)))).
Defined.

(** X4.  [mult_r] is the Q15 product rounded to nearest,
    [(a * b + 2^14) / 2^15] rounded down; it saturates only for
    (-32768, -32768); and it is [round_fx] of [L_mult]. *)
Theorem mult_r_q15 {build : Build} (a b : Z) (g g1 g2 : Globals) :
  Word16 a -> Word16 b ->
  eval (mult_r a b) g =
    (if (a =? -32768) && (b =? -32768) then 32767
     else (a * b + 16384) / 32768) /\
  eval (mult_r a b) g = eval (round_fx (eval (L_mult a b) g1)) g2.
Proof.
  intros Ha Hb. rewrite eval_mult_r by auto.
  rewrite eval_round_fx by (rewrite eval_L_mult by auto; apply clamp32_range).
  rewrite eval_L_mult by auto.
  destruct ((a =? -32768) && (b =? -32768)) eqn:E.
  - apply andb_true_iff in E. destruct E as [Ea Eb].
    assert (a = -32768) by lia. assert (b = -32768) by lia. subst a b.
    split; reflexivity.
  - pose proof (product_not_extreme a b Ha Hb E) as Hp.
    assert (Hq : -32767 <= (a * b + 16384) / 32768 <= 32767)
      by (Z.div_mod_to_equations; lia).
    rewrite clamp16_id by (unfold Word16, MIN_16, MAX_16; lia).
    split; [reflexivity|].
    rewrite (clamp32_id (2 * (a * b)))
      by (unfold Word32, MIN_32, MAX_32; lia).
    rewrite clamp32_id by (unfold Word32, MIN_32, MAX_32; lia).
    rewrite Z.shiftr_div_pow2 by lia. change (2 ^ 16) with (2 * 32768).
    replace (2 * (a * b) + 32768) with (2 * (a * b + 16384)) by lia.
    rewrite Z.div_mul_cancel_l by lia. reflexivity.
Qed.

Lemma mult_r_q15_witness :
  Word16 20000 /\ Word16 20001 /\
  eval (@mult_r build_overflow2 20000 20001) Globals_init =
    (20000 * 20001 + 16384) / 32768.
Proof.
  assert (Ha : Word16 20000) by (unfold Word16, MIN_16, MAX_16; lia).
  assert (Hb : Word16 20001) by (unfold Word16, MIN_16, MAX_16; lia).
  exact (conj Ha (conj Hb
    (proj1 (@mult_r_q15 build_overflow2 20000 20001 Globals_init
              Globals_init Globals_init Ha Hb)))).
Defined.

(** X5.  [L_mult] is twice the product, exactly; the one pair whose
    doubled product does not fit, (-32768, -32768), gives 2^31 - 1. *)
Theorem L_mult_q31 {build : Build} (a b : Z) (g : Globals) :
  Word16 a -> Word16 b ->
  eval (L_mult a b) g =
    (if (a =? -32768) && (b =? -32768) then MAX_32 else 2 * (a * b)).
Proof.
  intros Ha Hb. rewrite eval_L_mult by auto.
  destruct ((a =? -32768) && (b =? -32768)) eqn:E.
  - apply andb_true_iff in E. destruct E as [Ea Eb].
    assert (a = -32768) by lia. assert (b = -32768) by lia. subst a b.
    reflexivity.
  - pose proof (product_not_extreme a b Ha Hb E) as Hp.
    apply clamp32_id. unfold Word32, MIN_32, MAX_32. lia.
Qed.

Lemma L_mult_q31_witness :
  Word16 (-32768) /\ Word16 32767 /\
  eval (@L_mult build_overflow2 (-32768) 32767) Globals_init =
    2 * (-32768 * 32767).
Proof.
  assert (Ha : Word16 (-32768)) by (unfold Word16, MIN_16, MAX_16; lia).
  assert (Hb : Word16 32767) by (unfold Word16, MIN_16, MAX_16; lia).
  exact (conj Ha (conj Hb
    (@L_mult_q31 build_overflow2 (-32768) 32767 Globals_init Ha Hb))).
Defined.

(** X6.  Depositing a 16-bit value into either half of a 32-bit word and
    extracting that half gives the value back; the low half of
    [L_deposit_h] is zero. *)
Theorem deposit_extract_round_trip {build : Build} (v : Z) (g g' : Globals) :
  Word16 v ->
  eval (extract_h (eval (L_deposit_h v) g)) g' = v /\
  eval (extract_l (eval (L_deposit_l v) g)) g' = v /\
  eval (extract_l (eval (L_deposit_h v) g)) g' = 0.
Proof.
  intros Hv. rewrite eval_extract_h, !eval_extract_l.
  rewrite eval_L_deposit_h, eval_L_deposit_l by exact Hv.
  rewrite Z.shiftr_div_pow2 by lia. change (2 ^ 16) with 65536.
  rewrite Z.div_mul by lia.
  split; [apply cast16_id, Hv|]. split; [apply cast16_id, Hv|].
  rewrite cast16_eq. unfold Word16, MIN_16, MAX_16 in Hv.
  Z.div_mod_to_equations. lia.
Qed.

Lemma deposit_extract_round_trip_witness :
  Word16 (-12345) /\
  eval (@extract_h build_overflow2
          (eval (@L_deposit_h build_overflow2 (-12345)) Globals_init))
       Globals_init = -12345.
Proof.
  assert (Hv : Word16 (-12345)) by (unfold Word16, MIN_16, MAX_16; lia).
  exact (conj Hv
    (proj1 (@deposit_extract_round_trip build_overflow2 (-12345)
              Globals_init Globals_init Hv))).
Defined.

(** X7.  [extract_h] and [extract_l] split a 32-bit word without loss:
    the word is [extract_h * 2^16] plus the low half read as unsigned. *)
Theorem extract_recompose {build : Build} (x : Z) (g g' : Globals) :
  Word32 x ->
  x = eval (extract_h x) g * 65536 + eval (extract_l x) g' mod 65536 /\
  Word16 (eval (extract_h x) g) /\ Word16 (eval (extract_l x) g').
Proof.
  intros Hx. rewrite eval_extract_h, eval_extract_l.
  rewrite (cast16_id (Z.shiftr x 16)) by (apply shiftr16_Word16, Hx).
  split; [|split; [apply shiftr16_Word16, Hx|apply cast16_range]].
  rewrite Z.shiftr_div_pow2 by lia. change (2 ^ 16) with 65536.
  rewrite cast16_eq. Z.div_mod_to_equations. lia.
Qed.

Lemma extract_recompose_witness :
  Word32 (-123456789) /\
  -123456789 =
    eval (@extract_h build_overflow2 (-123456789)) Globals_init * 65536 +
    eval (@extract_l build_overflow2 (-123456789)) Globals_init mod 65536.
Proof.
  assert (Hx : Word32 (-123456789)) by (unfold Word32, MIN_32, MAX_32; lia).
  exact (conj Hx
    (proj1 (@extract_recompose build_overflow2 (-123456789) Globals_init
              Globals_init Hx))).
Defined.

Section ShiftFacts.
Context {build : Build}.

(** ** Rounding shifts *)

Lemma land_pow2_testbit a n :
  0 <= n -> (Z.land a (2 ^ n) =? 0) = negb (Z.testbit a n).
Proof.
  intros Hn. destruct (Z.testbit a n) eqn:E; cbn [negb].
  - apply Z.eqb_neq. intros H0.
    assert (Hb : Z.testbit (Z.land a (2 ^ n)) n = true).
    { rewrite Z.land_spec, E, Z.pow2_bits_eqb, Z.eqb_refl by lia.
      reflexivity. }
    rewrite H0, Z.testbit_0_l in Hb. discriminate.
  - apply Z.eqb_eq. apply Z.bits_inj'. intros m Hm.
    rewrite Z.land_spec, Z.pow2_bits_eqb, Z.testbit_0_l by lia.
    destruct (n =? m) eqn:Enm; [|apply andb_false_r].
    assert (m = n) by lia. subst m. rewrite E. reflexivity.
Qed.

(** Adding the first discarded bit to the truncated quotient rounds to
    nearest, halves upwards. *)
Lemma round_shift a s :
  0 < s ->
  Z.shiftr a s + (if Z.testbit a (s - 1) then 1 else 0) =
  (a + 2 ^ (s - 1)) / 2 ^ s.
Proof.
  intros Hs. rewrite Z.shiftr_div_pow2 by lia.
  assert (Hsplit : 2 ^ s = 2 ^ (s - 1) * 2).
  { replace s with (s - 1 + 1) at 1 by lia.
    rewrite Z.pow_add_r by lia. reflexivity. }
  rewrite Hsplit. clear Hsplit.
  assert (Hd : 0 < 2 ^ (s - 1)) by (apply Z.pow_pos_nonneg; lia).
  pose proof (Z.testbit_true a (s - 1) ltac:(lia)) as Ht.
  pose proof (Z.testbit_false a (s - 1) ltac:(lia)) as Hf.
  set (d := 2 ^ (s - 1)) in *.
  rewrite <- !Z.div_div by lia.
  replace ((a + d) / d) with (a / d + 1)
    by (replace (a + d) with (a + 1 * d) by ring;
        rewrite Z.div_add by lia; reflexivity).
  destruct (Z.testbit a (s - 1)).
  - assert (H1 : (a / d) mod 2 = 1) by (apply Ht; reflexivity).
    generalize dependent (a / d). intros k _ _ H1.
    Z.div_mod_to_equations. lia.
  - assert (H0 : (a / d) mod 2 = 0) by (apply Hf; reflexivity).
    generalize dependent (a / d). intros k _ _ H0.
    Z.div_mod_to_equations. lia.
Qed.

Lemma eval_shr_r_round a s g :
  Word16 a -> 0 < s <= 15 ->
  eval (shr_r a s) g = (a + 2 ^ (s - 1)) / 2 ^ s.
Proof.
  intros Ha Hs. unfold shr_r. run_monad.
  destruct (s >? 15) eqn:E15; [lia|]. run_monad.
  rewrite eval_shr by exact Ha.
  rewrite clamp16_id by (apply shiftr_Word16; auto; lia).
  destruct (s >? 0) eqn:E0; [|lia]. cbn [andb fst snd]. run_monad.
  rewrite Z.shiftl_mul_pow2, Z.mul_1_l by lia.
  rewrite land_pow2_testbit by lia. rewrite negb_involutive.
  rewrite <- round_shift by lia.
  assert (Hr : -16384 <= Z.shiftr a s <= 16383).
  { unfold Word16, MIN_16, MAX_16 in Ha.
    rewrite Z.shiftr_div_pow2 by lia.
    assert (Hp : 2 <= 2 ^ s).
    { change 2 with (2 ^ 1) at 1. apply Z.pow_le_mono_r; lia. }
    generalize dependent (2 ^ s). intros d Hd.
    Z.div_mod_to_equations. nia. }
  destruct (Z.testbit a (s - 1)).
  - apply cast16_id. unfold Word16, MIN_16, MAX_16. lia.
  - lia.
Qed.

Lemma clamp32_mul_pow2_min32 a s :
  Word32 a -> 0 < s ->
  clamp MIN_32 MAX_32 (a * 2 ^ Z.min s 32) = clamp MIN_32 MAX_32 (a * 2 ^ s).
Proof.
  intros Ha Hs. destruct (Z.le_gt_cases s 32).
  - rewrite Z.min_l by lia. reflexivity.
  - rewrite Z.min_r by lia.
    assert (Hp : 4294967296 <= 2 ^ s).
    { change 4294967296 with (2 ^ 32). apply Z.pow_le_mono_r; lia. }
    change (2 ^ 32) with 4294967296.
    destruct (Z.eq_dec a 0) as [->|Hne]; [rewrite !Z.mul_0_l; reflexivity|].
    rewrite !clamp32_cases. unfold Word32, MIN_32, MAX_32 in *.
    destruct (a * 4294967296 <? -2147483648) eqn:E1;
      destruct (0x7fffffff <? a * 4294967296) eqn:E2;
      destruct (a * 2 ^ s <? -2147483648) eqn:E3;
      destruct (0x7fffffff <? a * 2 ^ s) eqn:E4; try reflexivity; nia.
Qed.

(** [L_shr] over every count: the saturated shift. *)
Lemma eval_L_shr a s g :
  Word32 a -> eval (L_shr a s) g = clamp MIN_32 MAX_32 (Z.shiftr a s).
Proof.
  intros Ha. destruct (Z.lt_ge_cases s 0) as [Hs|Hs].
  - unfold L_shr. cbn [L_shr_fuel]. run_monad.
    destruct (s <? 0) eqn:E0; [|lia].
    destruct (neg_count_range32 s ltac:(lia)) as [Hr Hc].
    run_monad. rewrite eval_L_shl_fuel_pos by (auto; lia).
    cbn [fst snd]. run_monad. rewrite Hc.
    rewrite clamp32_mul_pow2_min32 by (auto; lia).
    rewrite <- Z.shiftl_mul_pow2 by lia.
    rewrite Z.shiftl_opp_r. reflexivity.
  - rewrite eval_L_shr_nonneg by auto.
    symmetry. apply clamp32_id, shiftr_Word32; auto.
Qed.

Lemma eval_L_shr_r_round a s g :
  Word32 a -> 0 < s <= 31 ->
  eval (L_shr_r a s) g = (a + 2 ^ (s - 1)) / 2 ^ s.
Proof.
  intros Ha Hs. unfold L_shr_r. run_monad.
  destruct (s >? 31) eqn:E31; [lia|]. run_monad.
  rewrite eval_L_shr_nonneg by (auto; lia).
  destruct (s >? 0) eqn:E0; [|lia]. cbn [andb fst snd]. run_monad.
  rewrite Z.shiftl_mul_pow2, Z.mul_1_l by lia.
  assert (Hp1 : 1 <= 2 ^ (s - 1) <= 1073741824).
  { split.
    - change 1 with (2 ^ 0). apply Z.pow_le_mono_r; lia.
    - change 1073741824 with (2 ^ 30). apply Z.pow_le_mono_r; lia. }
  rewrite cast32_id by (unfold Word32, MIN_32, MAX_32; lia).
  rewrite land_pow2_testbit by lia. rewrite negb_involutive.
  rewrite <- round_shift by lia.
  assert (Hr : -1073741824 <= Z.shiftr a s <= 1073741823).
  { unfold Word32, MIN_32, MAX_32 in Ha.
    rewrite Z.shiftr_div_pow2 by lia.
    assert (Hp : 2 <= 2 ^ s).
    { change 2 with (2 ^ 1) at 1. apply Z.pow_le_mono_r; lia. }
    generalize dependent (2 ^ s). intros d Hd.
    Z.div_mod_to_equations. nia. }
  destruct (Z.testbit a (s - 1)).
  - apply cast32_id. unfold Word32, MIN_32, MAX_32. lia.
  - lia.
Qed.

End ShiftFacts.

(** X8.  [shr_r] rounds to nearest: for a count [s] in 1..15 it returns
    [(a + 2^(s-1)) / 2^s] rounded down; a count above 15 gives 0 for every
    input (where [shr] gives -1 for a negative input); a count that is not
    positive is plain [shr]. *)
Theorem shr_r_rounds {build : Build} (a s : Z) (g g' : Globals) :
  Word16 a ->
  (0 < s <= 15 -> eval (shr_r a s) g = (a + 2 ^ (s - 1)) / 2 ^ s) /\
  (15 < s -> eval (shr_r a s) g = 0 /\
             eval (shr a s) g' = if a <? 0 then -1 else 0) /\
  (s <= 0 -> eval (shr_r a s) g = eval (shr a s) g').
Proof.
  intros Ha. split; [apply eval_shr_r_round; exact Ha|]. split.
  - intros Hs. split.
    + unfold shr_r. run_monad. destruct (s >? 15) eqn:E; [|lia].
      run_monad. reflexivity.
    + rewrite eval_shr by exact Ha.
      rewrite clamp16_id by (apply shiftr_Word16; auto; lia).
      apply shiftr_sign_fill; auto; lia.
  - intros Hs. unfold shr_r. run_monad.
    destruct (s >? 15) eqn:E; [lia|]. run_monad.
    destruct (s >? 0) eqn:E0; [lia|]. cbn [andb fst snd]. run_monad.
    rewrite !eval_shr by exact Ha. reflexivity.
Qed.

Lemma shr_r_rounds_witness :
  Word16 (-5) /\ 0 < 1 <= 15 /\
  eval (@shr_r build_overflow2 (-5) 1) Globals_init =
    (-5 + 2 ^ (1 - 1)) / 2 ^ 1.
Proof.
  assert (Ha : Word16 (-5)) by (unfold Word16, MIN_16, MAX_16; lia).
  assert (Hs : 0 < 1 <= 15) by lia.
  exact (conj Ha (conj Hs
    (proj1 (@shr_r_rounds build_overflow2 (-5) 1 Globals_init Globals_init
              Ha) Hs))).
Defined.

(** X9.  [L_shr_r] rounds to nearest: for a count [s] in 1..31 it returns
    [(x + 2^(s-1)) / 2^s] rounded down; a count above 31 gives 0 for every
    input; a count that is not positive is plain [L_shr]. *)
Theorem L_shr_r_rounds {build : Build} (x s : Z) (g g' : Globals) :
  Word32 x ->
  (0 < s <= 31 -> eval (L_shr_r x s) g = (x + 2 ^ (s - 1)) / 2 ^ s) /\
  (31 < s -> eval (L_shr_r x s) g = 0) /\
  (s <= 0 -> eval (L_shr_r x s) g = eval (L_shr x s) g').
Proof.
  intros Hx. split; [apply eval_L_shr_r_round; exact Hx|]. split.
  - intros Hs. unfold L_shr_r. run_monad. destruct (s >? 31) eqn:E; [|lia].
    run_monad. reflexivity.
  - intros Hs. unfold L_shr_r. run_monad.
    destruct (s >? 31) eqn:E; [lia|]. run_monad.
    destruct (s >? 0) eqn:E0; [lia|]. cbn [andb fst snd]. run_monad.
    rewrite !eval_L_shr by exact Hx. reflexivity.
Qed.

Lemma L_shr_r_rounds_witness :
  Word32 MAX_32 /\ 0 < 31 <= 31 /\
  eval (@L_shr_r build_overflow2 MAX_32 31) Globals_init =
    (MAX_32 + 2 ^ (31 - 1)) / 2 ^ 31.
Proof.
  assert (Hx : Word32 MAX_32) by (unfold Word32, MIN_32, MAX_32; lia).
  assert (Hs : 0 < 31 <= 31) by lia.
  exact (conj Hx (conj Hs
    (proj1 (@L_shr_r_rounds build_overflow2 MAX_32 31 Globals_init
              Globals_init Hx) Hs))).
Defined.

(** X10.  The 32-bit shifts mirror each other: for every 32-bit [x] and
    every count [s], [L_shl(x, -s) = L_shr(x, s)] and
    [L_shr(x, -s) = L_shl(x, s)]; a right shift by [s >= 0] is the
    arithmetic shift and never saturates, a left shift is [x * 2^s]
    clamped to 32 bits. *)
Theorem L_shl_L_shr_symmetry {build : Build} (x s : Z) (g g' : Globals) :
  Word32 x -> Word16 s -> Word16 (- s) ->
  eval (L_shl x (- s)) g = eval (L_shr x s) g' /\
  eval (L_shr x (- s)) g = eval (L_shl x s) g' /\
  (0 <= s -> eval (L_shr x s) g = x / 2 ^ s /\
             eval (L_shl x s) g = clamp MIN_32 MAX_32 (x * 2 ^ s)).
Proof.
  intros Hx _ _. rewrite !eval_L_shl, !eval_L_shr by exact Hx.
  rewrite Z.shiftl_opp_r, Z.shiftr_opp_r.
  split; [reflexivity|]. split; [reflexivity|]. intros Hs.
  rewrite clamp32_id by (apply shiftr_Word32; auto).
  rewrite Z.shiftr_div_pow2, Z.shiftl_mul_pow2 by lia.
  split; reflexivity.
Qed.

Lemma L_shl_L_shr_symmetry_witness :
  Word32 (-123456) /\ Word16 5 /\ Word16 (- 5) /\
  eval (@L_shl build_overflow2 (-123456) (- 5)) Globals_init =
    eval (@L_shr build_overflow2 (-123456) 5) Globals_init.
Proof.
  assert (Hx : Word32 (-123456)) by (unfold Word32, MIN_32, MAX_32; lia).
  assert (Hs : Word16 5) by (unfold Word16, MIN_16, MAX_16; lia).
  assert (Hs' : Word16 (- 5)) by (unfold Word16, MIN_16, MAX_16; lia).
  exact (conj Hx (conj Hs (conj Hs'
    (proj1 (@L_shl_L_shr_symmetry build_overflow2 (-123456) 5 Globals_init
              Globals_init Hx Hs Hs'))))).
Defined.

Section NormFacts.
Context {build : Build}.

(** ** The 32-bit normalisation loop *)

Lemma norm_l_loop_spec fuel : forall x k,
  1 <= x <= MAX_32 -> 0 <= k -> k + Z.of_nat fuel <= 32767 ->
  2147483648 <= x * 2 ^ Z.of_nat fuel ->
  exists n, norm_l_loop fuel x k = Some (k + n) /\
            0 <= n < Z.of_nat fuel /\
            1073741824 <= x * 2 ^ n <= 2147483647.
Proof.
  unfold MAX_32.
  induction fuel as [|fuel IH]; intros x k Hx Hk Hkf Hreach.
  - change (2 ^ Z.of_nat 0) with 1 in Hreach. lia.
  - cbn [norm_l_loop]. rewrite Nat2Z.inj_succ, Z.pow_succ_r in * by lia.
    change (cast32 0x40000000) with 1073741824.
    destruct (x <? 1073741824) eqn:E.
    + rewrite Z.shiftl_mul_pow2 by lia. change (2 ^ 1) with 2.
      rewrite (cast32_id (x * 2)) by (unfold Word32, MIN_32, MAX_32; lia).
      rewrite (cast16_id (k + 1)) by (unfold Word16, MIN_16, MAX_16; lia).
      destruct (IH (x * 2) (k + 1)) as (n & Hn & Hr & Hb); try lia.
      exists (n + 1). rewrite Hn. split; [f_equal; lia|].
      split; [lia|]. rewrite Z.pow_add_r by lia. change (2 ^ 1) with 2. lia.
    + exists 0. rewrite Z.add_0_r. change (2 ^ 0) with 1. repeat split; lia.
Qed.

Lemma eval_norm_l v g :
  Word32 v -> v <> 0 -> v <> -1 ->
  exists n, eval (norm_l v) g = Some n /\ 0 <= n <= 30 /\
            1073741824 <= (if v <? 0 then - v - 1 else v) * 2 ^ n
              <= 2147483647.
Proof.
  unfold Word32, MIN_32, MAX_32. intros Hv H0 H1.
  unfold norm_l, norm_l_fuel. run_monad.
  destruct (v =? 0) eqn:E0; [lia|].
  change (cast32 0xffffffff) with (-1). destruct (v =? -1) eqn:E1; [lia|].
  run_monad.
  assert (Hc : (if v <? 0 then Z.lnot v else v) =
               (if v <? 0 then - v - 1 else v)).
  { destruct (v <? 0); [unfold Z.lnot; lia|reflexivity]. }
  rewrite Hc.
  assert (Hx : 1 <= (if v <? 0 then - v - 1 else v) <= MAX_32)
    by (unfold MAX_32; destruct (v <? 0) eqn:E; lia).
  destruct (norm_l_loop_spec 31 (if v <? 0 then - v - 1 else v) 0)
    as (n & Hn & Hr & Hb);
    try exact Hx; try (unfold MAX_32 in Hx; cbn; lia).
  exists n. rewrite Hn. split; [reflexivity|]. split; [lia|exact Hb].
Qed.

Lemma eval_norm_l_0 g : eval (norm_l 0) g = Some 0.
Proof. unfold norm_l, norm_l_fuel. run_monad. reflexivity. Qed.

Lemma eval_norm_l_m1 g : eval (norm_l (-1)) g = Some 31.
Proof. unfold norm_l, norm_l_fuel. run_monad. reflexivity. Qed.

Lemma next_multiple_fits32 x n :
  0 <= n <= 30 -> 0 <= x -> x * 2 ^ n <= 2147483647 ->
  (x + 1) * 2 ^ n <= 2147483648.
Proof.
  intros Hn Hx Hb.
  assert (Hsplit : 2147483648 = 2 ^ n * 2 ^ (31 - n)).
  { rewrite <- Z.pow_add_r by lia. replace (n + (31 - n)) with 31 by lia.
    reflexivity. }
  assert (Hp : 0 < 2 ^ n) by (apply Z.pow_pos_nonneg; lia).
  assert (Hq : 0 < 2 ^ (31 - n)) by (apply Z.pow_pos_nonneg; lia).
  assert (x < 2 ^ (31 - n)) by nia. nia.
Qed.

End NormFacts.

(** X11.  [norm_l(0) = 0], [norm_l(-1) = 31], and for every other 32-bit
    [v] the count [n = norm_l(v)] is in 0..30 and [L_shl(v, n)] is [v * 2^n]
    without saturation, normalised: in 2^30..2^31-1 for positive [v], in
    -2^31..-2^30-1 for negative [v].  The loop ends within its 31
    iterations. *)
Theorem norm_l_normalises {build : Build} (v : Z) (g g' : Globals) :
  Word32 v -> v <> 0 ->
  eval (norm_l 0) g = Some 0 /\
  eval (norm_l (-1)) g = Some 31 /\
  exists n, eval (norm_l v) g = Some n /\ 0 <= n <= 31 /\
    eval (L_shl v n) g' = v * 2 ^ n /\
    (0 < v -> 1073741824 <= v * 2 ^ n <= 2147483647) /\
    (v < 0 -> -2147483648 <= v * 2 ^ n <= -1073741825).
Proof.
  intros Hv Hnz. split; [apply eval_norm_l_0|].
  split; [apply eval_norm_l_m1|].
  destruct (Z.eq_dec v (-1)) as [->|Hm1].
  - exists 31. rewrite eval_norm_l_m1. split; [reflexivity|].
    split; [lia|]. rewrite eval_L_shl by exact Hv.
    split; [reflexivity|]. split; [lia|]. intros _.
    change (2 ^ 31) with 2147483648. lia.
  - destruct (eval_norm_l v g Hv Hnz Hm1) as (n & Hn & Hr & Hb).
    exists n. split; [exact Hn|]. split; [lia|].
    rewrite eval_L_shl by exact Hv. rewrite Z.shiftl_mul_pow2 by lia.
    unfold Word32, MIN_32, MAX_32 in Hv.
    assert (Hp : 1 <= 2 ^ n).
    { change 1 with (2 ^ 0). apply Z.pow_le_mono_r; lia. }
    destruct (v <? 0) eqn:E.
    + pose proof (next_multiple_fits32 (- v - 1) n Hr ltac:(lia) ltac:(lia))
        as Hfit.
      assert (Hrange : -2147483648 <= v * 2 ^ n <= -1073741825) by nia.
      split; [apply clamp32_id; unfold Word32, MIN_32, MAX_32; lia|].
      split; [lia|]. intros _. exact Hrange.
    + split; [apply clamp32_id; unfold Word32, MIN_32, MAX_32; lia|].
      split; [intros _; lia|lia].
Qed.

Lemma norm_l_normalises_witness :
  Word32 (-5) /\ -5 <> 0 /\
  exists n, eval (@norm_l build_overflow2 (-5)) Globals_init = Some n /\
    eval (@L_shl build_overflow2 (-5) n) Globals_init = -5 * 2 ^ n.
Proof.
  assert (Hv : Word32 (-5)) by (unfold Word32, MIN_32, MAX_32; lia).
  assert (Hnz : -5 <> 0) by lia.
  split; [exact Hv|]. split; [exact Hnz|].
  destruct (@norm_l_normalises build_overflow2 (-5) Globals_init
              Globals_init Hv Hnz) as (_ & _ & n & Hn & _ & Hs & _).
  exists n. split; [exact Hn|exact Hs].
Defined.

Section DivisionFacts.
Context {build : Build}.

(** ** The 32-by-16 division loop *)

Lemma eval_div_l_loop n : forall q r d g,
  0 < d <= 1073709056 -> 0 <= r < d -> 0 <= q ->
  (q + 1) * 2 ^ Z.of_nat n <= 32768 ->
  eval (div_l_loop n q r d) g =
  (q * 2 ^ Z.of_nat n + r * 2 ^ Z.of_nat n / d, (r * 2 ^ Z.of_nat n) mod d).
Proof.
  induction n as [|n IH]; intros q r d g Hd Hr Hq Hb.
  - cbn [div_l_loop]. run_monad. change (2 ^ Z.of_nat 0) with 1.
    rewrite !Z.mul_1_r, Z.div_small, Z.mod_small by lia.
    f_equal. lia.
  - cbn [div_l_loop]. rewrite Nat2Z.inj_succ, Z.pow_succ_r in * by lia.
    assert (Hp : 1 <= 2 ^ Z.of_nat n).
    { change 1 with (2 ^ 0). apply Z.pow_le_mono_r; lia. }
    set (k := 2 ^ Z.of_nat n) in *.
    run_monad.
    rewrite eval_shl by (unfold Word16, MIN_16, MAX_16; nia).
    rewrite eval_L_shl by (unfold Word32, MIN_32, MAX_32; lia).
    rewrite !Z.shiftl_mul_pow2 by lia. change (2 ^ 1) with 2.
    rewrite (clamp16_id (q * 2)) by (unfold Word16, MIN_16, MAX_16; nia).
    rewrite (clamp32_id (r * 2)) by (unfold Word32, MIN_32, MAX_32; lia).
    destruct (r * 2 >=? d) eqn:Ege; run_monad.
    + rewrite eval_L_sub by (unfold Word32, MIN_32, MAX_32; lia).
      rewrite clamp32_id by (unfold Word32, MIN_32, MAX_32; lia).
      rewrite eval_add by (unfold Word16, MIN_16, MAX_16; nia).
      rewrite clamp16_id by (unfold Word16, MIN_16, MAX_16; nia).
      cbn [fst snd]. rewrite IH by nia.
      destruct (div_step_sub r d k) as [H1 H2]; [lia|lia|].
      replace (r * 2 - d) with (2 * r - d) by ring.
      replace (r * (2 * k)) with (2 * r * k) by ring.
      rewrite <- H1, H2. f_equal. ring.
    + cbn [fst snd]. rewrite IH by nia.
      replace (r * 2 * k) with (r * (2 * k)) by ring. f_equal. ring.
Qed.

Lemma div_l_abort L_num den g :
  div_l L_num den g = None <-> (den = 0 \/ L_num < 0 \/ den < 0).
Proof.
  unfold div_l.
  destruct (den =? 0) eqn:E1; destruct (L_num <? 0) eqn:E2;
    destruct (den <? 0) eqn:E3; cbn [orb]; split; intros H;
    try reflexivity; try discriminate; lia.
Qed.

Lemma eval_div_l L_num den g :
  Word32 L_num -> Word16 den -> 0 <= L_num -> 0 < den ->
  option_map fst (div_l L_num den g) =
  Some (Z.min 32767 (L_num / (2 * den))).
Proof.
  unfold Word32, Word16, MIN_32, MAX_32, MIN_16, MAX_16.
  intros Hn Hd Hn0 Hd0. unfold div_l.
  destruct (den =? 0) eqn:E1; [lia|].
  destruct (L_num <? 0) eqn:E2; [lia|].
  destruct (den <? 0) eqn:E3; [lia|]. cbn [orb option_map].
  f_equal. change (fst (?m g)) with (eval m g). run_monad.
  rewrite eval_L_deposit_h by (unfold Word16, MIN_16, MAX_16; lia).
  destruct (L_num >=? den * 65536) eqn:Ege; run_monad.
  - unfold MAX_16. rewrite Z.min_l; [reflexivity|].
    apply Z.div_le_lower_bound; lia.
  - rewrite !eval_L_shr_nonneg by (unfold Word32, MIN_32, MAX_32; lia).
    rewrite !Z.shiftr_div_pow2 by lia. change (2 ^ 1) with 2.
    replace (den * 65536 / 2) with (den * 32768)
      by (Z.div_mod_to_equations; lia).
    assert (Hhalf : 0 <= L_num / 2 < den * 32768)
      by (Z.div_mod_to_equations; lia).
    match goal with
    | |- context [eval (div_l_loop 15 0 ?r ?d) ?g'] =>
        rewrite (eval_div_l_loop 15 0 r d g') by (cbn; lia)
    end.
    cbn [fst]. run_monad. change (2 ^ Z.of_nat 15) with 32768.
    rewrite Z.mul_0_l, Z.add_0_l.
    rewrite (Z.mul_comm den 32768), Z.mul_comm.
    rewrite Z.div_mul_cancel_l by lia.
    rewrite Z.div_div by lia.
    rewrite Z.min_r; [reflexivity|].
    assert (L_num / (2 * den) < 32768)
      by (apply Z.div_lt_upper_bound; lia).
    lia.
Qed.

End DivisionFacts.

(** X12.  Over its whole legal domain ([0 <= var1 <= var2], [var2 > 0])
    [div_s] returns the truncated quotient [var1 * 2^15 / var2] capped at
    32767; the cap acts only for equal operands, and [div_s(0, y) = 0]. *)
Theorem div_s_legal_domain {build : Build} (var1 var2 : Z) (g : Globals) :
  Word16 var2 -> 0 <= var1 <= var2 -> 0 < var2 ->
  option_map fst (div_s var1 var2 g) =
    Some (Z.min 32767 (var1 * 32768 / var2)) /\
  (var1 = var2 -> option_map fst (div_s var1 var2 g) = Some 32767) /\
  (var1 = 0 -> option_map fst (div_s var1 var2 g) = Some 0).
Proof.
  intros Hw Hr Hpos.
  assert (Heq : var1 = var2 ->
                option_map fst (div_s var1 var2 g) = Some 32767).
  { intros ->. unfold div_s.
    destruct (var2 >? var2) eqn:E1; [lia|].
    destruct (var2 <? 0) eqn:E2; [lia|].
    destruct (var2 =? 0) eqn:E3; [lia|]. cbn [orb option_map].
    f_equal. change (fst (?m g)) with (eval m g). run_monad.
    rewrite Z.eqb_refl. run_monad. reflexivity. }
  assert (Hlt : var1 < var2 ->
                option_map fst (div_s var1 var2 g) =
                Some (var1 * 32768 / var2)).
  { intros H. apply eval_div_s; [exact Hw|lia]. }
  split; [|split; [exact Heq|]].
  - destruct (Z.eq_dec var1 var2) as [->|Hne].
    + rewrite Heq by reflexivity.
      rewrite Z.mul_comm, Z.div_mul by lia. reflexivity.
    + rewrite Hlt by lia. rewrite Z.min_r; [reflexivity|].
      assert (var1 * 32768 / var2 < 32768)
        by (apply Z.div_lt_upper_bound; lia).
      lia.
  - intros ->. rewrite Hlt by lia. reflexivity.
Qed.

Lemma div_s_legal_domain_witness :
  Word16 77 /\ 0 <= 77 <= 77 /\ 0 < 77 /\
  option_map fst (@div_s build_overflow2 77 77 Globals_init) = Some 32767.
Proof.
  assert (Hw : Word16 77) by (unfold Word16, MIN_16, MAX_16; lia).
  assert (Hr : 0 <= 77 <= 77) by lia.
  assert (Hp : 0 < 77) by lia.
  destruct (@div_s_legal_domain build_overflow2 77 77 Globals_init Hw Hr Hp)
    as (_ & Heq & _).
  exact (conj Hw (conj Hr (conj Hp (Heq eq_refl)))).
Defined.

(** X13.  [div_l] exits exactly when [den = 0], [L_num < 0] or [den < 0];
    for every other pair it returns [L_num / (2 * den)] rounded down and
    capped at 32767 (the cap acts when [L_num >= den * 2^16]). *)
Theorem div_l_quotient {build : Build} (L_num den : Z) (g : Globals) :
  Word32 L_num -> Word16 den ->
  (div_l L_num den g = None <-> (den = 0 \/ L_num < 0 \/ den < 0)) /\
  (0 <= L_num -> 0 < den ->
   option_map fst (div_l L_num den g) =
     Some (Z.min 32767 (L_num / (2 * den)))).
Proof.
  intros Hn Hd. split; [apply div_l_abort|].
  intros H0 H1. apply eval_div_l; assumption.
Qed.

Lemma div_l_quotient_witness :
  Word32 123456789 /\ Word16 32767 /\
  option_map fst (@div_l build_overflow2 123456789 32767 Globals_init) =
    Some (Z.min 32767 (123456789 / (2 * 32767))).
Proof.
  assert (Hn : Word32 123456789) by (unfold Word32, MIN_32, MAX_32; lia).
  assert (Hd : Word16 32767) by (unfold Word16, MIN_16, MAX_16; lia).
  exact (conj Hn (conj Hd
    (proj2 (@div_l_quotient build_overflow2 123456789 32767 Globals_init
              Hn Hd) ltac:(lia) ltac:(lia)))).
Defined.

Section MlsFacts.
Context {build : Build}.

Lemma eval_L_mls Lv v g :
  Word32 Lv -> Word16 v ->
  eval (L_mls Lv v) g =
  clamp MIN_32 MAX_32
    ((Lv mod 65536) * v / 32768 +
     clamp MIN_32 MAX_32 (2 * (v * (Lv / 65536)))).
Proof.
  intros HL Hv. unfold L_mls. run_monad.
  change 0x0000ffff with (Z.ones 16). rewrite Z.land_ones by lia.
  change (2 ^ 16) with 65536.
  pose proof (Z.mod_pos_bound Lv 65536 ltac:(lia)) as Ha.
  set (a := Lv mod 65536) in *.
  assert (Hav : -2147450880 <= a * v <= 2147385345)
    by (unfold Word16, MIN_16, MAX_16 in Hv; nia).
  rewrite cast32_id by (unfold Word32, MIN_32, MAX_32; lia).
  rewrite eval_L_shr_nonneg by (unfold Word32, MIN_32, MAX_32; lia).
  rewrite eval_extract_h.
  rewrite cast16_id by (apply shiftr16_Word16, HL).
  rewrite !Z.shiftr_div_pow2 by lia.
  change (2 ^ 15) with 32768. change (2 ^ 16) with 65536.
  apply eval_L_mac; [|exact Hv|].
  - unfold Word32, MIN_32, MAX_32. Z.div_mod_to_equations. lia.
  - pose proof (shiftr16_Word16 Lv HL) as Hh.
    rewrite Z.shiftr_div_pow2 in Hh by lia. exact Hh.
Qed.

End MlsFacts.

(** X14.  [L_mls(Lv, v)] is the 48-bit product [v * Lv] shifted right by 15
    and clamped to 32 bits, whenever [v] and the high half of [Lv] are not
    both -32768; in that one case the saturated partial product makes the
    result [2^31 - 1 - low], where [low] is the unsigned low half. *)
Theorem L_mls_product {build : Build} (Lv v : Z) (g : Globals) :
  Word32 Lv -> Word16 v ->
  ((v =? -32768) && (Lv / 65536 =? -32768) = false ->
   eval (L_mls Lv v) g = clamp MIN_32 MAX_32 (v * Lv / 32768)) /\
  ((v =? -32768) && (Lv / 65536 =? -32768) = true ->
   eval (L_mls Lv v) g = MAX_32 - Lv mod 65536).
Proof.
  intros HL Hv. rewrite eval_L_mls by auto.
  pose proof (Z.mod_pos_bound Lv 65536 ltac:(lia)) as Ha.
  assert (Hb : Word16 (Lv / 65536)).
  { pose proof (shiftr16_Word16 Lv HL) as Hh.
    rewrite Z.shiftr_div_pow2 in Hh by lia. exact Hh. }
  assert (Hsplit : Lv = Lv mod 65536 + Lv / 65536 * 65536)
    by (Z.div_mod_to_equations; lia).
  set (a := Lv mod 65536) in *. set (b := Lv / 65536) in *.
  split; intros E.
  - pose proof (product_not_extreme v b Hv Hb E) as Hp.
    rewrite (clamp32_id (2 * (v * b)))
      by (unfold Word32, MIN_32, MAX_32; lia).
    f_equal. rewrite Hsplit.
    replace (v * (a + b * 65536)) with (a * v + 2 * (v * b) * 32768) by ring.
    rewrite Z.div_add by lia. reflexivity.
  - apply andb_true_iff in E. destruct E as [Ev Eb].
    assert (v = -32768) by lia. assert (b = -32768) by lia.
    replace v with (-32768) by lia. replace b with (-32768) by lia.
    change (clamp MIN_32 MAX_32 (2 * (-32768 * -32768))) with MAX_32.
    replace (a * -32768 / 32768) with (- a)
      by (Z.div_mod_to_equations; lia).
    rewrite clamp32_id by (unfold Word32, MIN_32, MAX_32; lia). lia.
Qed.

Lemma L_mls_product_witness :
  Word32 123456789 /\ Word16 (-321) /\
  eval (@L_mls build_overflow2 123456789 (-321)) Globals_init =
    clamp MIN_32 MAX_32 (-321 * 123456789 / 32768).
Proof.
  assert (HL : Word32 123456789) by (unfold Word32, MIN_32, MAX_32; lia).
  assert (Hv : Word16 (-321)) by (unfold Word16, MIN_16, MAX_16; lia).
  exact (conj HL (conj Hv
    (proj1 (@L_mls_product build_overflow2 123456789 (-321) Globals_init
              HL Hv) eq_refl))).
Defined.

Section CarryFacts.

Lemma cast32_near x :
  - 4294967296 <= x < 4294967296 ->
  Word32 (cast32 x) /\
  (cast32 x = x \/ cast32 x = x - 4294967296 \/ cast32 x = x + 4294967296).
Proof.
  intros. split; [apply cast32_range|].
  rewrite cast32_eq. Z.div_mod_to_equations. lia.
Qed.

Lemma mod32_Word32 x :
  Word32 x ->
  x mod 4294967296 = if x <? 0 then x + 4294967296 else x.
Proof.
  unfold Word32, MIN_32, MAX_32. intros.
  destruct (Z.ltb_spec x 0); Z.div_mod_to_equations; lia.
Qed.

Lemma cast32_plus x y : cast32 (cast32 x + y) = cast32 (x + y).
Proof.
  rewrite !cast32_eq.
  replace ((x + 2147483648) mod 4294967296 - 2147483648 + y + 2147483648)
    with ((x + 2147483648) mod 4294967296 + y) by ring.
  replace (x + y + 2147483648) with (x + 2147483648 + y) by ring.
  rewrite Zplus_mod_idemp_l. reflexivity.
Qed.

Lemma eval_L_add_c a b g :
  eval (L_add_c a b) g = cast32 (a + b + Carry g).
Proof. unfold L_add_c, eval. cbn. 
  repeat match goal with
  | |- context [if ?c then _ else _] => destruct c
  end; cbn; apply cast32_plus.
Qed.

End CarryFacts.

(** X15.  [L_add_c] is one limb of a multi-word addition: it returns the
    wrapped sum [a + b + Carry] without saturating, leaves [Carry] at 0 or
    1, and the new [Carry] is exactly the carry out of the unsigned 32-bit
    addition of the two operands and the incoming [Carry]. *)
Theorem L_add_c_carry_chain (a b : Z) (g : Globals) :
  Word32 a -> Word32 b -> Carry g = 0 \/ Carry g = 1 ->
  let r := eval (L_add_c a b) g in
  let c := Carry (exec (L_add_c a b) g) in
  r = cast32 (a + b + Carry g) /\
  (c = 0 \/ c = 1) /\
  a mod 4294967296 + b mod 4294967296 + Carry g =
    r mod 4294967296 + 4294967296 * c.
Proof.
  intros Ha Hb Hc r c. subst r.
  split; [apply eval_L_add_c|].
  rewrite eval_L_add_c.
  assert (Hr : - 4294967296 <= a + b + Carry g < 4294967296)
    by (unfold Word32, MIN_32, MAX_32 in *; lia).
  destruct (cast32_near _ Hr) as [Hr1 Hr2].
  rewrite (mod32_Word32 a Ha), (mod32_Word32 b Hb), (mod32_Word32 _ Hr1).
  subst c. unfold L_add_c, exec. cbn zeta.
  assert (Ht : - 4294967296 <= a + b < 4294967296)
    by (unfold Word32, MIN_32, MAX_32 in *; lia).
  destruct (cast32_near _ Ht) as [Ht1 Ht2].
  change (cast32 0xFFFFFFFF) with (-1).
  pose proof (Z.lxor_nonneg a b) as Hx.
  set (t := cast32 (a + b)) in *.
  set (r := cast32 (a + b + Carry g)) in *.
  set (x := Z.lxor a b) in *.
  unfold Word32, MIN_32, MAX_32 in *.
  destruct ((a >? 0) && (b >? 0) && (t <? 0)) eqn:E1;
  [| destruct ((a <? 0) && (b <? 0)) eqn:E2;
     [ destruct (t >=? 0) eqn:E3
     | destruct ((x <? 0) && (t >=? 0)) eqn:E3 ] ];
  cbn [snd fst Carry set_Overflow set_Carry];
  (destruct (Carry g =? 0) eqn:E4; cbn [negb];
   [| destruct (t =? 2147483647) eqn:E5; [| destruct (t =? -1) eqn:E6 ] ]);
  cbn [snd fst Carry set_Overflow set_Carry];
  destruct (a <? 0) eqn:Ea; destruct (b <? 0) eqn:Eb; destruct (r <? 0) eqn:Er;
  lia.
Qed.

Lemma L_add_c_carry_chain_witness :
  Carry (exec (L_add_c (-1) 1) Globals_init) = 0 \/
  Carry (exec (L_add_c (-1) 1) Globals_init) = 1.
Proof.
  refine (proj1 (proj2 (L_add_c_carry_chain (-1) 1 Globals_init _ _ _)));
    [unfold Word32, MIN_32, MAX_32; lia
    |unfold Word32, MIN_32, MAX_32; lia
    |left; reflexivity].
Defined.

Lemma eval_L_sub_c (a b : Z) (g : Globals) :
  eval (L_sub_c a b) g =
  cast32 (a - b - (if Carry g =? 0 then 1 else 0)).
Proof.
  unfold L_sub_c, eval. cbn beta.
  destruct (Carry g =? 0) eqn:Ec; cbn [negb].
  - cbn zeta.
    repeat match goal with
    | |- context [if ?c then _ else _] => destruct c
    end; cbn [fst]; apply cast32_plus.
  - destruct (b =? MIN_32) eqn:Eb; cbn [negb].
    + cbn zeta. cbn [fst]. f_equal. lia.
    + fold (eval (L_add_c a (cast32 (- b))) (set_Carry 0 g)).
      rewrite eval_L_add_c. cbn [Carry set_Carry].
      rewrite Z.add_0_r, Z.add_comm, cast32_plus. f_equal. lia.
Qed.

(** X16.  [L_sub_c] returns the wrapped difference and never saturates:
    [a - b] when [Carry] is set on entry and [a - b - 1] when it is clear,
    whatever the operands ([b = MIN_32] included). *)
Theorem L_sub_c_value (a b : Z) (g : Globals) :
  eval (L_sub_c a b) g =
  cast32 (a - b - (if Carry g =? 0 then 1 else 0)).
Proof. apply eval_L_sub_c. Qed.

(** X17.  [i_mult(a, b)] is the integer product [a * b] clamped to
    -32768..32767; the 32-bit product of two 16-bit operands never wraps. *)
Theorem i_mult_saturate {build : Build} (a b : Z) (g : Globals) :
  Word16 a -> Word16 b ->
  eval (i_mult a b) g = clamp MIN_16 MAX_16 (a * b).
Proof.
  intros Ha Hb. rewrite eval_i_mult.
  pose proof (product_range a b Ha Hb).
  rewrite cast32_id by (unfold Word32, MIN_32, MAX_32; lia). reflexivity.
Qed.

Lemma i_mult_saturate_witness :
  eval (@i_mult build_overflow2 300 200) Globals_init = 32767.
Proof.
  rewrite (@i_mult_saturate build_overflow2 300 200 Globals_init)
    by (unfold Word16, MIN_16, MAX_16; lia).
  reflexivity.
Defined.


Section SatFacts.
Context {build : Build}.

Lemma eval_L_sat x g : eval (L_sat x) g = x.
Proof. unfold L_sat, eval. cbn. rewrite bind_run. reflexivity. Qed.

End SatFacts.

(** X18.  [L_sat] never saturates: its test reads the local [Overflow],
    which is 0, so it returns its argument whatever the flags [Carry] and
    [Overflow] hold.  In particular [L_sat(L_add_c(a, b))] is still the
    wrapped sum. *)
Theorem L_sat_never_saturates {build : Build} (a b : Z) (g : Globals) :
  (forall x g', eval (L_sat x) g' = x) /\
  eval (r <- L_add_c a b ;; L_sat r) g = cast32 (a + b + Carry g).
Proof.
  split; [intros; apply eval_L_sat|].
  run_monad. rewrite eval_L_sat. apply eval_L_add_c.
Qed.

(** X19.  In a build with [BASOP_OVERFLOW2], [L_macNs] and [L_msuNs] wrap
    the accumulation but not the product: they return
    [c + p + Carry] and [c - p - 1 + Carry] (for a set [Carry]: [c - p])
    reduced to 32 bits, where [p] is the saturated doubled product of
    [L_mult]. *)
Theorem L_macNs_L_msuNs_wrap {build : Build} (c a b : Z) (g : Globals) :
  BASOP_OVERFLOW2 = true -> Word16 a -> Word16 b ->
  eval (L_macNs c a b) g =
    cast32 (c + clamp MIN_32 MAX_32 (2 * (a * b)) + Carry g) /\
  eval (L_msuNs c a b) g =
    cast32 (c - clamp MIN_32 MAX_32 (2 * (a * b))
              - (if Carry g =? 0 then 1 else 0)).
Proof.
  intros Hchk Ha Hb.
  assert (Hc : Carry (exec (L_mult a b) g) = Carry g).
  { rewrite exec_L_mult by auto. apply ticks_fields. }
  unfold L_macNs, L_msuNs. run_monad.
  rewrite eval_L_add_c, eval_L_sub_c, eval_L_mult, Hc by auto.
  split; reflexivity.
Qed.

Lemma L_macNs_L_msuNs_wrap_witness :
  Word16 300 /\ Word16 200 /\
  eval (@L_macNs build_overflow2 5 300 200) Globals_init = 120005 /\
  eval (@L_msuNs build_overflow2 5 300 200) Globals_init = -119996.
Proof.
  assert (Ha : Word16 300) by (unfold Word16, MIN_16, MAX_16; lia).
  assert (Hb : Word16 200) by (unfold Word16, MIN_16, MAX_16; lia).
  exact (conj Ha (conj Hb
    (@L_macNs_L_msuNs_wrap build_overflow2 5 300 200 Globals_init
       eq_refl Ha Hb))).
Defined.

(* ================================================================== *)
(** * Further properties of the attack detector *)

(** ** The phases as functions of the buffer *)

Section FilterFacts.
Context {build : Build}.

Lemma store_same m i v : store m i v i = v.
Proof. unfold store. rewrite Z.eqb_refl. reflexivity. Qed.

Lemma store_other m i v j : j <> i -> store m i v j = m j.
Proof. unfold store. intros H. destruct (Z.eqb_spec j i); [contradiction|reflexivity]. Qed.

Lemma filter_tap a b c g g1 g2 :
  Word16 a -> Word16 b -> Word16 c ->
  Z.shiftr
    (eval (L_mac (eval (L_msu (eval (L_mult a 12288) g) b 16384) g1) c 4096) g2)
    16 = (3 * a - 4 * b + c) / 8 /\
  Word16 ((3 * a - 4 * b + c) / 8).
Proof.
  intros Ha Hb Hc.
  assert (H12 : Word16 12288) by (unfold Word16, MIN_16, MAX_16; lia).
  assert (H16 : Word16 16384) by (unfold Word16, MIN_16, MAX_16; lia).
  assert (H4 : Word16 4096) by (unfold Word16, MIN_16, MAX_16; lia).
  rewrite eval_L_mult by auto.
  rewrite eval_L_msu by (auto using clamp32_range).
  rewrite eval_L_mac by (auto using clamp32_range).
  unfold Word16, MIN_16, MAX_16 in *.
  rewrite (clamp32_id (2 * (a * 12288))) by (unfold Word32, MIN_32, MAX_32; lia).
  rewrite (clamp32_id (2 * (b * 16384))) by (unfold Word32, MIN_32, MAX_32; lia).
  rewrite (clamp32_id (2 * (c * 4096))) by (unfold Word32, MIN_32, MAX_32; lia).
  rewrite (clamp32_id (_ - _)) by (unfold Word32, MIN_32, MAX_32; lia).
  rewrite (clamp32_id (_ + _)) by (unfold Word32, MIN_32, MAX_32; lia).
  rewrite Z.shiftr_div_pow2 by lia. change (2 ^ 16) with 65536.
  split; Z.div_mod_to_equations; lia.
Qed.

Lemma attdec_filter_step i m g :
  Word16 (m i) -> Word16 (m (i - 1)) -> Word16 (m (i - 2)) ->
  eval (tmp <- L_mult (m i) 12288 ;;
        tmp <- L_msu tmp (m (i - 1)) 16384 ;;
        tmp <- L_mac tmp (m (i - 2)) 4096 ;;
        v <- extract_h tmp ;;
        ret (store m i v)) g =
  store m i ((3 * m i - 4 * m (i - 1) + m (i - 2)) / 8).
Proof.
  intros H0 H1 H2. run_monad. rewrite eval_extract_h.
  destruct (filter_tap (m i) (m (i - 1)) (m (i - 2)) g
              (exec (L_mult (m i) 12288) g)
              (exec (L_msu (eval (L_mult (m i) 12288) g) (m (i - 1)) 16384)
                 (exec (L_mult (m i) 12288) g)) H0 H1 H2) as [E W].
  rewrite E, cast16_id by exact W. reflexivity.
Qed.

Lemma attdec_filter_loop k : forall x g,
  (forall i, -2 <= i < Z.of_nat k -> Word16 (x i)) ->
  forall j,
  eval (for_down k
          (fun i input_16k =>
             tmp <- L_mult (input_16k i) 12288 ;;
             tmp <- L_msu tmp (input_16k (i - 1)) 16384 ;;
             tmp <- L_mac tmp (input_16k (i - 2)) 4096 ;;
             v <- extract_h tmp ;;
             ret (store input_16k i v)) x) g j =
  if (0 <=? j) && (j <? Z.of_nat k)
  then (3 * x j - 4 * x (j - 1) + x (j - 2)) / 8 else x j.
Proof.
  induction k as [|k IH]; intros x g Hx j.
  - cbn [for_down]. rewrite eval_ret.
    destruct (Z.leb_spec 0 j); cbn [andb]; [|reflexivity].
    destruct (Z.ltb_spec j (Z.of_nat 0)); [lia|reflexivity].
  - cbn [for_down]. rewrite eval_bind.
    rewrite attdec_filter_step by (apply Hx; lia).
    rewrite IH.
    2:{ intros i Hi. rewrite store_other by lia. apply Hx. lia. }
    destruct (Z.leb_spec 0 j) as [H0|H0]; cbn [andb].
    + destruct (Z.ltb_spec j (Z.of_nat k)) as [H1|H1].
      * rewrite !store_other by lia.
        destruct (Z.ltb_spec j (Z.of_nat (S k))); [reflexivity|lia].
      * destruct (Z.ltb_spec j (Z.of_nat (S k))) as [H2|H2].
        -- assert (j = Z.of_nat k) by lia. subst j. apply store_same.
        -- apply store_other. lia.
    + apply store_other. lia.
Qed.

(** Whatever the buffer holds, the filtered samples are 16-bit values and
    the rest of the buffer is untouched. *)
Lemma attdec_filter_loop_range k : forall x g j,
  (0 <= j < Z.of_nat k ->
   Word16 (eval (for_down k
          (fun i input_16k =>
             tmp <- L_mult (input_16k i) 12288 ;;
             tmp <- L_msu tmp (input_16k (i - 1)) 16384 ;;
             tmp <- L_mac tmp (input_16k (i - 2)) 4096 ;;
             v <- extract_h tmp ;;
             ret (store input_16k i v)) x) g j)) /\
  (~ 0 <= j < Z.of_nat k ->
   eval (for_down k
          (fun i input_16k =>
             tmp <- L_mult (input_16k i) 12288 ;;
             tmp <- L_msu tmp (input_16k (i - 1)) 16384 ;;
             tmp <- L_mac tmp (input_16k (i - 2)) 4096 ;;
             v <- extract_h tmp ;;
             ret (store input_16k i v)) x) g j = x j).
Proof.
  induction k as [|k IH]; intros x g j.
  - cbn [for_down]. rewrite eval_ret. split; [lia|reflexivity].
  - cbn [for_down]. rewrite eval_bind.
    match goal with
    | |- context [for_down k ?b ?x' ] =>
        match goal with
        | |- context [eval (for_down k b ?x') ?g'] =>
            destruct (IH x' g' j) as [IH1 IH2]
        end
    end.
    split; intros Hj.
    + destruct (Z.eq_dec j (Z.of_nat k)) as [->|Hne].
      * rewrite IH2 by lia. run_monad. rewrite store_same, eval_extract_h.
        apply cast16_range.
      * apply IH1. lia.
    + rewrite IH2 by lia. run_monad. apply store_other. lia.
Qed.

End FilterFacts.


Lemma for_up_store_lookup (body : Z -> Mem -> M Mem) (F : Z -> Z) :
  (forall i m g, eval (body i m) g = store m i (F i)) ->
  forall n i0 m g j,
  eval (for_up n i0 body m) g j =
  if (i0 <=? j) && (j <? i0 + Z.of_nat n) then F j else m j.
Proof.
  intros Hbody. induction n as [|n IH]; intros i0 m g j.
  - cbn [for_up]. rewrite eval_ret.
    destruct (Z.leb_spec i0 j); cbn [andb]; [|reflexivity].
    destruct (Z.ltb_spec j (i0 + Z.of_nat 0)); [lia|reflexivity].
  - rewrite eval_for_up_snoc, Hbody.
    destruct (Z.eq_dec j (i0 + Z.of_nat n)) as [->|Hne].
    + rewrite store_same.
      destruct (Z.leb_spec i0 (i0 + Z.of_nat n)); [|lia].
      destruct (Z.ltb_spec (i0 + Z.of_nat n) (i0 + Z.of_nat (S n))); [|lia].
      reflexivity.
    + rewrite store_other, IH by exact Hne.
      destruct (Z.leb_spec i0 j); cbn [andb]; [|reflexivity].
      destruct (Z.ltb_spec j (i0 + Z.of_nat n));
        destruct (Z.ltb_spec j (i0 + Z.of_nat (S n))); try lia; reflexivity.
Qed.

Section ResampleFacts.
Context {build : Build}.

Lemma clamp16_range x : Word16 (clamp MIN_16 MAX_16 x).
Proof.
  unfold Word16, clamp, MIN_16, MAX_16.
  destruct (Z.ltb_spec x (-32768)); destruct (Z.ltb_spec 32767 x); lia.
Qed.

End ResampleFacts.

(** X20.  The downsampling phase, for 16-bit inputs: at 32 kHz sample [j]
    of the 16 kHz buffer is the saturated sum of the input pair
    [2j, 2j + 1], at 48 kHz the saturated sum of the triple
    [3j .. 3j + 2] added from the right, every input first shifted right
    by [1 - (new_scaling - input_scaling)] (resp. [2 - ...], all
    differences saturated; a negative count shifts left and saturates).
    Samples outside [0 .. n - 1] are left alone.  The phase aborts
    exactly when the rate is neither 32000 nor 48000. *)
Theorem attdec_resample_sums {build : Build} (fs_ : Z) (input : Mem)
  (ns isc n : Z) (x : Mem) (g : Globals) :
  (forall i, Word16 (input i)) -> Word16 ns -> Word16 isc ->
  let sat := clamp MIN_16 MAX_16 in
  let sh k v := sat (Z.shiftr v (sat (k - sat (ns - isc)))) in
  (eval (attdec_resample fs_ input ns isc n x) g = None <->
   fs_ <> 32000 /\ fs_ <> 48000) /\
  match eval (attdec_resample fs_ input ns isc n x) g with
  | Some r =>
    forall j,
    r j =
    if (0 <=? j) && (j <? n) then
      if fs_ =? 32000
      then sat (sh 1 (input (2 * j)) + sh 1 (input (2 * j + 1)))
      else sat (sh 2 (input (3 * j)) +
                sat (sh 2 (input (3 * j + 1)) + sh 2 (input (3 * j + 2))))
    else x j
  | None => fs_ <> 32000 /\ fs_ <> 48000
  end.
Proof.
  intros Hin Hns Hisc sat sh. split.
  { unfold attdec_resample, ASSERT_abort.
    destruct (Z.eqb_spec fs_ 32000) as [E32|E32];
      [|destruct (Z.eqb_spec fs_ 48000) as [E48|E48]];
      run_monad; (split; [intros H|intros [H1 H2]]);
      first [discriminate H | contradiction | reflexivity
            | split; assumption]. }
  unfold attdec_resample.
  assert (H1 : Word16 1) by (unfold Word16, MIN_16, MAX_16; lia).
  assert (H2 : Word16 2) by (unfold Word16, MIN_16, MAX_16; lia).
  destruct (Z.eqb_spec fs_ 32000) as [E32|E32];
    [|destruct (Z.eqb_spec fs_ 48000) as [E48|E48]].
  - run_monad. intros j.
    rewrite (for_up_store_lookup _
               (fun i => sat (sh 1 (input (2 * i)) + sh 1 (input (2 * i + 1))))).
    + rewrite Z.add_0_l.
      destruct (Z.leb_spec 0 j); cbn [andb]; [|reflexivity].
      destruct (Z.ltb_spec j (Z.of_nat (Z.to_nat n)));
        destruct (Z.ltb_spec j n); try lia; reflexivity.
    + intros i m g0. run_monad.
      rewrite (eval_sub ns isc) by auto.
      rewrite eval_sub by (auto using clamp16_range).
      rewrite !eval_shr by auto.
      rewrite eval_add by (apply clamp16_range).
      rewrite !Z.add_0_r. reflexivity.
  - run_monad. intros j.
    rewrite (for_up_store_lookup _
               (fun i => sat (sh 2 (input (3 * i)) +
                 sat (sh 2 (input (3 * i + 1)) + sh 2 (input (3 * i + 2)))))).
    + rewrite Z.add_0_l.
      destruct (Z.leb_spec 0 j); cbn [andb]; [|reflexivity].
      destruct (Z.ltb_spec j (Z.of_nat (Z.to_nat n)));
        destruct (Z.ltb_spec j n); try lia; reflexivity.
    + intros i m g0. run_monad.
      rewrite (eval_sub ns isc) by auto.
      rewrite eval_sub by (auto using clamp16_range).
      rewrite !eval_shr by auto.
      rewrite (eval_add (clamp _ _ _) (clamp _ _ _)) by (apply clamp16_range).
      rewrite eval_add by (apply clamp16_range).
      rewrite !Z.add_0_r. reflexivity.
  - unfold ASSERT_abort. rewrite eval_ret. split; assumption.
Qed.

Lemma attdec_resample_sums_witness :
  match eval (@attdec_resample build_overflow2 48000 (fun _ => 100) 3 1 4
                (fun _ => 0)) Globals_init with
  | Some r => r 1 = 300 /\ r 4 = 0
  | None => False
  end.
Proof.
  pose proof (@attdec_resample_sums build_overflow2 48000 (fun _ => 100)
                3 1 4 (fun _ => 0) Globals_init
                (fun _ => ltac:(unfold Word16, MIN_16, MAX_16; lia))
                ltac:(unfold Word16, MIN_16, MAX_16; lia)
                ltac:(unfold Word16, MIN_16, MAX_16; lia)) as H0.
  cbv zeta in H0. destruct H0 as [_ H].
  destruct (eval (@attdec_resample build_overflow2 48000 (fun _ => 100) 3 1 4
                    (fun _ => 0)) Globals_init) as [r|].
  - split; [exact (H 1)|exact (H 4)].
  - destruct H as [_ H]. apply H. reflexivity.
Defined.

(** X21.  The high-pass filter works in place from the last sample down,
    yet every output is computed from unfiltered samples only, and for
    16-bit samples it never saturates: output [j] is
    [(3 x[j] - 4 x[j-1] + x[j-2]) / 8] rounded down, for
    [0 <= j < n]; the two history samples at -2 and -1 and everything from
    [n] on are left alone. *)
Theorem attdec_filter_closed_form {build : Build} (n : Z) (x : Mem)
  (g : Globals) :
  (forall i, -2 <= i < n -> Word16 (x i)) ->
  forall j,
  eval (attdec_filter n x) g j =
  if (0 <=? j) && (j <? n)
  then (3 * x j - 4 * x (j - 1) + x (j - 2)) / 8 else x j.
Proof.
  intros Hx j. unfold attdec_filter.
  destruct (Z.le_gt_cases n 0) as [Hn|Hn].
  - replace (Z.to_nat n) with 0%nat by lia. cbn [for_down].
    rewrite eval_ret.
    destruct (Z.leb_spec 0 j); cbn [andb]; [|reflexivity].
    destruct (Z.ltb_spec j n); [lia|reflexivity].
  - rewrite attdec_filter_loop by (intros i Hi; apply Hx; lia).
    rewrite Z2Nat.id by lia. reflexivity.
Qed.

Lemma attdec_filter_closed_form_witness :
  eval (@attdec_filter build_overflow2 3 (fun i => 100 * i * i))
    Globals_init 2 = (3 * 400 - 4 * 100 + 0) / 8.
Proof.
  exact (@attdec_filter_closed_form build_overflow2 3 (fun i => 100 * i * i)
           Globals_init
           (fun i Hi => ltac:(unfold Word16, MIN_16, MAX_16; nia)) 2).
Defined.


Section EnergyFacts.
Context {build : Build}.

Lemma sum_sq_nonneg x start n : 0 <= sum_sq x start n.
Proof. induction n as [|n IH]; cbn [sum_sq]; nia. Qed.

Lemma L_mac_square c a g :
  0 <= c <= MAX_32 -> Word16 a ->
  eval (L_mac c a a) g = Z.min MAX_32 (c + 2 * (a * a)).
Proof.
  intros Hc Ha.
  rewrite eval_L_mac by (auto; unfold Word32, MIN_32, MAX_32 in *; lia).
  assert (Hsq : 0 <= a * a) by nia.
  assert (Hp : clamp MIN_32 MAX_32 (2 * (a * a)) = Z.min MAX_32 (2 * (a * a))).
  { rewrite clamp32_cases. unfold MIN_32, MAX_32.
    destruct (Z.ltb_spec (2 * (a * a)) (-2147483648));
      destruct (Z.ltb_spec 0x7fffffff (2 * (a * a))); lia. }
  rewrite Hp, clamp32_cases. unfold MIN_32, MAX_32 in *.
  destruct (Z.ltb_spec (c + Z.min 0x7fffffff (2 * (a * a))) (-2147483648));
    destruct (Z.ltb_spec 0x7fffffff
                (c + Z.min 0x7fffffff (2 * (a * a)))); lia.
Qed.

Lemma block_energy_inner x j n : forall E g,
  (forall i, 0 <= i < Z.of_nat n -> Word16 (x (i + j * 40))) ->
  0 <= E j <= MAX_32 ->
  forall k,
  eval (for_up n 0
          (fun i block_energy =>
             e <- L_mac (block_energy j) (x (i + j * 40)) (x (i + j * 40)) ;;
             ret (store block_energy j e)) E) g k =
  if k =? j then Z.min MAX_32 (E j + 2 * sum_sq x (j * 40) n) else E k.
Proof.
  induction n as [|n IH]; intros E g Hx HE k.
  - cbn [for_up sum_sq]. rewrite eval_ret.
    destruct (Z.eqb_spec k j); [subst; lia|reflexivity].
  - rewrite eval_for_up_snoc. run_monad.
    pose proof (sum_sq_nonneg x (j * 40) n) as Hs.
    assert (Hxn : forall i, 0 <= i < Z.of_nat n -> Word16 (x (i + j * 40)))
      by (intros; apply Hx; lia).
    unfold store at 1. destruct (Z.eqb_spec k j) as [->|Hne].
    + rewrite IH by auto. rewrite Z.eqb_refl.
      rewrite L_mac_square by (try apply Hx; unfold MAX_32 in *; lia).
      cbn [sum_sq]. rewrite (Z.add_comm (j * 40) (Z.of_nat n)).
      rewrite Z.add_0_l.
      set (a := x (Z.of_nat n + j * 40)).
      assert (0 <= a * a) by nia. unfold MAX_32 in *. lia.
    + rewrite IH by auto. destruct (Z.eqb_spec k j); [contradiction|].
      reflexivity.
Qed.

Lemma block_energy_outer x n : forall E g,
  (forall i, 0 <= i < 40 * Z.of_nat n -> Word16 (x i)) ->
  (forall j, 0 <= j < Z.of_nat n -> E j = 0) ->
  forall j,
  eval (for_up n 0
          (fun j block_energy =>
             for_up 40 0
               (fun i block_energy =>
                  e <- L_mac (block_energy j) (x (i + j * 40))
                             (x (i + j * 40)) ;;
                  ret (store block_energy j e))
               block_energy) E) g j =
  if (0 <=? j) && (j <? Z.of_nat n)
  then Z.min MAX_32 (2 * sum_sq x (j * 40) 40) else E j.
Proof.
  induction n as [|n IH]; intros E g Hx HE j.
  - cbn [for_up]. rewrite eval_ret.
    destruct (Z.leb_spec 0 j); cbn [andb]; [|reflexivity].
    destruct (Z.ltb_spec j (Z.of_nat 0)); [lia|reflexivity].
  - rewrite eval_for_up_snoc. rewrite Z.add_0_l.
    assert (Hxn : forall i, 0 <= i < 40 * Z.of_nat n -> Word16 (x i))
      by (intros; apply Hx; lia).
    assert (HEn : forall j, 0 <= j < Z.of_nat n -> E j = 0)
      by (intros; apply HE; lia).
    rewrite block_energy_inner.
    + rewrite !IH by auto.
      destruct (Z.eqb_spec j (Z.of_nat n)) as [->|Hne].
      * destruct (Z.leb_spec 0 (Z.of_nat n)); [|lia].
        destruct (Z.ltb_spec (Z.of_nat n) (Z.of_nat n)); [lia|].
        destruct (Z.ltb_spec (Z.of_nat n) (Z.of_nat (S n))); [|lia].
        cbn [andb]. rewrite HE by lia. reflexivity.
      * destruct (Z.leb_spec 0 j); cbn [andb]; [|reflexivity].
        destruct (Z.ltb_spec j (Z.of_nat n));
          destruct (Z.ltb_spec j (Z.of_nat (S n))); try lia; reflexivity.
    + intros i Hi. apply Hx. change (Z.of_nat 40) with 40 in Hi. lia.
    + rewrite IH by auto.
      destruct (Z.leb_spec 0 (Z.of_nat n)); [|lia].
      destruct (Z.ltb_spec (Z.of_nat n) (Z.of_nat n)); [lia|].
      cbn [andb]. rewrite HE by lia. unfold MAX_32. lia.
Qed.

Lemma basop_memset_4 E j :
  basop_memset E 0 4 j = if (0 <=? j) && (j <? 4) then 0 else E j.
Proof.
  cbn [basop_memset]. unfold store. cbn [Z.of_nat Pos.of_succ_nat Pos.succ].
  destruct (Z.eqb_spec j 3); [subst; reflexivity|].
  destruct (Z.eqb_spec j 2); [subst; reflexivity|].
  destruct (Z.eqb_spec j 1); [subst; reflexivity|].
  destruct (Z.eqb_spec j 0); [subst; reflexivity|].
  destruct (Z.leb_spec 0 j); cbn [andb]; [|reflexivity].
  destruct (Z.ltb_spec j 4); [lia|reflexivity].
Qed.

Lemma eval_attdec_block_energy nblocks x E g :
  0 <= nblocks <= 4 ->
  (forall i, 0 <= i < 40 * nblocks -> Word16 (x i)) ->
  forall j,
  eval (attdec_block_energy nblocks x E) g j =
  if (0 <=? j) && (j <? nblocks)
  then Z.min MAX_32 (2 * sum_sq x (j * 40) 40)
  else if (0 <=? j) && (j <? 4) then 0 else E j.
Proof.
  intros Hn Hx j. unfold attdec_block_energy.
  rewrite block_energy_outer.
  - rewrite Z2Nat.id by lia. rewrite basop_memset_4. reflexivity.
  - rewrite Z2Nat.id by lia. exact Hx.
  - rewrite Z2Nat.id by lia. intros k Hk. rewrite basop_memset_4.
    destruct (Z.leb_spec 0 k); [|lia].
    destruct (Z.ltb_spec k 4); [reflexivity|lia].
Qed.

End EnergyFacts.

(** X22.  The block-energy phase, for at most four blocks of 16-bit
    samples: the energy of block [j < nblocks] is twice the sum of the
    squares of its 40 samples, saturated at [MAX_32]; the other entries of
    the four-word table are cleared, and nothing beyond it is written. *)
Theorem attdec_block_energy_sum_sq {build : Build} (nblocks : Z) (x E : Mem)
  (g : Globals) :
  0 <= nblocks <= 4 ->
  (forall i, 0 <= i < 40 * nblocks -> Word16 (x i)) ->
  forall j,
  eval (attdec_block_energy nblocks x E) g j =
  if (0 <=? j) && (j <? nblocks)
  then Z.min MAX_32 (2 * sum_sq x (j * 40) 40)
  else if (0 <=? j) && (j <? 4) then 0 else E j.
Proof. apply eval_attdec_block_energy. Qed.

Lemma attdec_block_energy_sum_sq_witness :
  eval (@attdec_block_energy build_overflow2 2 (fun _ => 3) (fun _ => 7))
    Globals_init 1 = 720 /\
  eval (@attdec_block_energy build_overflow2 2 (fun _ => 3) (fun _ => 7))
    Globals_init 2 = 0.
Proof.
  pose proof (@attdec_block_energy_sum_sq build_overflow2 2 (fun _ => 3)
                (fun _ => 7) Globals_init ltac:(lia)
                (fun i Hi => ltac:(unfold Word16, MIN_16, MAX_16; lia)))
    as H.
  split; [exact (H 1)|exact (H 2)].
Defined.

(** ** The call as a whole, continued *)

Section DetectionFacts.
Context {build : Build} {util : BasopUtil}.

Lemma threshold_step_position E i sp g :
  (snd (eval (attdec_threshold_step E i sp) g) = snd sp /\
   attdec_detected (fst (eval (attdec_threshold_step E i sp) g)) =
     attdec_detected (fst sp)) \/
  (snd (eval (attdec_threshold_step E i sp) g) = i /\
   attdec_detected (fst (eval (attdec_threshold_step E i sp) g)) = 1).
Proof.
  destruct sp as [setup position]. unfold attdec_threshold_step.
  run_monad.
  match goal with
  | |- context [if ?c then (set_attdec_detected 1 setup, i)
                else (setup, position)] => destruct c
  end; run_monad; [right|left]; split; reflexivity.
Qed.

Lemma threshold_loop_position E n : forall sp g,
  (snd (eval (for_up n 0 (attdec_threshold_step E) sp) g) = snd sp /\
   attdec_detected (fst (eval (for_up n 0 (attdec_threshold_step E) sp) g)) =
     attdec_detected (fst sp)) \/
  (0 <= snd (eval (for_up n 0 (attdec_threshold_step E) sp) g) < Z.of_nat n /\
   attdec_detected (fst (eval (for_up n 0 (attdec_threshold_step E) sp) g))
     = 1).
Proof.
  induction n as [|n IH]; intros sp g.
  - left. split; reflexivity.
  - rewrite eval_for_up_snoc, Z.add_0_l.
    destruct (threshold_step_position E (Z.of_nat n)
                (eval (for_up n 0 (attdec_threshold_step E) sp) g)
                (exec (for_up n 0 (attdec_threshold_step E) sp) g))
      as [[Hp Hd]|[Hp Hd]].
    + rewrite Hp, Hd. destruct (IH sp g) as [H|[H1 H2]]; [left; exact H|].
      right. split; [lia|exact H2].
    + right. rewrite Hp, Hd. split; [lia|reflexivity].
Qed.

Lemma attdec_threshold_position enc setup E g :
  attdec_nblocks enc <= 32768 ->
  (attdec_position (eval (attdec_threshold enc setup E) g) = -1 /\
   attdec_detected (eval (attdec_threshold enc setup E) g) =
     (if attdec_position setup >=? attdec_hangover_thresh enc then 1 else 0))
  \/
  (0 <= attdec_position (eval (attdec_threshold enc setup E) g)
     < attdec_nblocks enc /\
   attdec_detected (eval (attdec_threshold enc setup E) g) = 1).
Proof.
  intros Hn. unfold attdec_threshold. run_monad.
  match goal with
  | |- context [eval (for_up ?n 0 ?b ?sp) ?g'] =>
      pose proof (threshold_loop_position E n sp g') as H;
      destruct (eval (for_up n 0 b sp) g') as [setup' position']
  end.
  run_monad.
  cbn [fst snd attdec_position attdec_detected set_attdec_position
       set_attdec_detected] in *.
  destruct H as [[Hp Hd]|[Hp Hd]].
  - left. subst position'. split; [reflexivity|exact Hd].
  - right. rewrite cast16_id by (unfold Word16, MIN_16, MAX_16; lia).
    split; [lia|exact Hd].
Qed.

Lemma attdec_rescale_position enc setup input isc g :
  attdec_position (eval (attdec_rescale enc setup input isc) g) =
  attdec_position setup.
Proof.
  unfold attdec_rescale. run_monad.
  match goal with
  | |- context [if ?c then _ else ret setup] => destruct c
  end; run_monad; reflexivity.
Qed.

(** With attack handling on, a call that returns has run the phases in
    turn: the threshold phase starts from the position of the previous
    frame and reads the block energies, which are accumulated from the
    filtered samples that the call leaves in the scratch. *)
Lemma attack_detector_fx_phases st isc g st' :
  attack_handling (st_setup st) <> 0 ->
  eval (attack_detector_fx st isc) g = Some st' ->
  exists setup2 x g1 g2 g3,
    st_setup st' =
      eval (attdec_threshold (st_enc st) setup2
              (block_energy (st_scratch st'))) g3 /\
    attdec_position setup2 = attdec_position (st_setup st) /\
    block_energy (st_scratch st') =
      eval (attdec_block_energy (attdec_nblocks (st_enc st))
              (input_16k (st_scratch st'))
              (block_energy (st_scratch st))) g2 /\
    input_16k (st_scratch st') =
      eval (attdec_filter (eval (i_mult (attdec_nblocks (st_enc st)) 40) g)
              x) g1.
Proof.
  intros Hon. unfold attack_detector_fx. run_monad.
  destruct (attack_handling (st_setup st) =? 0) eqn:E; [lia|].
  cbn [negb]. run_monad.
  match goal with
  | |- context [match ?r with Some _ => _ | None => _ end] =>
      destruct r as [x|] eqn:Er
  end; run_monad; [|discriminate].
  intros H. injection H as <-.
  cbn [st_enc st_input st_setup st_scratch block_energy input_16k].
  do 5 eexists. split; [reflexivity|].
  split; [|split; reflexivity].
  cbn [attdec_position set_attdec_filter_mem].
  apply attdec_rescale_position.
Qed.

End DetectionFacts.

(** X23.  After every call with attack handling enabled, a supported
    rate and zero to four blocks, the stored position is either -1 or the
    index of a block of the
    frame; when it is a block index the detected flag is 1, and when it is
    -1 the detected flag is the hangover: 1 exactly when the position
    stored by the previous call had reached [attdec_hangover_thresh]. *)
Theorem attack_detector_position {build : Build} {util : BasopUtil}
  (st : State) (input_scaling : Z) (g : Globals) :
  attack_handling (st_setup st) <> 0 ->
  fs (st_enc st) = 32000 \/ fs (st_enc st) = 48000 ->
  0 <= attdec_nblocks (st_enc st) <= 4 ->
  exists st', eval (attack_detector_fx st input_scaling) g = Some st' /\
    ((attdec_position (st_setup st') = -1 /\
      attdec_detected (st_setup st') =
        (if attdec_position (st_setup st) >=?
            attdec_hangover_thresh (st_enc st)
         then 1 else 0)) \/
     (0 <= attdec_position (st_setup st') < attdec_nblocks (st_enc st) /\
      attdec_detected (st_setup st') = 1)).
Proof.
  intros Hon Hfs Hn.
  destruct (attack_detector_fx_returns st input_scaling g
              (or_intror Hfs)) as [st' Hrun].
  exists st'. split; [exact Hrun|].
  destruct (attack_detector_fx_phases st input_scaling g st' Hon Hrun)
    as (setup2 & x & g1 & g2 & g3 & Hs & Hp & _).
  rewrite Hs, <- Hp. apply attdec_threshold_position. lia.
Qed.

Lemma attack_detector_position_witness :
  exists st',
    eval (@attack_detector_fx build_overflow2 example_util
            silent_frame_state 0) Globals_init = Some st' /\
    ((attdec_position (st_setup st') = -1 /\
      attdec_detected (st_setup st') = 0) \/
     (0 <= attdec_position (st_setup st') < 4 /\
      attdec_detected (st_setup st') = 1)).
Proof.
  exact (@attack_detector_position build_overflow2 example_util
           silent_frame_state 0 Globals_init
           ltac:(cbn; lia) (or_introl eq_refl) ltac:(cbn; lia)).
Defined.

(** X24.  After every call with attack handling enabled, a supported rate
    and one to four blocks, whatever the input holds: the filtered samples
    left in the scratch are 16-bit values, each block energy left in the
    scratch is twice the sum of the squares of the 40 filtered samples of
    its block, saturated at [MAX_32], and the accumulated energy stored in
    the setup is not negative. *)
Theorem attack_detector_block_energies {build : Build} {util : BasopUtil}
  (st : State) (input_scaling : Z) (g : Globals) :
  attack_handling (st_setup st) <> 0 ->
  fs (st_enc st) = 32000 \/ fs (st_enc st) = 48000 ->
  1 <= attdec_nblocks (st_enc st) <= 4 ->
  exists st', eval (attack_detector_fx st input_scaling) g = Some st' /\
    (forall i, 0 <= i < 40 * attdec_nblocks (st_enc st) ->
       Word16 (input_16k (st_scratch st') i)) /\
    (forall j, 0 <= j < attdec_nblocks (st_enc st) ->
       block_energy (st_scratch st') j =
       Z.min MAX_32 (2 * sum_sq (input_16k (st_scratch st')) (j * 40) 40)) /\
    0 <= attdec_acc_energy (st_setup st').
Proof.
  intros Hon Hfs Hn.
  destruct (attack_detector_fx_returns st input_scaling g
              (or_intror Hfs)) as [st' Hrun].
  exists st'. split; [exact Hrun|].
  destruct (attack_detector_fx_phases st input_scaling g st' Hon Hrun)
    as (setup2 & x & g1 & g2 & g3 & Hs & _ & HE & Hx).
  assert (Hlen : eval (i_mult (attdec_nblocks (st_enc st)) 40) g =
                 40 * attdec_nblocks (st_enc st)).
  { rewrite eval_i_mult, cast32_id by (unfold Word32, MIN_32, MAX_32; lia).
    rewrite clamp16_id by (unfold Word16, MIN_16, MAX_16; lia). lia. }
  assert (HW : forall i, 0 <= i < 40 * attdec_nblocks (st_enc st) ->
                 Word16 (input_16k (st_scratch st') i)).
  { intros i Hi. rewrite Hx, Hlen. unfold attdec_filter.
    apply attdec_filter_loop_range. rewrite Z2Nat.id by lia. exact Hi. }
  assert (HB : forall j, 0 <= j < attdec_nblocks (st_enc st) ->
     block_energy (st_scratch st') j =
     Z.min MAX_32 (2 * sum_sq (input_16k (st_scratch st')) (j * 40) 40)).
  { intros j Hj.
    pose proof (f_equal (fun m => m j) HE) as HEj. cbn beta in HEj.
    rewrite HEj, eval_attdec_block_energy by (auto; lia).
    destruct (Z.leb_spec 0 j); [|lia].
    destruct (Z.ltb_spec j (attdec_nblocks (st_enc st))); [|lia].
    reflexivity. }
  split; [exact HW|]. split; [exact HB|].
  rewrite Hs, attdec_threshold_energy.
  remember (Z.to_nat (attdec_nblocks (st_enc st))) as n eqn:En.
  destruct n as [|n]; [lia|].
  cbn [attdec_envelope].
  assert (Hlast : Z.of_nat n = attdec_nblocks (st_enc st) - 1) by lia.
  rewrite Hlast, HB by lia.
  pose proof (sum_sq_nonneg (input_16k (st_scratch st'))
                ((attdec_nblocks (st_enc st) - 1) * 40) 40).
  unfold MAX_32. lia.
Qed.

Lemma attack_detector_block_energies_witness :
  exists st',
    eval (@attack_detector_fx build_overflow2 example_util
            silent_frame_state 0) Globals_init = Some st' /\
    0 <= attdec_acc_energy (st_setup st').
Proof.
  destruct (@attack_detector_block_energies build_overflow2 example_util
              silent_frame_state 0 Globals_init
              ltac:(cbn; lia) (or_introl eq_refl) ltac:(cbn; lia))
    as (st' & Hrun & _ & _ & Hacc).
  exists st'. split; [exact Hrun|exact Hacc].
Defined.
